(** * veil: lexer, parser, program graph and translator

    A shallow embedding of the four compiler phases of the repository
    (src/lexer.cpp, src/parser.cpp, src/graph.h, src/translator.cpp) and the
    properties of them that the specification states.

    Conventions of the embedding.
    - [std::string] buffers that are indexed are [list ascii]; names and
      lexemes are [string].
    - [int] counters (line, column, tab width) are [Z].  Signed overflow and
      division by zero are undefined in C++.  The arithmetic of
      [advance_tab], whose operands include the tab width the caller sets, is
      checked against the range of [int] and is undefined outside it; the
      increments by one of the line and column counters are not checked, and
      describe the executions in which these counters stay inside the range
      of [int].  No definition below wraps.
    - [std::size_t] indices are [nat]; the one place where the source relies on
      unsigned wrap-around ([source_.size() - 1]) writes the wrap out.
    - [std::shared_ptr] handles are addresses into an explicit store, so
      that the aliasing the parser relies on is kept. *)

From Stdlib Require Import ZArith Ascii String DecimalString Lia.
From stdpp Require Import base tactics option list strings.

Local Open Scope Z_scope.

(** ** Characters *)

Definition NUL : ascii := "000"%char.
Definition TAB : ascii := "009"%char.
Definition LF : ascii := "010"%char.
Definition CR : ascii := "013"%char.

Definition char_between (lo hi c : ascii) : bool :=
  (nat_of_ascii lo <=? nat_of_ascii c)%nat && (nat_of_ascii c <=? nat_of_ascii hi)%nat.

(** [isalpha] and [isalnum] of <cctype> in the "C" locale.  (For a [char]
    outside the 7-bit range the source passes a negative value, which
    <cctype> leaves undefined; such a character counts as neither here.) *)
Definition isalpha (c : ascii) : bool :=
  char_between "A" "Z" c || char_between "a" "z" c.

Definition isdigit (c : ascii) : bool := char_between "0" "9" c.

Definition isalnum (c : ascii) : bool := isalpha c || isdigit c.

(** ** src/token.h *)

Module TokenType.
Inductive t :=
| arrow | comma | divide | end_ | func_keyword | identifier | left_curly
| left_paren | minus | modulo | multiply | plus | return_keyword
| right_curly | right_paren | semicolon.

Definition eqb (a b : t) : bool :=
  match a, b with
  | arrow, arrow | comma, comma | divide, divide | end_, end_
  | func_keyword, func_keyword | identifier, identifier
  | left_curly, left_curly | left_paren, left_paren | minus, minus
  | modulo, modulo | multiply, multiply | plus, plus
  | return_keyword, return_keyword | right_curly, right_curly
  | right_paren, right_paren | semicolon, semicolon => true
  | _, _ => false
  end.
End TokenType.

Record Token := mkToken {
  type : TokenType.t;
  lexeme : string;
  line_number : Z;
  column_number : Z }.

(** ** src/lexer.cpp *)

Module LexerState.
Inductive t :=
| cr_or_crlf
| divide_or_comment
| identifier_or_keyword
| minus_or_arrow
| multi_line_comment
| multi_line_comment_cr_or_crlf
| multi_line_comment_maybe_end
| single_line_comment
| start.
End LexerState.

Module Lexer.

Record t := mk {
  source_ : list ascii;
  state_ : LexerState.t;
  index_ : nat;
  start_index_ : nat;
  line_number_ : Z;
  start_line_number_ : Z;
  column_number_ : Z;
  start_column_number_ : Z;
  columns_per_tab_ : Z;
  tokens_ : list Token }.

(** The constructor.  The three [start_*] members are left uninitialised by
    the source; they are written by [start_lexeme] before they are read, and
    are zero here. *)
Definition new (source : list ascii) : t :=
  {| source_ := source; state_ := LexerState.start; index_ := 0%nat;
     start_index_ := 0%nat; line_number_ := 1; start_line_number_ := 0;
     column_number_ := 1; start_column_number_ := 0; columns_per_tab_ := 2;
     tokens_ := [] |}.

Definition set_columns_per_tab (w : Z) (l : t) : t :=
  {| source_ := source_ l; state_ := state_ l; index_ := index_ l;
     start_index_ := start_index_ l; line_number_ := line_number_ l;
     start_line_number_ := start_line_number_ l;
     column_number_ := column_number_ l;
     start_column_number_ := start_column_number_ l; columns_per_tab_ := w;
     tokens_ := tokens_ l |}.

Definition set_state (st : LexerState.t) (l : t) : t :=
  {| source_ := source_ l; state_ := st; index_ := index_ l;
     start_index_ := start_index_ l; line_number_ := line_number_ l;
     start_line_number_ := start_line_number_ l;
     column_number_ := column_number_ l;
     start_column_number_ := start_column_number_ l;
     columns_per_tab_ := columns_per_tab_ l; tokens_ := tokens_ l |}.

Definition get_keyword_token_type (lexeme : string) : TokenType.t :=
  if String.eqb lexeme "func" then TokenType.func_keyword
  else if String.eqb lexeme "return" then TokenType.return_keyword
  else TokenType.identifier.

(** [source_[index_]]: [std::string::operator[]] yields the null character at
    position [size()]; positions beyond that are undefined and are never
    reached from a null-terminated source. *)
Definition current_char (l : t) : ascii :=
  default NUL (source_ l !! index_ l).

Definition start_lexeme (l : t) : t :=
  {| source_ := source_ l; state_ := state_ l; index_ := index_ l;
     start_index_ := index_ l; line_number_ := line_number_ l;
     start_line_number_ := line_number_ l;
     column_number_ := column_number_ l;
     start_column_number_ := column_number_ l;
     columns_per_tab_ := columns_per_tab_ l; tokens_ := tokens_ l |}.

(** [source_.size() - 1] in [std::size_t] arithmetic (64 bits): the
    difference wraps to the largest value when the buffer is empty. *)
Definition size_minus_one (source : list ascii) : Z :=
  match source with
  | [] => 2 ^ 64 - 1
  | _ :: _ => Z.of_nat (length source) - 1
  end.

Definition advance_char (l : t) : t :=
  if Z.of_nat (index_ l) =? size_minus_one (source_ l) then l
  else
    {| source_ := source_ l; state_ := state_ l; index_ := S (index_ l);
       start_index_ := start_index_ l; line_number_ := line_number_ l;
       start_line_number_ := start_line_number_ l;
       column_number_ := column_number_ l + 1;
       start_column_number_ := start_column_number_ l;
       columns_per_tab_ := columns_per_tab_ l; tokens_ := tokens_ l |}.

Definition advance_line (l : t) : t :=
  {| source_ := source_ l; state_ := state_ l; index_ := index_ l;
     start_index_ := start_index_ l; line_number_ := line_number_ l + 1;
     start_line_number_ := start_line_number_ l;
     column_number_ := 1;
     start_column_number_ := start_column_number_ l;
     columns_per_tab_ := columns_per_tab_ l; tokens_ := tokens_ l |}.

(** The range of [int] (32 bits), and the result of an [int] operation: the
    value when it is in that range, undefined ([None]) when it is not. *)
Definition INT_MIN : Z := - 2 ^ 31.
Definition INT_MAX : Z := 2 ^ 31 - 1.

Definition int_result (z : Z) : option Z :=
  if (INT_MIN <=? z) && (z <=? INT_MAX) then Some z else None.

(** [(column_number_ + columns_per_tab_) / columns_per_tab_
    * columns_per_tab_] in [int] arithmetic, operation by operation: the
    division truncates, and is undefined for a tab width of zero. *)
Definition tab_column (column width : Z) : option Z :=
  sum ← int_result (column + width);
  quotient ← (if width =? 0 then None else int_result (sum ÷ width));
  int_result (quotient * width).

Definition advance_tab (l : t) : option t :=
  column ← tab_column (column_number_ l) (columns_per_tab_ l);
  Some
    {| source_ := source_ l; state_ := state_ l; index_ := index_ l;
       start_index_ := start_index_ l; line_number_ := line_number_ l;
       start_line_number_ := start_line_number_ l;
       column_number_ := column;
       start_column_number_ := start_column_number_ l;
       columns_per_tab_ := columns_per_tab_ l; tokens_ := tokens_ l |}.

(** [std::string{source_, start_index_, size}] copies at most [size]
    characters from [start_index_].  When [index_ < start_index_] (never the
    case in a run: the index only grows) the unsigned difference wraps to a
    count larger than the buffer, and the copy runs to its end. *)
Definition get_lexeme (l : t) : string :=
  if (start_index_ l <=? index_ l)%nat then
    string_of_list_ascii
      (take (index_ l - start_index_ l) (drop (start_index_ l) (source_ l)))
  else string_of_list_ascii (drop (start_index_ l) (source_ l)).

Definition add_token (token_type : TokenType.t) (l : t) : t :=
  {| source_ := source_ l; state_ := state_ l; index_ := index_ l;
     start_index_ := start_index_ l; line_number_ := line_number_ l;
     start_line_number_ := start_line_number_ l;
     column_number_ := column_number_ l;
     start_column_number_ := start_column_number_ l;
     columns_per_tab_ := columns_per_tab_ l;
     tokens_ :=
       tokens_ l ++
       [mkToken token_type (get_lexeme l) (start_line_number_ l)
          (start_column_number_ l)] |}.

(** The identifier branch: [Token& token = add_token(identifier);
    token.type = get_keyword_token_type(token.lexeme);] *)
Definition add_identifier_or_keyword (l : t) : t :=
  add_token (get_keyword_token_type (get_lexeme l)) l.

Local Notation "c =c d" := (Ascii.eqb c d) (at level 70).

(** How [run] ends: with the token list it returns, or in undefined
    behaviour (the arithmetic of [advance_tab]). *)
Inductive Result :=
| Returned (tokens : list Token)
| Undefined.

(** One iteration of the [while (true)] loop of [Lexer::run]: either the
    lexer after the iteration, or the way [run] ends in it. *)
Definition step (l : t) : t + Result :=
  match state_ l with
  | LexerState.cr_or_crlf =>
      let l := if current_char l =c LF then advance_char l else l in
      inl (set_state LexerState.start (advance_line l))
  | LexerState.divide_or_comment =>
      if current_char l =c "/" then
        inl (set_state LexerState.single_line_comment (advance_char l))
      else if current_char l =c "*" then
        inl (set_state LexerState.multi_line_comment (advance_char l))
      else
        inl (set_state LexerState.start (add_token TokenType.divide l))
  | LexerState.identifier_or_keyword =>
      if isalnum (current_char l) || (current_char l =c "_") then
        inl (advance_char l)
      else
        inl (set_state LexerState.start (add_identifier_or_keyword l))
  | LexerState.minus_or_arrow =>
      if current_char l =c ">" then
        inl (set_state LexerState.start
               (add_token TokenType.arrow (advance_char l)))
      else
        inl (set_state LexerState.start (add_token TokenType.minus l))
  | LexerState.multi_line_comment =>
      if current_char l =c LF then inl (advance_line (advance_char l))
      else if current_char l =c CR then
        inl (set_state LexerState.multi_line_comment_cr_or_crlf
               (advance_char l))
      else if current_char l =c "*" then
        inl (set_state LexerState.multi_line_comment_maybe_end
               (advance_char l))
      else inl (advance_char l)
  | LexerState.multi_line_comment_cr_or_crlf =>
      let l := if current_char l =c LF then advance_char l else l in
      inl (set_state LexerState.multi_line_comment (advance_line l))
  | LexerState.multi_line_comment_maybe_end =>
      if current_char l =c "/" then
        inl (set_state LexerState.start (advance_char l))
      else inl (set_state LexerState.multi_line_comment l)
  | LexerState.single_line_comment =>
      if current_char l =c LF then
        inl (set_state LexerState.start (advance_line (advance_char l)))
      else if current_char l =c CR then
        inl (set_state LexerState.cr_or_crlf (advance_char l))
      else inl (advance_char l)
  | LexerState.start =>
      let l := start_lexeme l in
      let single (ty : TokenType.t) :=
        inl (set_state LexerState.start (add_token ty (advance_char l))) in
      if isalpha (current_char l) || (current_char l =c "_") then
        inl (set_state LexerState.identifier_or_keyword (advance_char l))
      else if current_char l =c "+" then single TokenType.plus
      else if current_char l =c "*" then single TokenType.multiply
      else if current_char l =c "%" then single TokenType.modulo
      else if current_char l =c "," then single TokenType.comma
      else if current_char l =c ";" then single TokenType.semicolon
      else if current_char l =c "{" then single TokenType.left_curly
      else if current_char l =c "}" then single TokenType.right_curly
      else if current_char l =c "(" then single TokenType.left_paren
      else if current_char l =c ")" then single TokenType.right_paren
      else if current_char l =c LF then inl (advance_line (advance_char l))
      else if current_char l =c CR then
        inl (set_state LexerState.cr_or_crlf (advance_char l))
      else if current_char l =c TAB then
        match advance_tab (advance_char l) with
        | Some l => inl l
        | None => inr Undefined
        end
      else if current_char l =c " " then inl (advance_char l)
      else if current_char l =c "/" then
        inl (set_state LexerState.divide_or_comment (advance_char l))
      else if current_char l =c "-" then
        inl (set_state LexerState.minus_or_arrow (advance_char l))
      else if current_char l =c NUL then
        inr (Returned (tokens_ (add_token TokenType.end_ l)))
      else inl l
  end.

(** [Lexer::run] with the loop bounded by [fuel] iterations: [None] when the
    loop has not ended after that many. *)
Fixpoint run (fuel : nat) (l : t) : option Result :=
  match fuel with
  | O => None
  | S fuel =>
      match step l with
      | inl l' => run fuel l'
      | inr r => Some r
      end
  end.

End Lexer.

(** [toks] is what [Lexer{source}.run()] returns. *)
Definition lexes (source : list ascii) (toks : list Token) : Prop :=
  ∃ fuel, Lexer.run fuel (Lexer.new source) = Some (Lexer.Returned toks).

Definition null_terminated (text : string) : list ascii :=
  list_ascii_of_string text ++ [NUL].


(** ** src/graph.h

    Entities live in a store and are referred to by address, as
    [std::shared_ptr] handles refer to heap objects: a handle is [option ptr],
    with [None] for [nullptr].  An operation yields [None] where the source
    would dereference a null or dangling handle. *)

Abbreviation ptr := nat (only parsing).

Module ReturnType.
Inductive t := none | value.
End ReturnType.

Module OperatorType.
Inductive t := plus.
End OperatorType.

(** The members each class of the hierarchy adds to [Entity]. *)
Inductive EntityData :=
| Package (class_entities function_entities : list ptr)
| Function (object_entities statement_entities : list ptr)
    (return_type_ : ReturnType.t) (return_class_ : option ptr)
| Class
| Object (cls_ : option ptr)
| ReturnStatement (expression_ : option ptr)
| OperatorExpression (expression_entities : list ptr)
    (operator_type_ : OperatorType.t)
| ObjectExpression (object_ : option ptr).

Record Entity := mkEntity {
  name_ : string;
  parent_ : option ptr;
  data : EntityData }.

Abbreviation Store := (list Entity) (only parsing).

(** The instances of the [EntityContainer<EntityT>] template. *)
Inductive Container := Classes | Functions | Objects | Statements | Expressions.

Module Graph.

(** [std::make_shared<T>()]: a fresh, value-initialised entity. *)
Definition make_shared (d : EntityData) (g : Store) : ptr * Store :=
  (length g, g ++ [mkEntity "" None d]).

Definition name (g : Store) (p : ptr) : option string := name_ <$> g !! p.

Definition parent (g : Store) (p : ptr) : option (option ptr) :=
  parent_ <$> g !! p.

Definition set_name (p : ptr) (n : string) (g : Store) : option Store :=
  e ← g !! p; Some (<[p := mkEntity n (parent_ e) (data e)]> g).

Definition set_parent (p : ptr) (q : option ptr) (g : Store) : option Store :=
  e ← g !! p; Some (<[p := mkEntity (name_ e) q (data e)]> g).

Definition set_data (p : ptr) (f : EntityData → option EntityData) (g : Store)
  : option Store :=
  e ← g !! p; d ← f (data e); Some (<[p := mkEntity (name_ e) (parent_ e) d]> g).

(** [entities_] of the base [EntityContainer<k>] of an entity, when it has
    that base. *)
Definition entities_ (k : Container) (d : EntityData) : option (list ptr) :=
  match k, d with
  | Classes, Package cs _ => Some cs
  | Functions, Package _ fs => Some fs
  | Objects, Function os _ _ _ => Some os
  | Statements, Function _ ss _ _ => Some ss
  | Expressions, OperatorExpression es _ => Some es
  | _, _ => None
  end.

Definition with_entities (k : Container) (l : list ptr) (d : EntityData)
  : option EntityData :=
  match k, d with
  | Classes, Package _ fs => Some (Package l fs)
  | Functions, Package cs _ => Some (Package cs l)
  | Objects, Function _ ss rt rc => Some (Function l ss rt rc)
  | Statements, Function os _ rt rc => Some (Function os l rt rc)
  | Expressions, OperatorExpression _ op => Some (OperatorExpression l op)
  | _, _ => None
  end.

(** [EntityContainer<k>::entities()] of the entity at [c]. *)
Definition entities (k : Container) (c : ptr) (g : Store) : option (list ptr) :=
  e ← g !! c; entities_ k (data e).

(** The loop of [EntityContainer::get] over [entities_]. *)
Fixpoint get_loop (g : Store) (l : list ptr) (n : string)
  : option (option ptr) :=
  match l with
  | [] => Some None
  | entity :: l =>
      e ← g !! entity;
      if String.eqb (name_ e) n then Some (Some entity) else get_loop g l n
  end.

(** [EntityContainer<k>::get]: the outer option is definedness, the inner one
    the handle returned ([None] for [nullptr]). *)
Definition get (k : Container) (c : ptr) (n : string) (g : Store)
  : option (option ptr) :=
  l ← entities k c g; get_loop g l n.

(** [EntityContainer<k>::add]: [entities_.push_back(entity);
    entity->parent_ = shared_from_this();] *)
Definition add (k : Container) (c : ptr) (entity : ptr) (g : Store)
  : option Store :=
  l ← entities k c g;
  g ← set_data c (with_entities k (l ++ [entity])) g;
  set_parent entity (Some c) g.

(** [EntityContainer<k>::remove] has no definition here.  Its body writes
    [iterator->parent_ = nullptr] where [iterator] is an iterator of
    [std::vector<std::shared_ptr<EntityT>>]: the member access names a member
    of [std::shared_ptr], which has none called [parent_], so the member
    function is ill-formed as soon as it is instantiated.  Nothing in the
    sources calls it, which is why they build; it has no execution to
    describe. *)

(** [Function::return_type()] and [Function::return_class()]. *)
Definition return_type (g : Store) (f : ptr) : option ReturnType.t :=
  e ← g !! f;
  match data e with
  | Function _ _ rt _ => Some rt
  | _ => None
  end.

Definition return_class (g : Store) (f : ptr) : option (option ptr) :=
  e ← g !! f;
  match data e with
  | Function _ _ _ rc => Some rc
  | _ => None
  end.

(** [ReturnStatement::expression()]. *)
Definition expression (g : Store) (r : ptr) : option (option ptr) :=
  e ← g !! r;
  match data e with
  | ReturnStatement x => Some x
  | _ => None
  end.

(** The handle designates an entity of dynamic type [Class]. *)
Definition is_class (g : Store) (c : ptr) : Prop :=
  data <$> g !! c = Some Class.

Definition set_return_type (f : ptr) (rt : ReturnType.t) : Store → option Store :=
  set_data f (λ d, match d with
                   | Function os ss _ rc => Some (Function os ss rt rc)
                   | _ => None
                   end).

Definition set_return_class (f : ptr) (rc : option ptr) : Store → option Store :=
  set_data f (λ d, match d with
                   | Function os ss rt _ => Some (Function os ss rt rc)
                   | _ => None
                   end).

Definition set_cls (o : ptr) (c : option ptr) : Store → option Store :=
  set_data o (λ d, match d with Object _ => Some (Object c) | _ => None end).

Definition set_expression (r : ptr) (e : option ptr) : Store → option Store :=
  set_data r (λ d, match d with
                   | ReturnStatement _ => Some (ReturnStatement e)
                   | _ => None
                   end).

Definition set_operator_type (o : ptr) (op : OperatorType.t)
  : Store → option Store :=
  set_data o (λ d, match d with
                   | OperatorExpression es _ => Some (OperatorExpression es op)
                   | _ => None
                   end).

Definition set_object (e : ptr) (o : option ptr) : Store → option Store :=
  set_data e (λ d, match d with
                   | ObjectExpression _ => Some (ObjectExpression o)
                   | _ => None
                   end).

End Graph.

(** ** src/token.cpp: printing a token *)

Definition quote : string := String "034"%char EmptyString.
Definition newline : string := String LF EmptyString.

Definition print_token_type (ty : TokenType.t) : string :=
  match ty with
  | TokenType.arrow => "arrow"
  | TokenType.comma => "comma"
  | TokenType.divide => "divide"
  | TokenType.end_ => "end"
  | TokenType.func_keyword => "func_keyword"
  | TokenType.identifier => "identifier"
  | TokenType.left_curly => "left_curly"
  | TokenType.left_paren => "left_paren"
  | TokenType.minus => "minus"
  | TokenType.modulo => "modulo"
  | TokenType.multiply => "multiply"
  | TokenType.plus => "plus"
  | TokenType.return_keyword => "return_keyword"
  | TokenType.right_curly => "right_curly"
  | TokenType.right_paren => "right_paren"
  | TokenType.semicolon => "semicolon"
  end.

Definition print_int (z : Z) : string := NilZero.string_of_int (Z.to_int z).

Definition print_token (tok : Token) : string :=
  print_token_type (type tok) +:+ " " +:+ quote +:+ lexeme tok +:+ quote
  +:+ " " +:+ print_int (line_number tok) +:+ " "
  +:+ print_int (column_number tok).

(** ** src/parser.cpp *)

Module ParserState.
Inductive t :=
| expression_operator
| expression_value
| func_params_start
| func_name
| func_return_clause
| func_body
| func_param
| func_param_name
| func_param_or_end
| func_return_type
| func_params_next_or_end
| start
| statement.
End ParserState.

Module Parser.

(** The members of [Parser], and the store its handles point into. *)
Record t := mk {
  tokens_ : list Token;
  iterator_ : nat;
  state_ : ParserState.t;
  package_ : option ptr;
  function_ : option ptr;
  object_ : option ptr;
  cls_ : option ptr;
  return_statement_ : option ptr;
  object_expression_ : option ptr;
  operator_expression_ : option ptr;
  store : Store }.

(** How a call of [Parser::run] ends. *)
Inductive Result :=
| Returned (package : option ptr) (g : Store)
| Exited (stderr : string)
| Undefined.

Definition new (tokens : list Token) : t :=
  mk tokens 0%nat ParserState.start None None None None None None None [].

Definition set_iterator (i : nat) (p : t) : t :=
  mk (tokens_ p) i (state_ p) (package_ p) (function_ p) (object_ p) (cls_ p)
    (return_statement_ p) (object_expression_ p) (operator_expression_ p)
    (store p).

Definition set_state (st : ParserState.t) (p : t) : t :=
  mk (tokens_ p) (iterator_ p) st (package_ p) (function_ p) (object_ p)
    (cls_ p) (return_statement_ p) (object_expression_ p)
    (operator_expression_ p) (store p).

Definition set_package (x : option ptr) (p : t) : t :=
  mk (tokens_ p) (iterator_ p) (state_ p) x (function_ p) (object_ p) (cls_ p)
    (return_statement_ p) (object_expression_ p) (operator_expression_ p)
    (store p).

Definition set_function (x : option ptr) (p : t) : t :=
  mk (tokens_ p) (iterator_ p) (state_ p) (package_ p) x (object_ p) (cls_ p)
    (return_statement_ p) (object_expression_ p) (operator_expression_ p)
    (store p).

Definition set_object (x : option ptr) (p : t) : t :=
  mk (tokens_ p) (iterator_ p) (state_ p) (package_ p) (function_ p) x (cls_ p)
    (return_statement_ p) (object_expression_ p) (operator_expression_ p)
    (store p).

Definition set_cls (x : option ptr) (p : t) : t :=
  mk (tokens_ p) (iterator_ p) (state_ p) (package_ p) (function_ p)
    (object_ p) x (return_statement_ p) (object_expression_ p)
    (operator_expression_ p) (store p).

Definition set_return_statement (x : option ptr) (p : t) : t :=
  mk (tokens_ p) (iterator_ p) (state_ p) (package_ p) (function_ p)
    (object_ p) (cls_ p) x (object_expression_ p) (operator_expression_ p)
    (store p).

Definition set_object_expression (x : option ptr) (p : t) : t :=
  mk (tokens_ p) (iterator_ p) (state_ p) (package_ p) (function_ p)
    (object_ p) (cls_ p) (return_statement_ p) x (operator_expression_ p)
    (store p).

Definition set_operator_expression (x : option ptr) (p : t) : t :=
  mk (tokens_ p) (iterator_ p) (state_ p) (package_ p) (function_ p)
    (object_ p) (cls_ p) (return_statement_ p) (object_expression_ p) x
    (store p).

Definition set_store (g : Store) (p : t) : t :=
  mk (tokens_ p) (iterator_ p) (state_ p) (package_ p) (function_ p)
    (object_ p) (cls_ p) (return_statement_ p) (object_expression_ p)
    (operator_expression_ p) g.

(** [*iterator_]; reading at or past [tokens_.cend()] is undefined. *)
Definition current_token (p : t) : option Token := tokens_ p !! iterator_ p.

Definition advance_token (p : t) : option t :=
  tok ← current_token p;
  if TokenType.eqb (type tok) TokenType.end_ then Some p
  else Some (set_iterator (S (iterator_ p)) p).

(** [Parser::fail]: one line on standard error, then [std::exit]. *)
Definition fail (p : t) : t + Result :=
  match current_token p with
  | Some tok =>
      inr (Exited ("error: unexpected token " +:+ print_token tok +:+ newline))
  | None => inr Undefined
  end.

(** The effect of a [case] body that ends in [break]: the next loop
    iteration, unless a handle was dereferenced that could not be. *)
Definition next (p : option t) : t + Result :=
  match p with
  | Some p => inl p
  | None => inr Undefined
  end.

(** The statements of [run] before its loop. *)
Definition prologue (p : t) : option t :=
  let '(package, g) := Graph.make_shared (Package [] []) (store p) in
  g ← Graph.set_name package "default" g;
  let '(int_class, g) := Graph.make_shared Class g in
  g ← Graph.set_name int_class "int" g;
  g ← Graph.add Classes package int_class g;
  Some (set_store g (set_package (Some package) p)).

(** One iteration of the [while (true)] loop of [Parser::run]. *)
Definition step (p : t) : t + Result :=
  match current_token p with
  | None => inr Undefined
  | Some tok =>
    match state_ p with
    | ParserState.start =>
        match type tok with
        | TokenType.end_ => inr (Returned (package_ p) (store p))
        | TokenType.func_keyword =>
            next (
              let '(function, g) :=
                Graph.make_shared (Function [] [] ReturnType.none None)
                  (store p) in
              let p := set_function (Some function) p in
              g ← Graph.set_return_type function ReturnType.none g;
              package ← package_ p;
              g ← Graph.add Functions package function g;
              advance_token (set_state ParserState.func_name (set_store g p)))
        | _ => fail p
        end
    | ParserState.func_name =>
        match type tok with
        | TokenType.identifier =>
            next (
              function ← function_ p;
              g ← Graph.set_name function (lexeme tok) (store p);
              advance_token
                (set_state ParserState.func_params_start (set_store g p)))
        | _ => fail p
        end
    | ParserState.func_params_start =>
        match type tok with
        | TokenType.left_paren =>
            next (advance_token (set_state ParserState.func_param_or_end p))
        | _ => fail p
        end
    | ParserState.func_param_or_end =>
        match type tok with
        | TokenType.right_paren =>
            next (advance_token (set_state ParserState.func_return_clause p))
        | _ => inl (set_state ParserState.func_param p)
        end
    | ParserState.func_param =>
        match type tok with
        | TokenType.identifier =>
            match package_ p with
            | None => inr Undefined
            | Some package =>
              match Graph.get Classes package (lexeme tok) (store p) with
              | None => inr Undefined
              | Some None => fail (set_cls None p)
              | Some (Some cls) =>
                  next (
                    let p := set_cls (Some cls) p in
                    let '(object, g) :=
                      Graph.make_shared (Object None) (store p) in
                    let p := set_object (Some object) p in
                    g ← Graph.set_cls object (Some cls) g;
                    function ← function_ p;
                    g ← Graph.add Objects function object g;
                    advance_token
                      (set_state ParserState.func_param_name (set_store g p)))
              end
            end
        | _ => fail p
        end
    | ParserState.func_param_name =>
        match type tok with
        | TokenType.identifier =>
            next (
              object ← object_ p;
              g ← Graph.set_name object (lexeme tok) (store p);
              advance_token
                (set_state ParserState.func_params_next_or_end
                   (set_store g p)))
        | _ => fail p
        end
    | ParserState.func_params_next_or_end =>
        match type tok with
        | TokenType.comma =>
            next (advance_token (set_state ParserState.func_param p))
        | TokenType.right_paren =>
            next (advance_token (set_state ParserState.func_return_clause p))
        | _ => fail p
        end
    | ParserState.func_return_clause =>
        match type tok with
        | TokenType.arrow =>
            next (advance_token (set_state ParserState.func_return_type p))
        | _ => inl (set_state ParserState.func_body p)
        end
    | ParserState.func_return_type =>
        match type tok with
        | TokenType.identifier =>
            match package_ p with
            | None => inr Undefined
            | Some package =>
              match Graph.get Classes package (lexeme tok) (store p) with
              | None => inr Undefined
              | Some None => fail (set_cls None p)
              | Some (Some cls) =>
                  next (
                    let p := set_cls (Some cls) p in
                    function ← function_ p;
                    g ← Graph.set_return_type function ReturnType.value
                          (store p);
                    g ← Graph.set_return_class function (Some cls) g;
                    advance_token
                      (set_state ParserState.func_body (set_store g p)))
              end
            end
        | _ => fail p
        end
    | ParserState.func_body =>
        match type tok with
        | TokenType.left_curly =>
            next (advance_token (set_state ParserState.statement p))
        | _ => fail p
        end
    | ParserState.statement =>
        match type tok with
        | TokenType.right_curly =>
            next (advance_token (set_state ParserState.start p))
        | TokenType.return_keyword =>
            next (
              let '(return_statement, g) :=
                Graph.make_shared (ReturnStatement None) (store p) in
              let p := set_return_statement (Some return_statement) p in
              function ← function_ p;
              g ← Graph.add Statements function return_statement g;
              advance_token
                (set_state ParserState.expression_value (set_store g p)))
        | _ => fail p
        end
    | ParserState.expression_value =>
        match type tok with
        | TokenType.identifier =>
            match function_ p with
            | None => inr Undefined
            | Some function =>
              match Graph.get Objects function (lexeme tok) (store p) with
              | None => inr Undefined
              | Some None => fail (set_object None p)
              | Some (Some object) =>
                  next (
                    let p := set_object (Some object) p in
                    let '(object_expression, g) :=
                      Graph.make_shared (ObjectExpression None) (store p) in
                    let p :=
                      set_object_expression (Some object_expression) p in
                    g ← Graph.set_object object_expression (Some object) g;
                    advance_token
                      (set_state ParserState.expression_operator
                         (set_store g p)))
              end
            end
        | _ => fail p
        end
    | ParserState.expression_operator =>
        match type tok with
        | TokenType.semicolon =>
            next (
              return_statement ← return_statement_ p;
              p ← match operator_expression_ p with
                  | Some operator_expression =>
                      object_expression ← object_expression_ p;
                      g ← Graph.add Expressions operator_expression
                            object_expression (store p);
                      g ← Graph.set_expression return_statement
                            (Some operator_expression) g;
                      Some (set_operator_expression None (set_store g p))
                  | None =>
                      g ← Graph.set_expression return_statement
                            (object_expression_ p) (store p);
                      Some (set_store g p)
                  end;
              advance_token
                (set_state ParserState.statement
                   (set_object_expression None p)))
        | TokenType.plus =>
            next (
              let '(operator_expression, g) :=
                Graph.make_shared (OperatorExpression [] OperatorType.plus)
                  (store p) in
              g ← Graph.set_operator_type operator_expression
                    OperatorType.plus g;
              object_expression ← object_expression_ p;
              g ← match operator_expression_ p with
                  | Some previous =>
                      g ← Graph.add Expressions previous object_expression g;
                      Graph.add Expressions operator_expression previous g
                  | None =>
                      Graph.add Expressions operator_expression
                        object_expression g
                  end;
              advance_token
                (set_state ParserState.expression_value
                   (set_object_expression None
                      (set_operator_expression (Some operator_expression)
                         (set_store g p)))))
        | _ => fail p
        end
    end
  end.

(** The loop of [Parser::run], bounded by [fuel] iterations. *)
Fixpoint loop (fuel : nat) (p : t) : option Result :=
  match fuel with
  | O => None
  | S fuel =>
      match step p with
      | inl p' => loop fuel p'
      | inr r => Some r
      end
  end.

(** [Parser::run]. *)
Definition run (fuel : nat) (p : t) : option Result :=
  match prologue p with
  | Some p => loop fuel p
  | None => Some Undefined
  end.

End Parser.

(** ** src/translator.cpp

    The expression translator recurses through handles, so it takes a bound
    [fuel] on the nesting depth; [None] is an exhausted bound or a dereference
    of a null or dangling handle. *)

Module Translator.

Definition translate_operator (operator_type : OperatorType.t) : string :=
  match operator_type with
  | OperatorType.plus => "+"
  end.

Fixpoint translate_expression (fuel : nat) (g : Store) (expression : option ptr)
  : option string :=
  match fuel with
  | O => None
  | S fuel =>
      match expression with
      | None => Some ""
      | Some e =>
          ent ← g !! e;
          match data ent with
          | OperatorExpression es op =>
              let fix operands (es : list ptr) : option string :=
                match es with
                | [] => Some ""
                | [x] => translate_expression fuel g (Some x)
                | x :: rest =>
                    code ← translate_expression fuel g (Some x);
                    more ← operands rest;
                    Some (code +:+ translate_operator op +:+ more)
                end in
              code ← operands es;
              Some ("(" +:+ code +:+ ")")
          | ObjectExpression object =>
              object ← object; Graph.name g object
          | _ => Some ""
          end
      end
  end.

Definition translate_parameter (g : Store) (object : ptr) : option string :=
  ent ← g !! object;
  match data ent with
  | Object cls =>
      cls ← cls; cls_name ← Graph.name g cls;
      Some (cls_name +:+ " " +:+ name_ ent)
  | _ => None
  end.

Fixpoint translate_parameters (g : Store) (objects : list ptr) : option string :=
  match objects with
  | [] => Some ""
  | [object] => translate_parameter g object
  | object :: rest =>
      param ← translate_parameter g object;
      more ← translate_parameters g rest;
      Some (param +:+ ", " +:+ more)
  end.

Definition translate_statement (fuel : nat) (g : Store) (statement : ptr)
  : option string :=
  ent ← g !! statement;
  match data ent with
  | ReturnStatement expression =>
      code ← translate_expression fuel g expression;
      Some ("  " +:+ "return " +:+ code +:+ ";" +:+ newline)
  | _ => Some ("  " +:+ ";" +:+ newline)
  end.

Fixpoint translate_statements (fuel : nat) (g : Store) (statements : list ptr)
  : option string :=
  match statements with
  | [] => Some ""
  | statement :: rest =>
      code ← translate_statement fuel g statement;
      more ← translate_statements fuel g rest;
      Some (code +:+ more)
  end.

Definition translate_function (fuel : nat) (g : Store) (function : ptr)
  : option string :=
  ent ← g !! function;
  match data ent with
  | Function objects statements return_type return_class =>
      head ← match return_type with
             | ReturnType.none => Some "void "
             | ReturnType.value =>
                 cls ← return_class; cls_name ← Graph.name g cls;
                 Some (cls_name +:+ " ")
             end;
      params ← translate_parameters g objects;
      body ← translate_statements fuel g statements;
      Some (head +:+ name_ ent +:+ "(" +:+ params +:+ ") {" +:+ newline
            +:+ body +:+ "}" +:+ newline)
  | _ => None
  end.

Fixpoint translate_functions (fuel : nat) (g : Store) (functions : list ptr)
  : option string :=
  match functions with
  | [] => Some ""
  | function :: rest =>
      code ← translate_function fuel g function;
      more ← translate_functions fuel g rest;
      Some (code +:+ more)
  end.

Definition translate (fuel : nat) (g : Store) (package : ptr) : option string :=
  functions ← Graph.entities Functions package g;
  translate_functions fuel g functions.

End Translator.

(** ** Reading a program graph back as a tree

    The specification describes the graph the parser builds as a tree; these
    functions follow the handles of a store and return that tree. *)

#[local] Set Warnings "-register-all".

Inductive ExpressionTree :=
| ObjectExpressionOf (object : ptr)
| OperatorExpressionOf (operator_type : OperatorType.t)
    (operands : list ExpressionTree).

Fixpoint expression_tree (fuel : nat) (g : Store) (e : ptr)
  : option ExpressionTree :=
  match fuel with
  | O => None
  | S fuel =>
      ent ← g !! e;
      match data ent with
      | ObjectExpression (Some object) => Some (ObjectExpressionOf object)
      | OperatorExpression es op =>
          operands ← mapM (expression_tree fuel g) es;
          Some (OperatorExpressionOf op operands)
      | _ => None
      end
  end.

(** The [ReturnStatement]s among the statements of a function, each with
    the tree of its expression ([None] for a return without a value). *)
Definition statement_tree (fuel : nat) (g : Store) (s : ptr)
  : option (option ExpressionTree) :=
  ent ← g !! s;
  match data ent with
  | ReturnStatement None => Some None
  | ReturnStatement (Some e) => Some <$> expression_tree fuel g e
  | _ => None
  end.

(** A parameter as the pair of its name and the name of its class. *)
Definition object_view (g : Store) (o : ptr) : option (string * string) :=
  ent ← g !! o;
  match data ent with
  | Object (Some cls) => cls_name ← Graph.name g cls; Some (name_ ent, cls_name)
  | _ => None
  end.


(** * Properties *)

(** ** The pipeline on the [add] example *)

Definition add_source : list ascii :=
  null_terminated "func add(int a, int b) -> int { return a+b; }".

Definition add_tokens : list (TokenType.t * string) :=
  [ (TokenType.func_keyword, "func"); (TokenType.identifier, "add");
    (TokenType.left_paren, "("); (TokenType.identifier, "int");
    (TokenType.identifier, "a"); (TokenType.comma, ",");
    (TokenType.identifier, "int"); (TokenType.identifier, "b");
    (TokenType.right_paren, ")"); (TokenType.arrow, "->");
    (TokenType.identifier, "int"); (TokenType.left_curly, "{");
    (TokenType.return_keyword, "return"); (TokenType.identifier, "a");
    (TokenType.plus, "+"); (TokenType.identifier, "b");
    (TokenType.semicolon, ";"); (TokenType.right_curly, "}");
    (TokenType.end_, "") ].

Definition add_code : string :=
  "int add(int a, int b) {" +:+ newline +:+ "  return (a+b);" +:+ newline
  +:+ "}" +:+ newline.

(** What the translator emits for [func f(int a) { return a; }]. *)
Definition void_f_code : string :=
  "void f(int a) {" +:+ newline +:+ "  return a;" +:+ newline
  +:+ "}" +:+ newline.

(** ** Executions of the two state machines *)

(** The parser after [n] loop iterations, or how [run] ended before. *)
Fixpoint parser_after (n : nat) (p : Parser.t) : Parser.t + Parser.Result :=
  match n with
  | O => inl p
  | S n =>
      match Parser.step p with
      | inl p' => parser_after n p'
      | inr r => inr r
      end
  end.

(** The tokens of a run of the lexer that returned. *)
Definition returned_tokens (r : Lexer.Result) : option (list Token) :=
  match r with
  | Lexer.Returned toks => Some toks
  | Lexer.Undefined => None
  end.

(** Lexing and parsing a source text in one go. *)
Definition parse_text (fuel : nat) (text : string) : option Parser.Result :=
  r ← Lexer.run fuel (Lexer.new (null_terminated text));
  match r with
  | Lexer.Returned toks => Parser.run fuel (Parser.new toks)
  | Lexer.Undefined => Some Parser.Undefined
  end.

(** The last token of the list is of type [end], as the lexer leaves it. *)
Definition ends_with_end (tokens : list Token) : Prop :=
  ∃ tok, last tokens = Some tok ∧ type tok = TokenType.end_.

(** Tokens that stop right after [func f (]. *)
Definition truncated_tokens : list Token :=
  [ mkToken TokenType.func_keyword "func" 1 1;
    mkToken TokenType.identifier "f" 1 6;
    mkToken TokenType.left_paren "(" 1 7;
    mkToken TokenType.end_ "" 1 8 ].

(** The parser of [func f(foo x) { }] at the moment it reads [foo]. *)
Definition at_unknown_class : Parser.t :=
  Eval vm_compute in
    match
      r ← Lexer.run 100 (Lexer.new (null_terminated "func f(foo x) { }"));
      toks ← returned_tokens r;
      p ← Parser.prologue (Parser.new toks);
      Some (parser_after 4 p)
    with
    | Some (inl p) => p
    | _ => Parser.new []
    end.

(** The message [Parser::fail] writes for a token. *)
Definition unexpected_token (tok : Token) : string :=
  "error: unexpected token " +:+ print_token tok +:+ newline.

(** ** What the parser never changes about an entity

    The part of an entity that the return-type invariant speaks of: the two
    lists of a package, the return type and return class of a function, and
    the bare fact of being a class. *)

Inductive Summary :=
| SPackage (cs fs : list ptr)
| SFunction (rt : ReturnType.t) (rc : option ptr)
| SClass
| SOther.

Definition summary (d : EntityData) : Summary :=
  match d with
  | Package cs fs => SPackage cs fs
  | Function _ _ rt rc => SFunction rt rc
  | Class => SClass
  | _ => SOther
  end.

Definition summary_at (g : Store) (q : ptr) : option Summary :=
  (λ e, summary (data e)) <$> g !! q.

(** Every live entity of [g] is live in [g'] with the same summary. *)
Definition preserved (g g' : Store) : Prop :=
  ∀ q s, summary_at g q = Some s → summary_at g' q = Some s.

(** The return type and return class of a function agree: no class for
    [none], a class of the list [cs] for [value]. *)
Definition return_ok (g : Store) (cs : list ptr) (f : ptr) : Prop :=
  ∃ rt rc,
    summary_at g f = Some (SFunction rt rc)
    ∧ match rt with
      | ReturnType.none => rc = None
      | ReturnType.value =>
          ∃ c, rc = Some c ∧ c ∈ cs ∧ summary_at g c = Some SClass
      end.

(** The invariant of the parser loop. *)
Definition graph_ok (p : Parser.t) : Prop :=
  ∃ package cs fs,
    Parser.package_ p = Some package
    ∧ summary_at (Parser.store p) package = Some (SPackage cs fs)
    ∧ Forall (λ c, summary_at (Parser.store p) c = Some SClass) cs
    ∧ Forall (return_ok (Parser.store p) cs) fs.

(** The tokens and the program graph of the [add] example. *)
Definition add_lexed : list Token :=
  Eval vm_compute in
    default [] (Lexer.run 100 (Lexer.new add_source) ≫= returned_tokens).

Definition add_graph : Store :=
  Eval vm_compute in
    match Parser.run 100 (Parser.new add_lexed) with
    | Some (Parser.Returned _ g) => g
    | _ => []
    end.

(** ** Logical source text and its three spellings

    A logical text is a sequence of characters and line breaks; it is written
    out with one of the three line endings, followed by the terminating null
    character. *)

Inductive Item := Chr (c : ascii) | Break.

Inductive LineEnding := EndCR | EndLF | EndCRLF.

Definition ending (e : LineEnding) : list ascii :=
  match e with
  | EndCR => [CR]
  | EndLF => [LF]
  | EndCRLF => [CR; LF]
  end.

Definition render_item (e : LineEnding) (x : Item) : list ascii :=
  match x with
  | Chr c => [c]
  | Break => ending e
  end.

Fixpoint render (e : LineEnding) (text : list Item) : list ascii :=
  match text with
  | [] => []
  | x :: text => render_item e x ++ render e text
  end.

Definition written (e : LineEnding) (text : list Item) : list ascii :=
  render e text ++ [NUL].

(** The characters of a logical text are not themselves line ending
    characters. *)
Definition plain (x : Item) : bool :=
  match x with
  | Chr c => negb (Ascii.eqb c CR) && negb (Ascii.eqb c LF)
  | Break => true
  end.

Definition logical (text : list Item) : Prop := forallb plain text = true.

Definition is_chr (x : Item) : bool :=
  match x with
  | Chr _ => true
  | Break => false
  end.

(** *** The lexer read over a logical text

    A view of the lexer between two items of the text: the items before the
    start of the current lexeme, the items consumed since, the items still to
    come, and the members of the lexer that do not depend on the spelling.
    [concrete] is the lexer a view stands for under a line ending.  The
    functions on views are the lexer's, with a line break consumed as one
    item; they serve the proof that the three spellings lex alike. *)

Record View := mkView {
  v_start : list Item;
  v_mid : list Item;
  v_after : list Item;
  v_state : LexerState.t;
  v_line : Z;
  v_start_line : Z;
  v_column : Z;
  v_start_column : Z;
  v_tab : Z;
  v_tokens : list Token }.

Definition concrete (e : LineEnding) (v : View) : Lexer.t :=
  Lexer.mk (written e (v_start v ++ v_mid v ++ v_after v)) (v_state v)
    (length (render e (v_start v ++ v_mid v))) (length (render e (v_start v)))
    (v_line v) (v_start_line v) (v_column v) (v_start_column v) (v_tab v)
    (v_tokens v).

Definition view_new (text : list Item) : View :=
  mkView [] [] text LexerState.start 1 0 1 0 2 [].

Definition view_current (v : View) : ascii :=
  match v_after v with
  | [] => NUL
  | Chr c :: _ => c
  | Break :: _ => LF
  end.

Definition view_set_state (st : LexerState.t) (v : View) : View :=
  mkView (v_start v) (v_mid v) (v_after v) st (v_line v) (v_start_line v)
    (v_column v) (v_start_column v) (v_tab v) (v_tokens v).

Definition view_start_lexeme (v : View) : View :=
  mkView (v_start v ++ v_mid v) [] (v_after v) (v_state v) (v_line v)
    (v_line v) (v_column v) (v_column v) (v_tab v) (v_tokens v).

Definition view_advance_char (v : View) : View :=
  match v_after v with
  | [] => v
  | x :: after =>
      mkView (v_start v) (v_mid v ++ [x]) after (v_state v) (v_line v)
        (v_start_line v) (v_column v + 1) (v_start_column v) (v_tab v)
        (v_tokens v)
  end.

Definition view_advance_line (v : View) : View :=
  mkView (v_start v) (v_mid v) (v_after v) (v_state v) (v_line v + 1)
    (v_start_line v) 1 (v_start_column v) (v_tab v) (v_tokens v).

Definition view_advance_tab (v : View) : option View :=
  column ← Lexer.tab_column (v_column v) (v_tab v);
  Some
    (mkView (v_start v) (v_mid v) (v_after v) (v_state v) (v_line v)
       (v_start_line v) column (v_start_column v) (v_tab v) (v_tokens v)).

Definition view_lexeme (v : View) : string :=
  string_of_list_ascii (render EndLF (v_mid v)).

Definition view_add_token (ty : TokenType.t) (v : View) : View :=
  mkView (v_start v) (v_mid v) (v_after v) (v_state v) (v_line v)
    (v_start_line v) (v_column v) (v_start_column v) (v_tab v)
    (v_tokens v ++
     [mkToken ty (view_lexeme v) (v_start_line v) (v_start_column v)]).

Definition view_add_identifier_or_keyword (v : View) : View :=
  view_add_token (Lexer.get_keyword_token_type (view_lexeme v)) v.

Definition view_step (v : View) : View + Lexer.Result :=
  let c := view_current v in
  match v_state v with
  | LexerState.cr_or_crlf | LexerState.multi_line_comment_cr_or_crlf => inl v
  | LexerState.divide_or_comment =>
      if Ascii.eqb c "/" then
        inl (view_set_state LexerState.single_line_comment
               (view_advance_char v))
      else if Ascii.eqb c "*" then
        inl (view_set_state LexerState.multi_line_comment
               (view_advance_char v))
      else
        inl (view_set_state LexerState.start
               (view_add_token TokenType.divide v))
  | LexerState.identifier_or_keyword =>
      if isalnum c || Ascii.eqb c "_" then inl (view_advance_char v)
      else
        inl (view_set_state LexerState.start
               (view_add_identifier_or_keyword v))
  | LexerState.minus_or_arrow =>
      if Ascii.eqb c ">" then
        inl (view_set_state LexerState.start
               (view_add_token TokenType.arrow (view_advance_char v)))
      else
        inl (view_set_state LexerState.start
               (view_add_token TokenType.minus v))
  | LexerState.multi_line_comment =>
      if Ascii.eqb c LF then inl (view_advance_line (view_advance_char v))
      else if Ascii.eqb c "*" then
        inl (view_set_state LexerState.multi_line_comment_maybe_end
               (view_advance_char v))
      else inl (view_advance_char v)
  | LexerState.multi_line_comment_maybe_end =>
      if Ascii.eqb c "/" then
        inl (view_set_state LexerState.start (view_advance_char v))
      else inl (view_set_state LexerState.multi_line_comment v)
  | LexerState.single_line_comment =>
      if Ascii.eqb c LF then
        inl (view_set_state LexerState.start
               (view_advance_line (view_advance_char v)))
      else inl (view_advance_char v)
  | LexerState.start =>
      let v := view_start_lexeme v in
      let single (ty : TokenType.t) :=
        inl (view_set_state LexerState.start
               (view_add_token ty (view_advance_char v))) in
      if isalpha c || Ascii.eqb c "_" then
        inl (view_set_state LexerState.identifier_or_keyword
               (view_advance_char v))
      else if Ascii.eqb c "+" then single TokenType.plus
      else if Ascii.eqb c "*" then single TokenType.multiply
      else if Ascii.eqb c "%" then single TokenType.modulo
      else if Ascii.eqb c "," then single TokenType.comma
      else if Ascii.eqb c ";" then single TokenType.semicolon
      else if Ascii.eqb c "{" then single TokenType.left_curly
      else if Ascii.eqb c "}" then single TokenType.right_curly
      else if Ascii.eqb c "(" then single TokenType.left_paren
      else if Ascii.eqb c ")" then single TokenType.right_paren
      else if Ascii.eqb c LF then
        inl (view_advance_line (view_advance_char v))
      else if Ascii.eqb c TAB then
        match view_advance_tab (view_advance_char v) with
        | Some v => inl v
        | None => inr Lexer.Undefined
        end
      else if Ascii.eqb c " " then inl (view_advance_char v)
      else if Ascii.eqb c "/" then
        inl (view_set_state LexerState.divide_or_comment
               (view_advance_char v))
      else if Ascii.eqb c "-" then
        inl (view_set_state LexerState.minus_or_arrow (view_advance_char v))
      else if Ascii.eqb c NUL then
        inr (Lexer.Returned (v_tokens (view_add_token TokenType.end_ v)))
      else inl v
  end.

(** The lexer after [n] loop iterations, or how [run] ended before. *)
Fixpoint lexer_after (n : nat) (l : Lexer.t) : Lexer.t + Lexer.Result :=
  match n with
  | O => inl l
  | S n =>
      match Lexer.step l with
      | inl l' => lexer_after n l'
      | inr r => inr r
      end
  end.

(** A view between two lexemes or inside a comment, over a text still to
    come that is logical, and whose current lexeme holds no line break. *)
Definition in_lexeme (st : LexerState.t) : bool :=
  match st with
  | LexerState.divide_or_comment | LexerState.identifier_or_keyword
  | LexerState.minus_or_arrow => true
  | _ => false
  end.

Definition between_items (st : LexerState.t) : bool :=
  match st with
  | LexerState.cr_or_crlf | LexerState.multi_line_comment_cr_or_crlf => false
  | _ => true
  end.

Definition view_ok (v : View) : Prop :=
  logical (v_after v)
  ∧ between_items (v_state v) = true
  ∧ (in_lexeme (v_state v) = true → forallb is_chr (v_mid v) = true).

(** Positions and kinds of a token list. *)
Definition positions (toks : list Token) : list (Z * Z) :=
  map (λ tok, (line_number tok, column_number tok)) toks.

Definition lift (e : LineEnding) (r : View + Lexer.Result)
  : Lexer.t + Lexer.Result :=
  match r with
  | inl v => inl (concrete e v)
  | inr r => inr r
  end.

(** The lexer halfway through a line break spelt CR LF: past the carriage
    return, before the line feed. *)
Definition half_break (v : View) (st : LexerState.t) : Lexer.t :=
  Lexer.mk (written EndCRLF (v_start v ++ v_mid v ++ v_after v)) st
    (S (length (render EndCRLF (v_start v ++ v_mid v))))
    (length (render EndCRLF (v_start v))) (v_line v) (v_start_line v)
    (v_column v + 1) (v_start_column v) (v_tab v) (v_tokens v).

(** A text of three lines, the second one empty: [a +], nothing, [b]. *)
Definition three_lines : list Item :=
  [Chr "a"; Chr " "; Chr "+"; Break; Break; Chr "b"].

Definition three_lines_tokens : list Token :=
  [ mkToken TokenType.identifier "a" 1 1; mkToken TokenType.plus "+" 1 3;
    mkToken TokenType.identifier "b" 3 1; mkToken TokenType.end_ "" 3 2 ].

(** ** The statement [return a+b+c;] *)

(** Kinds and lexemes of the seven tokens of [return a+b+c;]. *)
Definition return_a_b_c : list (TokenType.t * string) :=
  [ (TokenType.return_keyword, "return"); (TokenType.identifier, "a");
    (TokenType.plus, "+"); (TokenType.identifier, "b");
    (TokenType.plus, "+"); (TokenType.identifier, "c");
    (TokenType.semicolon, ";") ].

(** A store that agrees with [g] except for the entity at [f], followed by
    the entities created since. *)
Definition store_at (g : Store) (f : ptr) (E : Entity) (suffix : list Entity)
  : Store :=
  <[f := E]> g ++ suffix.

(** The parser of [func f(int c, int a, int b) -> int { return a+b+c; }]
    when it is about to read [return]. *)
Definition at_return_a_b_c : Parser.t :=
  Eval vm_compute in
    match
      r ← Lexer.run 200
             (Lexer.new (null_terminated
                "func f(int c, int a, int b) -> int { return a+b+c; }"));
      toks ← returned_tokens r;
      p ← Parser.prologue (Parser.new toks);
      Some (parser_after 16 p)
    with
    | Some (inl p) => p
    | _ => Parser.new []
    end.

Definition is_end (tok : Token) : bool := TokenType.eqb (type tok) TokenType.end_.

(** The lexer that has looked once at the stray character of ["&"]. *)
Definition stuck_lexer : Lexer.t :=
  Lexer.start_lexeme (Lexer.new (null_terminated "&")).

(** A package with the classes [int], [int] (a second one of the same name)
    and [bool], in that order. *)
Definition three_classes : Store :=
  [ mkEntity "default" None (Package [1; 2; 3]%nat []);
    mkEntity "int" (Some 0%nat) Class;
    mkEntity "int" (Some 0%nat) Class;
    mkEntity "bool" (Some 0%nat) Class ].

(** A function holding two parameters [x] and [y], built with [add]. *)
Definition two_objects : option Store :=
  let g := [ mkEntity "f" None (Function [] [] ReturnType.none None);
             mkEntity "x" None (Object None);
             mkEntity "y" None (Object None) ] in
  g ← Graph.add Objects 0%nat 1%nat g;
  Graph.add Objects 0%nat 2%nat g.

(** The lexer inside the comment of the buffer ["//"], at the terminating
    null character. *)
Definition lexer_in_last_comment : Lexer.t :=
  Lexer.mk (null_terminated "//") LexerState.single_line_comment 2 0 1 1 3 1 2
    [].

(** ** Progress of the lexer *)

(** How many further iterations a state may take without moving the index. *)
Definition lexer_weight (st : LexerState.t) : nat :=
  match st with
  | LexerState.start | LexerState.single_line_comment
  | LexerState.multi_line_comment => 0
  | _ => 1
  end.

(** Twice the distance of the index from the last character, plus the weight
    of the state. *)
Definition lexer_measure (l : Lexer.t) : nat :=
  2 * (length (Lexer.source_ l) - 1 - Lexer.index_ l)
  + lexer_weight (Lexer.state_ l).

(** The lexer reads inside a buffer that ends with the null character. *)
Definition in_buffer (l : Lexer.t) : Prop :=
  last (Lexer.source_ l) = Some NUL
  ∧ (Lexer.index_ l < length (Lexer.source_ l))%nat
  ∧ (Lexer.start_index_ l <= Lexer.index_ l)%nat.

(** A lexer that an iteration leaves as it is: [run] never returns from it. *)
Definition lexer_stuck (l : Lexer.t) : Prop := Lexer.step l = inl l.

(** ** Lexemes *)








(** ** Containers *)

(** A package with the class [int] and an unattached class [bool]. *)
Definition int_and_bool : Store :=
  [ mkEntity "default" None (Package [1%nat] []);
    mkEntity "int" (Some 0%nat) Class;
    mkEntity "bool" None Class ].

(** ** Progress of the parser *)

(** Twice the number of tokens from the iterator on, plus one in the two
    states that may pass to another state without reading a token. *)
Definition parser_measure (p : Parser.t) : nat :=
  2 * (length (Parser.tokens_ p) - Parser.iterator_ p)
  + match Parser.state_ p with
    | ParserState.func_param_or_end | ParserState.func_return_clause => 1
    | _ => 0
    end.

(** ** The printer ([printer.cpp])

    The text form of the program graph.  As in the translator, a dereference
    of a null handle has no result. *)

Module Printer.

(** [std::string text(indent, ' ')].  The indentation is a
    [std::string::size_type]; it is a natural number here: it only grows, by
    two per level, and cannot wrap before a string of that many blanks has
    failed to be allocated. *)
Fixpoint spaces (indent : nat) : string :=
  match indent with
  | O => ""
  | S indent => String " " (spaces indent)
  end.

Definition print_return_type (return_type : ReturnType.t) : string :=
  match return_type with
  | ReturnType.none => "none"
  | ReturnType.value => "value"
  end.

Definition print_operator_type (operator_type : OperatorType.t) : string :=
  match operator_type with
  | OperatorType.plus => "plus"
  end.

Definition print_class (g : Store) (cls : option ptr) (indent : nat)
  : option string :=
  cls ← cls; cls_name ← Graph.name g cls;
  Some (spaces indent +:+ "Class:" +:+ cls_name +:+ newline).

Definition print_object (g : Store) (object : option ptr) (indent : nat)
  : option string :=
  object ← object; ent ← g !! object;
  match data ent with
  | Object cls =>
      cls_text ← print_class g cls (indent + 2);
      Some (spaces indent +:+ "Object:" +:+ name_ ent +:+ newline
            +:+ cls_text)
  | _ => None
  end.

Fixpoint print_expression (fuel : nat) (g : Store) (expression : option ptr)
    (indent : nat) : option string :=
  match fuel with
  | O => None
  | S fuel =>
      match expression with
      | None => Some (spaces indent)
      | Some e =>
          ent ← g !! e;
          match data ent with
          | OperatorExpression es op =>
              let fix operands (es : list ptr) : option string :=
                match es with
                | [] => Some ""
                | x :: rest =>
                    text ← print_expression fuel g (Some x) (indent + 2);
                    more ← operands rest;
                    Some (text +:+ more)
                end in
              body ← operands es;
              Some (spaces indent +:+ "OperatorExpression:"
                    +:+ print_operator_type op +:+ newline +:+ body)
          | ObjectExpression object =>
              object_text ← print_object g object (indent + 2);
              Some (spaces indent +:+ "ObjectExpression" +:+ newline
                    +:+ object_text)
          | _ => Some (spaces indent)
          end
      end
  end.

Definition print_statement (fuel : nat) (g : Store) (statement : ptr)
    (indent : nat) : option string :=
  ent ← g !! statement;
  match data ent with
  | ReturnStatement expression =>
      text ← print_expression fuel g expression (indent + 2);
      Some (spaces indent +:+ "ReturnStatement" +:+ newline +:+ text)
  | _ => Some (spaces indent)
  end.

Fixpoint print_objects (g : Store) (objects : list ptr) (indent : nat)
  : option string :=
  match objects with
  | [] => Some ""
  | object :: rest =>
      text ← print_object g (Some object) indent;
      more ← print_objects g rest indent;
      Some (text +:+ more)
  end.

Fixpoint print_statements (fuel : nat) (g : Store) (statements : list ptr)
    (indent : nat) : option string :=
  match statements with
  | [] => Some ""
  | statement :: rest =>
      text ← print_statement fuel g statement indent;
      more ← print_statements fuel g rest indent;
      Some (text +:+ more)
  end.

Definition print_function (fuel : nat) (g : Store) (function : ptr)
    (indent : nat) : option string :=
  ent ← g !! function;
  match data ent with
  | Function objects statements return_type return_class =>
      cls_text ← match return_type with
                 | ReturnType.value => print_class g return_class (indent + 2)
                 | ReturnType.none => Some ""
                 end;
      objects_text ← print_objects g objects (indent + 2);
      statements_text ← print_statements fuel g statements (indent + 2);
      Some (spaces indent +:+ "Function:" +:+ print_return_type return_type
            +:+ newline +:+ cls_text +:+ objects_text +:+ statements_text)
  | _ => None
  end.

Fixpoint print_functions (fuel : nat) (g : Store) (functions : list ptr)
    (indent : nat) : option string :=
  match functions with
  | [] => Some ""
  | function :: rest =>
      text ← print_function fuel g function indent;
      more ← print_functions fuel g rest indent;
      Some (text +:+ more)
  end.

(** [print(package, indent)]. *)
Definition print (fuel : nat) (g : Store) (package : ptr) (indent : nat)
  : option string :=
  ent ← g !! package;
  match data ent with
  | Package _ functions =>
      text ← print_functions fuel g functions (indent + 2);
      Some (spaces indent +:+ "Package:" +:+ name_ ent +:+ newline +:+ text)
  | _ => None
  end.

End Printer.

(** ** Well-formed program graphs

    What the translator and the printer rely on without checking, and what
    the parser relies on when it dereferences its own handles. *)

(** The members an entity of address [q] holds besides its name and parent,
    when [q] is live. *)
Definition dat (g : Store) (q : ptr) : option EntityData := data <$> g !! q.

(** An object has a class, and that handle designates a class. *)
Definition object_ok (g : Store) (o : ptr) : Prop :=
  ∃ c, dat g o = Some (Object (Some c)) ∧ dat g c = Some Class.

(** An expression of nesting depth below [d]: an object expression refers
    to an object; an operator expression is not the one the parser is still
    building ([pending]) and its operands are expressions in turn. *)
Fixpoint expression_ok (d : nat) (g : Store) (pending : option ptr) (e : ptr)
  : Prop :=
  match d with
  | O => False
  | S d =>
      match dat g e with
      | Some (ObjectExpression (Some o)) => object_ok g o
      | Some (OperatorExpression es _) =>
          Some e ≠ pending ∧ Forall (expression_ok d g pending) es
      | _ => False
      end
  end.

(** A statement of a function body is a return statement; its expression,
    once set, is an expression. *)
Definition statement_ok (g : Store) (pending : option ptr) (s : ptr) : Prop :=
  ∃ x, dat g s = Some (ReturnStatement x)
       ∧ ∀ e, x = Some e → ∃ d, expression_ok d g pending e.

Definition function_ok (g : Store) (pending : option ptr) (f : ptr) : Prop :=
  ∃ os ss rt rc,
    dat g f = Some (Function os ss rt rc)
    ∧ (rt = ReturnType.value → ∃ c, rc = Some c ∧ dat g c = Some Class)
    ∧ Forall (object_ok g) os
    ∧ Forall (statement_ok g pending) ss.

Definition package_ok (g : Store) (pending : option ptr) (package : ptr)
  : Prop :=
  ∃ cs fs,
    dat g package = Some (Package cs fs)
    ∧ Forall (λ c, dat g c = Some Class) cs
    ∧ Forall (function_ok g pending) fs.

(** The handles the parser dereferences in each state are live and of the
    right kind. *)
Definition handles_ok (p : Parser.t) (fs : list ptr) : Prop :=
  let g := Parser.store p in
  let pending := Parser.operator_expression_ p in
  (Parser.state_ p ≠ ParserState.start →
   ∃ f, Parser.function_ p = Some f ∧ f ∈ fs)
  ∧ (Parser.state_ p = ParserState.func_param_name →
     ∃ o, Parser.object_ p = Some o ∧ is_Some (dat g o))
  ∧ (Parser.state_ p = ParserState.expression_value
     ∨ Parser.state_ p = ParserState.expression_operator →
     ∃ r x, Parser.return_statement_ p = Some r
            ∧ dat g r = Some (ReturnStatement x))
  ∧ (Parser.state_ p = ParserState.expression_operator →
     ∃ oe d, Parser.object_expression_ p = Some oe
             ∧ expression_ok d g pending oe)
  ∧ (∀ ope, pending = Some ope →
       ∃ es op d, dat g ope = Some (OperatorExpression es op)
                  ∧ Forall (expression_ok d g pending) es).

(** What the parser's members and its graph satisfy between two loop
    iterations. *)
Definition members_ok (p : Parser.t) : Prop :=
  ∃ package cs fs,
    Parser.package_ p = Some package
    ∧ dat (Parser.store p) package = Some (Package cs fs)
    ∧ Forall (λ c, dat (Parser.store p) c = Some Class) cs
    ∧ Forall (function_ok (Parser.store p) (Parser.operator_expression_ p))
        fs
    ∧ handles_ok p fs.

(** The invariant of the parser loop. *)
Definition parser_ok (p : Parser.t) : Prop :=
  ends_with_end (Parser.tokens_ p)
  ∧ (Parser.iterator_ p < length (Parser.tokens_ p))%nat
  ∧ members_ok p.

(** How a run of the parser over [tokens] may end: in the return of a
    well-formed package, or in the error message about a token of the list.
    Never in a dereference of a null or dangling handle. *)
Definition run_result_ok (tokens : list Token) (r : Parser.Result) : Prop :=
  match r with
  | Parser.Returned package g =>
      ∃ package', package = Some package' ∧ package_ok g None package'
  | Parser.Exited stderr =>
      ∃ tok, tok ∈ tokens ∧ stderr = unexpected_token tok
  | Parser.Undefined => False
  end.

(** What an iteration of the parser loop started from [p] may end in: the
    next iteration, again within the invariant, or the end of the run. *)
Definition step_result_ok (p : Parser.t) (r : Parser.t + Parser.Result)
  : Prop :=
  match r with
  | inl p' => Parser.tokens_ p' = Parser.tokens_ p ∧ parser_ok p'
  | inr r => run_result_ok (Parser.tokens_ p) r
  end.

(** How a store [g'] relates to an earlier store [g]: objects, classes and
    object expressions are as they were, and so are the operator expressions
    other than the pending one, none of which is the new pending one. *)
Definition frame (pending pending' : option ptr) (g g' : Store) : Prop :=
  (∀ q d, dat g q = Some d →
     match d with
     | Object _ | Class | ObjectExpression _ => dat g' q = Some d
     | OperatorExpression _ _ =>
         Some q ≠ pending → dat g' q = Some d ∧ Some q ≠ pending'
     | _ => True
     end).

(** ** Punctuation *)



(** ** Positions of tokens *)

(** Positions are compared by line, then by column. *)
Definition position_lt (a b : Z * Z) : Prop :=
  a.1 < b.1 ∨ (a.1 = b.1 ∧ a.2 < b.2).

Definition position_le (a b : Z * Z) : Prop :=
  a.1 < b.1 ∨ (a.1 = b.1 ∧ a.2 <= b.2).

Definition token_position (tok : Token) : Z * Z :=
  (line_number tok, column_number tok).

(** Where the lexer is, and where its current lexeme started. *)
Definition lexer_position (l : Lexer.t) : Z * Z :=
  (Lexer.line_number_ l, Lexer.column_number_ l).

Definition lexeme_position (l : Lexer.t) : Z * Z :=
  (Lexer.start_line_number_ l, Lexer.start_column_number_ l).

Definition all_before (b : Z * Z) (toks : list Token) : Prop :=
  Forall (λ tok, position_lt (token_position tok) b) toks.

(** Every token of the list lies before the tokens that follow it. *)
Definition positions_increase (toks : list Token) : Prop :=
  ∀ i j s t, (i < j)%nat → toks !! i = Some s → toks !! j = Some t →
    position_lt (token_position s) (token_position t).

(** The invariant of the lexer loop about positions: inside a lexeme, the
    tokens so far lie before its start, which lies before the position of the
    lexer; otherwise the tokens lie before the position of the lexer. *)
Definition positions_ok (l : Lexer.t) : Prop :=
  1 <= Lexer.column_number_ l
  ∧ 0 < Lexer.columns_per_tab_ l
  ∧ positions_increase (Lexer.tokens_ l)
  ∧ if in_lexeme (Lexer.state_ l)
    then position_lt (lexeme_position l) (lexer_position l)
         ∧ all_before (lexeme_position l) (Lexer.tokens_ l)
    else all_before (lexer_position l) (Lexer.tokens_ l).

(** The column counter is within what the characters consumed so far allow:
    each of them has moved it by one, or by a tab width and one at most. *)
Definition column_bounded (l : Lexer.t) : Prop :=
  Lexer.column_number_ l
  <= 1 + Z.of_nat (Lexer.index_ l) * (Lexer.columns_per_tab_ l + 1).

(** No counter of a run over [source] with the tab width [w] can leave the
    range of [int]. *)
Definition counters_fit (source : list ascii) (w : Z) : Prop :=
  (Z.of_nat (length source) + 1) * (w + 1) <= Lexer.INT_MAX.

(** ** Parent links *)

(** The entities that an entity holds in its containers. *)
Definition children (d : EntityData) : list ptr :=
  match d with
  | Package cs fs => cs ++ fs
  | Function os ss _ _ => os ++ ss
  | OperatorExpression es _ => es
  | _ => []
  end.

(** Every entity held in a container has the holder as parent.  The
    expression of a return statement has no parent, and neither have the two
    expressions the parser is still working on: the operator expression
    [pending] and the object expression [oe]. *)
Definition parents_ok (g : Store) (pending oe : option ptr) : Prop :=
  (∀ c d q, dat g c = Some d → q ∈ children d →
     Graph.parent g q = Some (Some c))
  ∧ (∀ r e, dat g r = Some (ReturnStatement (Some e)) →
       Graph.parent g e = Some None ∧ Some e ≠ pending ∧ Some e ≠ oe)
  ∧ (∀ x, pending = Some x → Graph.parent g x = Some None)
  ∧ (∀ x, oe = Some x → Graph.parent g x = Some None ∧ Some x ≠ pending).

Definition parser_parents_ok (p : Parser.t) : Prop :=
  parents_ok (Parser.store p) (Parser.operator_expression_ p)
    (Parser.object_expression_ p).

(** ** The package and its class *)

(** The two entities that [run] creates before its loop stay what they are:
    the package named [default], with the class named [int] as its only
    class.  The handles the parser writes through without looking at the
    kind of the entity designate later entities. *)
Definition package_and_class_ok (p : Parser.t) : Prop :=
  Parser.package_ p = Some 0%nat
  ∧ (∃ fs, Parser.store p !! 0%nat
           = Some (mkEntity "default" None (Package [1%nat] fs)))
  ∧ Parser.store p !! 1%nat = Some (mkEntity "int" (Some 0%nat) Class)
  ∧ (∀ f, Parser.function_ p = Some f → (2 <= f)%nat)
  ∧ (∀ o, Parser.state_ p = ParserState.func_param_name →
          Parser.object_ p = Some o → (2 <= o)%nat)
  ∧ (∀ x, Parser.object_expression_ p = Some x → (2 <= x)%nat)
  ∧ (∀ x, Parser.operator_expression_ p = Some x → (2 <= x)%nat).

(** ** Lexemes and token types *)

(** The lexeme of a token is the spelling of its type; a word is a keyword
    token exactly when it is one of the two keywords. *)
Definition spelled (tok : Token) : Prop :=
  match type tok with
  | TokenType.arrow => lexeme tok = "->"
  | TokenType.comma => lexeme tok = ","
  | TokenType.divide => lexeme tok = "/"
  | TokenType.end_ => lexeme tok = ""
  | TokenType.func_keyword => lexeme tok = "func"
  | TokenType.identifier => lexeme tok ≠ "func" ∧ lexeme tok ≠ "return"
  | TokenType.left_curly => lexeme tok = "{"
  | TokenType.left_paren => lexeme tok = "("
  | TokenType.minus => lexeme tok = "-"
  | TokenType.modulo => lexeme tok = "%"
  | TokenType.multiply => lexeme tok = "*"
  | TokenType.plus => lexeme tok = "+"
  | TokenType.return_keyword => lexeme tok = "return"
  | TokenType.right_curly => lexeme tok = "}"
  | TokenType.right_paren => lexeme tok = ")"
  | TokenType.semicolon => lexeme tok = ";"
  end.

(** The invariant of the lexer loop about lexemes: the tokens so far are
    spelled, and after a [-] or a [/] the lexeme is that one character. *)
Definition lexemes_ok (l : Lexer.t) : Prop :=
  Forall spelled (Lexer.tokens_ l)
  ∧ match Lexer.state_ l with
    | LexerState.minus_or_arrow =>
        Lexer.index_ l = S (Lexer.start_index_ l)
        ∧ Lexer.source_ l !! Lexer.start_index_ l = Some "-"%char
    | LexerState.divide_or_comment =>
        Lexer.index_ l = S (Lexer.start_index_ l)
        ∧ Lexer.source_ l !! Lexer.start_index_ l = Some "/"%char
    | _ => True
    end.

(** C2.  The source [func add(int a, int b) -> int { return a+b; }] lexes to
    the nineteen tokens of [add_tokens]; the parser returns a package whose
    classes are the implicit [int] alone and whose functions are [add] alone,
    with return type [value] of class [int], parameters [a : int] and
    [b : int] in that order, and one return statement over
    [plus (a, b)]; and the translator emits [add_code]. *)
Theorem C2_add_round_trip :
  ∃ toks g package int_class function a b statement,
    lexes add_source toks
    ∧ length toks = 19%nat
    ∧ map (λ tok, (type tok, lexeme tok)) toks = add_tokens
    ∧ (∃ fuel, Parser.run fuel (Parser.new toks)
               = Some (Parser.Returned (Some package) g))
    ∧ g !! package = Some (mkEntity "default" None
                             (Package [int_class] [function]))
    ∧ g !! int_class = Some (mkEntity "int" (Some package) Class)
    ∧ g !! function = Some (mkEntity "add" (Some package)
                              (Function [a; b] [statement] ReturnType.value
                                 (Some int_class)))
    ∧ g !! a = Some (mkEntity "a" (Some function) (Object (Some int_class)))
    ∧ g !! b = Some (mkEntity "b" (Some function) (Object (Some int_class)))
    ∧ (∃ fuel, statement_tree fuel g statement
               = Some (Some (OperatorExpressionOf OperatorType.plus
                               [ObjectExpressionOf a; ObjectExpressionOf b])))
    ∧ (∃ fuel, Translator.translate fuel g package = Some add_code).
Proof.
  pose (r := Lexer.run 100 (Lexer.new add_source)).
  pose (toks := default [] (r ≫= returned_tokens)).
  pose (res := Parser.run 100 (Parser.new toks)).
  pose (g := match res with Some (Parser.Returned _ g) => g | _ => [] end).
  exists toks, g, 0%nat, 1%nat, 2%nat, 3%nat, 4%nat, 5%nat.
  split; [exists 100%nat; vm_compute; reflexivity|].
  split; [vm_compute; reflexivity|].
  split; [vm_compute; reflexivity|].
  split; [exists 100%nat; vm_compute; reflexivity|].
  repeat (split; [vm_compute; reflexivity|]).
  split; exists 10%nat; vm_compute; reflexivity.
Qed.

(** ** The lexer: termination and the end token *)

Lemma get_keyword_token_type_not_end s :
  Lexer.get_keyword_token_type s ≠ TokenType.end_.
Proof.
  unfold Lexer.get_keyword_token_type.
  repeat case_match; discriminate.
Qed.

Lemma run_S fuel l :
  Lexer.run (S fuel) l
  = match Lexer.step l with
    | inl l' => Lexer.run fuel l'
    | inr r => Some r
    end.
Proof. reflexivity. Qed.

(** Where the tab arithmetic is defined, [advance_tab] writes its result to
    the column counter and nothing else. *)
Lemma advance_tab_Some l l' :
  Lexer.advance_tab l = Some l' →
  ∃ column,
    Lexer.tab_column (Lexer.column_number_ l) (Lexer.columns_per_tab_ l)
    = Some column
    ∧ l' = Lexer.mk (Lexer.source_ l) (Lexer.state_ l) (Lexer.index_ l)
             (Lexer.start_index_ l) (Lexer.line_number_ l)
             (Lexer.start_line_number_ l) column
             (Lexer.start_column_number_ l) (Lexer.columns_per_tab_ l)
             (Lexer.tokens_ l).
Proof.
  unfold Lexer.advance_tab. intros H.
  apply bind_Some in H as (column & Hcolumn & H). simplify_eq. eauto.
Qed.

(** Case analysis on the tab arithmetic of an iteration. *)
Ltac tab_cases :=
  try match goal with
    | |- context [match Lexer.advance_tab ?l with _ => _ end] =>
        let H := fresh "Htab" in
        destruct (Lexer.advance_tab l) eqn:H;
        [apply advance_tab_Some in H as (? & H & ->)|]
    end.

Lemma int_result_Some z z' :
  Lexer.int_result z = Some z' →
  z' = z ∧ Lexer.INT_MIN ≤ z ≤ Lexer.INT_MAX.
Proof.
  unfold Lexer.int_result. intros H. case_match; simplify_eq. lia.
Qed.

Lemma int_result_in_range z :
  Lexer.INT_MIN ≤ z ≤ Lexer.INT_MAX → Lexer.int_result z = Some z.
Proof.
  unfold Lexer.int_result. intros H. case_match; [done|lia].
Qed.

(** Where it is defined, the tab arithmetic is the rounding of the
    specification. *)
Lemma tab_column_Some column width column' :
  Lexer.tab_column column width = Some column' →
  width ≠ 0 ∧ column' = (column + width) ÷ width * width.
Proof.
  unfold Lexer.tab_column. intros H.
  apply bind_Some in H as (sum & Hsum & H).
  apply bind_Some in H as (quotient & Hquotient & H).
  destruct (Z.eqb_spec width 0) as [|Hwidth]; [done|].
  apply int_result_Some in Hsum as [-> _].
  apply int_result_Some in Hquotient as [-> _].
  apply int_result_Some in H as [-> _]. done.
Qed.

(** For a positive width and a column that is not negative, the tab
    arithmetic is defined as soon as the sum is in the range of [int]. *)
Lemma tab_column_in_range column width :
  0 < width → 0 ≤ column → column + width ≤ Lexer.INT_MAX →
  Lexer.tab_column column width = Some ((column + width) ÷ width * width).
Proof.
  intros Hwidth Hcolumn Hsum. unfold Lexer.tab_column, Lexer.INT_MAX in *.
  assert (0 ≤ (column + width) ÷ width ≤ column + width) as Hq.
  { rewrite Z.quot_div_nonneg by lia. split; [apply Z.div_pos; lia|].
    apply Z.div_le_upper_bound; nia. }
  assert (0 ≤ (column + width) ÷ width * width ≤ column + width) as Hp.
  { split; [nia|]. rewrite Z.quot_div_nonneg by lia.
    rewrite Z.mul_comm. apply Z.mul_div_le. lia. }
  rewrite int_result_in_range by (unfold Lexer.INT_MIN, Lexer.INT_MAX; lia).
  simpl. destruct (Z.eqb_spec width 0) as [|_]; [lia|].
  rewrite int_result_in_range by (unfold Lexer.INT_MIN, Lexer.INT_MAX; lia).
  simpl.
  by rewrite int_result_in_range by (unfold Lexer.INT_MIN, Lexer.INT_MAX; lia).
Qed.

(** An iteration that does not return appends no [end] token. *)
Lemma step_keeps_no_end l l' :
  Lexer.step l = inl l' →
  Forall (λ tok, is_end tok = false) (Lexer.tokens_ l) →
  Forall (λ tok, is_end tok = false) (Lexer.tokens_ l').
Proof.
  intros Hstep Hall. unfold Lexer.step in Hstep.
  pose proof (get_keyword_token_type_not_end (Lexer.get_lexeme l)) as Hkw.
  repeat case_match; simplify_eq; simpl;
    try match goal with
      | H : Lexer.advance_tab _ = Some _ |- _ =>
          apply advance_tab_Some in H as (? & _ & ->); simpl
      end;
    unfold Lexer.advance_char; repeat case_match; simpl;
    rewrite ?Forall_app, ?Forall_singleton; repeat split; try done.
  unfold is_end; simpl.
  destruct (Lexer.get_keyword_token_type _); done.
Qed.

(** An iteration that returns hands back the tokens so far and one [end]. *)
Lemma step_returns_end l toks :
  Lexer.step l = inr (Lexer.Returned toks) →
  ∃ tok, toks = Lexer.tokens_ l ++ [tok] ∧ type tok = TokenType.end_.
Proof.
  intros Hstep. unfold Lexer.step in Hstep.
  repeat case_match; simplify_eq. simpl. eauto.
Qed.

(** Whenever [run] returns, the last token is the only one of type [end]. *)
Lemma run_single_end fuel l toks :
  Forall (λ tok, is_end tok = false) (Lexer.tokens_ l) →
  Lexer.run fuel l = Some (Lexer.Returned toks) →
  ∃ front tok, toks = front ++ [tok] ∧ type tok = TokenType.end_
               ∧ Forall (λ tok, is_end tok = false) front.
Proof.
  revert l. induction fuel as [|fuel IH]; intros l Hall Hrun; [done|].
  rewrite run_S in Hrun. destruct (Lexer.step l) as [l'|r] eqn:Hstep.
  - eapply IH; [|exact Hrun]. eauto using step_keeps_no_end.
  - simplify_eq. apply step_returns_end in Hstep as (tok & -> & Hty). eauto.
Qed.

Lemma stuck_lexer_step : Lexer.step stuck_lexer = inl stuck_lexer.
Proof. reflexivity. Qed.

Lemma stuck_lexer_run fuel : Lexer.run fuel stuck_lexer = None.
Proof.
  induction fuel as [|fuel IH]; [done|].
  rewrite run_S, stuck_lexer_step. exact IH.
Qed.

(** A single-line comment that runs up to the terminating null character
    hangs the lexer the same way: [advance_char] refuses to move past the
    last index, and the comment state waits for a line break. *)
Lemma unterminated_comment_never_returns fuel :
  Lexer.run fuel (Lexer.new (null_terminated "//")) = None.
Proof.
  assert (∀ n, Lexer.run n lexer_in_last_comment = None) as Hstuck.
  { induction n as [|n IH]; [done|]. rewrite run_S. exact IH. }
  destruct fuel as [|[|fuel]]; [done..|].
  rewrite !run_S. apply Hstuck.
Qed.

(** C1 (fails on the code).  On the null-terminated buffer ["&"] the start
    state matches no case for the ampersand and leaves the index where it is,
    so the loop of [Lexer::run] looks at the same character forever: no bound
    on the iterations lets [run] return, while the lexer never moves past
    index 0 and never emits a token. *)
Theorem C1_stray_character_never_returns :
  (∀ fuel, Lexer.run fuel (Lexer.new (null_terminated "&")) = None)
  ∧ Lexer.step (Lexer.new (null_terminated "&")) = inl stuck_lexer
  ∧ Lexer.step stuck_lexer = inl stuck_lexer
  ∧ Lexer.index_ stuck_lexer = 0%nat
  ∧ Lexer.tokens_ stuck_lexer = [].
Proof.
  split; [|by repeat split].
  intros [|fuel]; [done|]. rewrite run_S.
  change (Lexer.step _) with (@inl Lexer.t Lexer.Result stuck_lexer).
  apply stuck_lexer_run.
Qed.

(** ** The lexer: tabs *)

Lemma current_char_not_last l c :
  last (Lexer.source_ l) = Some NUL →
  Lexer.current_char l = c → c ≠ NUL →
  Z.of_nat (Lexer.index_ l) ≠ Lexer.size_minus_one (Lexer.source_ l).
Proof.
  unfold Lexer.current_char, Lexer.size_minus_one.
  intros Hlast Hc Hne Hidx.
  destruct (Lexer.source_ l) as [|x src] eqn:Hsrc; [done|].
  assert (Lexer.index_ l = length src) as Hi by (simpl in Hidx; lia).
  rewrite last_lookup in Hlast. simpl in Hlast.
  rewrite Hi, Hlast in Hc. simpl in Hc. congruence.
Qed.

(** C8 (fails on the code).  The start state counts the tab character
    itself ([advance_char]) before it rounds ([advance_tab]), so the rounding
    of the specification is applied to [C + 1], not to [C].  With the
    default width 2, a tab met at column 1 leaves the counter at 4, whereas
    [((1 + 2) / 2) * 2] is 2; with the width 4, a tab met at column 3 (after
    two spaces) leaves it at 8, whereas [((3 + 4) / 4) * 4] is 4.
    [advance_tab] alone, at column 1 with the width 2, does yield 2. *)
Theorem C8_tab_counterexample :
  (let l := Lexer.new [TAB; NUL] in
   Lexer.columns_per_tab_ l = 2 ∧ Lexer.column_number_ l = 1
   ∧ Lexer.current_char l = TAB
   ∧ Lexer.column_number_ <$> Lexer.advance_tab l = Some ((1 + 2) ÷ 2 * 2)
   ∧ ∃ l', Lexer.step l = inl l'
           ∧ Lexer.column_number_ l' = 4
           ∧ Lexer.column_number_ l' ≠ (1 + 2) ÷ 2 * 2)
  ∧ ∃ l l',
      lexer_after 2
        (Lexer.set_columns_per_tab 4 (Lexer.new [" "; " "; TAB; NUL])%char)
      = inl l
      ∧ Lexer.columns_per_tab_ l = 4 ∧ Lexer.column_number_ l = 3
      ∧ Lexer.current_char l = TAB
      ∧ Lexer.step l = inl l'
      ∧ Lexer.column_number_ l' = 8
      ∧ Lexer.column_number_ l' ≠ (3 + 4) ÷ 4 * 4.
Proof.
  split.
  - repeat split. eexists. split; [reflexivity|]. split; [reflexivity|].
    vm_compute. discriminate.
  - eexists _, _. split; [reflexivity|]. repeat split.
    vm_compute. discriminate.
Qed.

(** X23.  In a null-terminated buffer, for every tab width [W > 0] and every
    column [C ≥ 0] with [C + 1 + W] in the range of [int], the start state
    consumes a tab by first counting the tab character itself
    ([advance_char]) and then rounding ([advance_tab]): the column counter
    becomes [((C + 1 + W) / W) * W], a multiple of [W] beyond [C + 1] and at
    most [C + 1 + W]; only the index and the column change besides the saved
    lexeme start. *)
Theorem lexer_tab_column (l : Lexer.t) (W C : Z) :
  0 < W → 0 ≤ C → C + 1 + W ≤ Lexer.INT_MAX →
  last (Lexer.source_ l) = Some NUL →
  Lexer.state_ l = LexerState.start →
  Lexer.current_char l = TAB →
  Lexer.columns_per_tab_ l = W →
  Lexer.column_number_ l = C →
  ∃ l', Lexer.step l = inl l'
        ∧ Lexer.column_number_ l' = (C + 1 + W) ÷ W * W
        ∧ (W | Lexer.column_number_ l')
        ∧ C + 1 < Lexer.column_number_ l' ≤ C + 1 + W
        ∧ Lexer.index_ l' = S (Lexer.index_ l)
        ∧ Lexer.line_number_ l' = Lexer.line_number_ l
        ∧ Lexer.tokens_ l' = Lexer.tokens_ l
        ∧ Lexer.state_ l' = LexerState.start.
Proof.
  intros HW HC0 Hmax Hlast Hst Hc HWl HC.
  pose proof (current_char_not_last l TAB Hlast Hc ltac:(done)) as Hidx.
  apply Z.eqb_neq in Hidx.
  unfold Lexer.step. rewrite Hst.
  change (Lexer.current_char (Lexer.start_lexeme l)) with (Lexer.current_char l).
  rewrite Hc. simpl.
  unfold Lexer.advance_tab, Lexer.advance_char. simpl. rewrite Hidx. simpl.
  rewrite HWl, HC, tab_column_in_range by lia. simpl.
  eexists. split; [reflexivity|]. simpl.
  repeat split; try done.
  - apply Z.divide_factor_r.
  - rewrite Z.quot_div_nonneg by lia.
    pose proof (Z.mod_pos_bound (C + 1 + W) W HW).
    pose proof (Z.div_mod (C + 1 + W) W ltac:(lia)). lia.
  - rewrite Z.quot_div_nonneg by lia. rewrite Z.mul_comm.
    apply Z.mul_div_le. lia.
Qed.

Lemma lexer_tab_column_witness :
  ∃ l', Lexer.step (Lexer.set_columns_per_tab 4 (Lexer.new [TAB; NUL])) = inl l'
        ∧ Lexer.column_number_ l' = (1 + 1 + 4) ÷ 4 * 4
        ∧ (4 | Lexer.column_number_ l')
        ∧ 1 + 1 < Lexer.column_number_ l' ≤ 1 + 1 + 4
        ∧ Lexer.index_ l' = 1%nat
        ∧ Lexer.line_number_ l' = 1
        ∧ Lexer.tokens_ l' = []
        ∧ Lexer.state_ l' = LexerState.start.
Proof.
  apply (lexer_tab_column
           (Lexer.set_columns_per_tab 4 (Lexer.new [TAB; NUL])) 4 1);
    [lia | lia | by vm_compute | reflexivity | reflexivity | reflexivity
    | reflexivity | reflexivity].
Defined.

(** ** The program graph: containers *)

Lemma with_entities_entities k l d d' :
  Graph.with_entities k l d = Some d' → Graph.entities_ k d' = Some l.
Proof. destruct k, d; simpl; intros; simplify_eq; done. Qed.

Lemma with_entities_is_Some k l l0 d :
  Graph.entities_ k d = Some l0 → is_Some (Graph.with_entities k l d).
Proof. destruct k, d; simpl; intros; simplify_eq; eauto. Qed.

(** [add] appends the entity to the container's list and makes the container
    its parent. *)
Lemma add_spec k c e g l :
  Graph.entities k c g = Some l →
  is_Some (g !! e) →
  ∃ g', Graph.add k c e g = Some g'
        ∧ Graph.entities k c g' = Some (l ++ [e])
        ∧ Graph.parent g' e = Some (Some c)
        ∧ length g' = length g.
Proof.
  unfold Graph.entities, Graph.add, Graph.parent, Graph.set_data,
    Graph.set_parent.
  intros Hl [ee He]. unfold Graph.entities. 
  destruct (g !! c) as [ce|] eqn:Hc; simpl in *; [|done].
  rewrite Hl. simpl.
  destruct (with_entities_is_Some k (l ++ [e]) l _ Hl) as [d' Hd'].
  rewrite Hd'. simpl.
  pose proof (lookup_lt_Some _ _ _ Hc) as Hclt.
  pose proof (lookup_lt_Some _ _ _ He) as Helt.
  destruct (decide (e = c)) as [->|Hne].
  - rewrite list_lookup_insert_eq by done. simpl.
    eexists. split; [reflexivity|].
    rewrite list_lookup_insert_eq by (by rewrite length_insert). simpl.
    rewrite !length_insert. eauto using with_entities_entities.
  - rewrite list_lookup_insert_ne by done. rewrite He. simpl.
    eexists. split; [reflexivity|].
    rewrite (list_lookup_insert_ne _ e c) by done.
    rewrite list_lookup_insert_eq by done. simpl.
    rewrite list_lookup_insert_eq by (by rewrite length_insert). simpl.
    rewrite !length_insert. eauto using with_entities_entities.
Qed.

Lemma get_loop_first_match g l n :
  Forall (λ p, is_Some (g !! p)) l →
  (∃ front e rest,
      l = front ++ e :: rest
      ∧ Graph.name g e = Some n
      ∧ Forall (λ p, Graph.name g p ≠ Some n) front
      ∧ Graph.get_loop g l n = Some (Some e))
  ∨ (Forall (λ p, Graph.name g p ≠ Some n) l
     ∧ Graph.get_loop g l n = Some None).
Proof.
  induction 1 as [|p l [e He] Hl IH]; [right; by split|].
  cbn [Graph.get_loop]. rewrite He. cbn [mbind option_bind].
  destruct (String.eqb_spec (name_ e) n) as [Heq|Hne].
  - left. exists [], p, l. unfold Graph.name. rewrite He. simpl.
    rewrite Heq. by repeat split.
  - assert (Graph.name g p ≠ Some n) as Hp
      by (unfold Graph.name; rewrite He; simpl; congruence).
    destruct IH as [(front & x & rest & -> & Hx & Hfront & Hget)|[Hall Hget]].
    + left. exists (p :: front), x, rest. repeat split; try done.
      by constructor.
    + right. split; [by constructor|done].
Qed.

(** C9.  For every container (of any of the five kinds) whose contained
    handles are live, and every name, [get] is defined (it does not fail) and
    either returns the first entity of the list, front to back, whose name
    equals the name sought, or returns the null handle when no contained
    entity has that name.  [get] reads the store and returns a handle only:
    the container is as it was. *)
Theorem C9_get_first_match (k : Container) (c : ptr) (n : string) (g : Store)
    (l : list ptr) :
  Graph.entities k c g = Some l →
  Forall (λ p, is_Some (g !! p)) l →
  (∃ front e rest,
      l = front ++ e :: rest
      ∧ Graph.name g e = Some n
      ∧ Forall (λ p, Graph.name g p ≠ Some n) front
      ∧ Graph.get k c n g = Some (Some e))
  ∨ (Forall (λ p, Graph.name g p ≠ Some n) l
     ∧ Graph.get k c n g = Some None).
Proof.
  intros Hl Hlive. unfold Graph.get. rewrite Hl. simpl.
  by apply get_loop_first_match.
Qed.

Lemma C9_get_first_match_witness :
  (∃ front e rest,
      [1; 2; 3]%nat = front ++ e :: rest
      ∧ Graph.name three_classes e = Some "bool"
      ∧ Forall (λ p, Graph.name three_classes p ≠ Some "bool") front
      ∧ Graph.get Classes 0%nat "bool" three_classes = Some (Some e))
  ∨ (Forall (λ p, Graph.name three_classes p ≠ Some "bool") [1; 2; 3]%nat
     ∧ Graph.get Classes 0%nat "bool" three_classes = Some None).
Proof.
  apply (C9_get_first_match Classes 0%nat "bool" three_classes [1; 2; 3]%nat).
  - reflexivity.
  - repeat constructor; eexists; reflexivity.
Defined.

(** C3, the [add] half.  For every container (of any of the five kinds)
    and every live entity [e], [add(e)] is defined; afterwards the list of
    the container is the former list with [e] at its end, and the parent
    back-reference of [e] is the container.  Of [remove], which the
    specification has clear the back-reference, nothing can be stated:
    [EntityContainer::remove] is ill-formed once instantiated
    ([iterator->parent_] names a member of [std::shared_ptr]) and is called
    nowhere, so no execution removes an entity or clears a back-reference. *)
Theorem C3_add_appends_and_sets_parent (k : Container) (c e : ptr)
    (g : Store) (l : list ptr) :
  Graph.entities k c g = Some l →
  is_Some (g !! e) →
  ∃ g', Graph.add k c e g = Some g'
        ∧ Graph.entities k c g' = Some (l ++ [e])
        ∧ Graph.parent g' e = Some (Some c).
Proof.
  intros Hl He.
  destruct (add_spec k c e g l Hl He) as (g' & Hadd & Hlist & Hparent & _).
  by exists g'.
Qed.

Lemma C3_add_appends_and_sets_parent_witness :
  ∃ g', Graph.add Objects 0%nat 1%nat
          [ mkEntity "f" None (Function [] [] ReturnType.none None);
            mkEntity "x" None (Object None) ] = Some g'
        ∧ Graph.entities Objects 0%nat g' = Some ([] ++ [1%nat])
        ∧ Graph.parent g' 1%nat = Some (Some 0%nat).
Proof.
  apply (C3_add_appends_and_sets_parent Objects 0%nat 1%nat
           [ mkEntity "f" None (Function [] [] ReturnType.none None);
             mkEntity "x" None (Object None) ] []).
  - reflexivity.
  - eexists; reflexivity.
Defined.

(** ** The parser: the token iterator *)

Lemma parser_loop_S fuel p :
  Parser.loop (S fuel) p
  = match Parser.step p with
    | inl p' => Parser.loop fuel p'
    | inr r => Some r
    end.
Proof. reflexivity. Qed.

Lemma TokenType_eqb_eq a b : TokenType.eqb a b = true ↔ a = b.
Proof. destruct a, b; simpl; split; intros; try done. Qed.

Lemma advance_token_spec p p' :
  Parser.advance_token p = Some p' →
  (p' = p ∧ ∃ tok, Parser.current_token p = Some tok
                   ∧ type tok = TokenType.end_)
  ∨ (p' = Parser.set_iterator (S (Parser.iterator_ p)) p
     ∧ ∃ tok, Parser.current_token p = Some tok ∧ type tok ≠ TokenType.end_).
Proof.
  unfold Parser.advance_token. intros H.
  destruct (Parser.current_token p) as [tok|]; simpl in H; [|done].
  destruct (TokenType.eqb (type tok) TokenType.end_) eqn:E; simplify_eq.
  - left. split; [done|]. exists tok. by apply TokenType_eqb_eq in E.
  - right. split; [done|]. exists tok. split; [done|].
    intros Heq. apply TokenType_eqb_eq in Heq. congruence.
Qed.

(** What an iteration does to the token list and the iterator: the list is
    never written, and the iterator stays or moves one past a token that is
    not [end]. *)
Lemma step_iterator p p' :
  Parser.step p = inl p' →
  Parser.tokens_ p' = Parser.tokens_ p
  ∧ (Parser.iterator_ p' = Parser.iterator_ p
     ∨ (Parser.iterator_ p' = S (Parser.iterator_ p)
        ∧ ∃ tok, Parser.tokens_ p !! Parser.iterator_ p = Some tok
                 ∧ type tok ≠ TokenType.end_)).
Proof.
  unfold Parser.step, Parser.next, Parser.fail. intros H.
  repeat case_match; simplify_eq; simpl; try (by auto);
    repeat match goal with
    | H : _ ≫= _ = Some _ |- _ =>
        apply bind_Some in H as (? & ? & H)
    | H : (let '(_, _) := Graph.make_shared _ _ in _) = Some _ |- _ =>
        unfold Graph.make_shared in H
    | H : match ?x with Some _ => _ | None => _ end = Some _ |- _ =>
        destruct x eqn:?; [|done]
    | H : Some _ = Some _ |- _ => simplify_eq
    end;
    match goal with
    | H : Parser.advance_token _ = Some _ |- _ =>
        apply advance_token_spec in H as [[-> _]|[-> (tok' & Htok & Hne)]];
        simpl; [by auto|];
        split; [done|]; right; split; [done|]; exists tok'; split; [|done];
        exact Htok
    end.
Qed.

Lemma prologue_new tokens :
  Parser.prologue (Parser.new tokens)
  = Some (Parser.mk tokens 0%nat ParserState.start (Some 0%nat) None None None
            None None None
            [ mkEntity "default" None (Package [1%nat] []);
              mkEntity "int" (Some 0%nat) Class ]).
Proof. reflexivity. Qed.

Lemma not_end_not_last tokens i tok :
  ends_with_end tokens →
  tokens !! i = Some tok → type tok ≠ TokenType.end_ →
  (S i < length tokens)%nat.
Proof.
  intros (tok' & Hlast & Hend) Hi Hne.
  pose proof (lookup_lt_Some _ _ _ Hi) as Hlt.
  destruct (decide (S i = length tokens)) as [Heq|]; [|lia].
  rewrite last_lookup in Hlast.
  replace (pred (length tokens)) with i in Hlast by lia.
  congruence.
Qed.

Lemma parser_after_in_list tokens n p p' :
  ends_with_end tokens →
  Parser.tokens_ p = tokens →
  (Parser.iterator_ p < length tokens)%nat →
  parser_after n p = inl p' →
  Parser.tokens_ p' = tokens ∧ (Parser.iterator_ p' < length tokens)%nat.
Proof.
  intros Hend. revert p. induction n as [|n IH]; intros p Htoks Hit Hafter.
  - simpl in Hafter. by simplify_eq.
  - simpl in Hafter.
    destruct (Parser.step p) as [p1|r] eqn:Hstep; [|done].
    apply step_iterator in Hstep as [Htoks1 Hit1].
    apply (IH p1); [congruence| |done].
    destruct Hit1 as [->|[-> (tok & Htok & Hne)]]; [done|].
    rewrite Htoks in Htok. eauto using not_end_not_last.
Qed.

(** C10.  Given tokens whose last element is of type [end], after any number
    of loop iterations of [run] (well-formed program or not) the parser still
    holds the token list it was given and its iterator designates an element
    of that list, so every read of the current token is a read of an element
    of the original list; and [advance_token] leaves the parser as it is when
    the current token is of type [end]. *)
Theorem C10_iterator_stays_in_list (tokens : list Token) (p0 p : Parser.t)
    (n : nat) :
  ends_with_end tokens →
  Parser.prologue (Parser.new tokens) = Some p0 →
  parser_after n p0 = inl p →
  Parser.tokens_ p = tokens
  ∧ (Parser.iterator_ p < length tokens)%nat
  ∧ ∃ tok, Parser.current_token p = Some tok
           ∧ tok ∈ tokens
           ∧ (type tok = TokenType.end_ → Parser.advance_token p = Some p).
Proof.
  intros Hend Hpro Hafter.
  rewrite prologue_new in Hpro. simplify_eq.
  assert (0 < length tokens)%nat as Hpos.
  { destruct Hend as (tok & Hlast & _). destruct tokens; [done|simpl; lia]. }
  eapply parser_after_in_list in Hafter as [Htoks Hit]; [|done..].
  split; [done|]. split; [done|].
  destruct (lookup_lt_is_Some_2 tokens (Parser.iterator_ p) Hit) as [tok Htok].
  exists tok. unfold Parser.current_token, Parser.advance_token.
  unfold Parser.current_token. rewrite Htoks, Htok.
  split; [done|]. split; [by eapply list_elem_of_lookup_2|].
  intros Hty. simpl. by rewrite Hty.
Qed.

Lemma C10_iterator_stays_in_list_witness :
  ∃ p, parser_after 4 (Parser.set_store
                         [ mkEntity "default" None (Package [1%nat] []);
                           mkEntity "int" (Some 0%nat) Class ]
                         (Parser.set_package (Some 0%nat)
                            (Parser.new truncated_tokens))) = inl p
       ∧ Parser.tokens_ p = truncated_tokens
       ∧ (Parser.iterator_ p < length truncated_tokens)%nat
       ∧ ∃ tok, Parser.current_token p = Some tok
                ∧ tok ∈ truncated_tokens
                ∧ (type tok = TokenType.end_
                   → Parser.advance_token p = Some p).
Proof.
  eexists. split; [vm_compute; reflexivity|].
  eapply (C10_iterator_stays_in_list truncated_tokens _ _ 4).
  - eexists. split; reflexivity.
  - reflexivity.
  - vm_compute. reflexivity.
Defined.

(** ** The parser: names that do not resolve *)

(** C6.  When the parser, expecting a parameter, reads an identifier that
    names no class of the package, or, expecting a value in a return
    expression, reads an identifier that names no object of the current
    function, that very loop iteration ends [run]: the process exits after
    one line on standard error that shows the offending token (its kind, its
    lexeme, its line and its column).  No package is returned and no further
    iteration takes place, so no further token is read. *)
Theorem C6_unresolved_name_is_fatal (p : Parser.t) (tok : Token) :
  Parser.current_token p = Some tok →
  type tok = TokenType.identifier →
  (Parser.state_ p = ParserState.func_param
   ∧ ∃ package, Parser.package_ p = Some package
       ∧ Graph.get Classes package (lexeme tok) (Parser.store p) = Some None)
  ∨ (Parser.state_ p = ParserState.expression_value
     ∧ ∃ function, Parser.function_ p = Some function
       ∧ Graph.get Objects function (lexeme tok) (Parser.store p)
         = Some None) →
  Parser.step p = inr (Parser.Exited (unexpected_token tok))
  ∧ (∀ fuel, Parser.loop (S fuel) p
             = Some (Parser.Exited (unexpected_token tok)))
  ∧ unexpected_token tok
    = "error: unexpected token " +:+ print_token tok +:+ newline
  ∧ print_token tok
    = "identifier " +:+ quote +:+ lexeme tok +:+ quote +:+ " "
      +:+ print_int (line_number tok) +:+ " "
      +:+ print_int (column_number tok).
Proof.
  intros Htok Hty Hcase.
  assert (Parser.step p = inr (Parser.Exited (unexpected_token tok))) as Hstep.
  { unfold Parser.step. rewrite Htok, Hty.
    destruct Hcase as [(-> & c & -> & ->)|(-> & f & -> & ->)];
      unfold Parser.fail, Parser.current_token; simpl;
      unfold Parser.current_token in Htok; rewrite Htok; reflexivity. }
  split; [done|]. split; [|split; [done|]].
  - intros fuel. by rewrite parser_loop_S, Hstep.
  - unfold print_token. rewrite Hty. reflexivity.
Qed.

Lemma C6_unresolved_name_is_fatal_witness :
  let tok := mkToken TokenType.identifier "foo" 1 8 in
  Parser.step at_unknown_class = inr (Parser.Exited (unexpected_token tok))
  ∧ (∀ fuel, Parser.loop (S fuel) at_unknown_class
             = Some (Parser.Exited (unexpected_token tok)))
  ∧ unexpected_token tok
    = "error: unexpected token " +:+ print_token tok +:+ newline
  ∧ print_token tok
    = "identifier " +:+ quote +:+ lexeme tok +:+ quote +:+ " "
      +:+ print_int (line_number tok) +:+ " "
      +:+ print_int (column_number tok).
Proof.
  apply (C6_unresolved_name_is_fatal at_unknown_class
           (mkToken TokenType.identifier "foo" 1 8)).
  - reflexivity.
  - reflexivity.
  - left. split; [reflexivity|]. exists 0%nat. split; reflexivity.
Defined.

(** Both failures on whole programs. *)
Example unknown_class_exits :
  parse_text 100 "func f(foo x) { }"
  = Some (Parser.Exited
            ("error: unexpected token identifier " +:+ quote +:+ "foo"
             +:+ quote +:+ " 1 8" +:+ newline)).
Proof. vm_compute. reflexivity. Qed.

Example unknown_object_exits :
  parse_text 100 "func f(int a) { return b; }"
  = Some (Parser.Exited
            ("error: unexpected token identifier " +:+ quote +:+ "b"
             +:+ quote +:+ " 1 24" +:+ newline)).
Proof. vm_compute. reflexivity. Qed.

(** ** The parser: return type and return class *)

#[local] Instance preserved_preorder : PreOrder preserved.
Proof.
  split; [by intros g q s|].
  intros g1 g2 g3 H12 H23 q s Hq. by apply H23, H12.
Qed.

Lemma summary_at_insert_same g p e e' :
  g !! p = Some e → summary (data e') = summary (data e) →
  ∀ q, summary_at (<[p := e']> g) q = summary_at g q.
Proof.
  intros Hp Heq q. unfold summary_at.
  destruct (decide (p = q)) as [<-|Hne].
  - rewrite list_lookup_insert_eq by eauto using lookup_lt_Some.
    rewrite Hp. simpl. by rewrite Heq.
  - by rewrite list_lookup_insert_ne.
Qed.

Lemma set_name_preserved p n g g' :
  Graph.set_name p n g = Some g' → preserved g g'.
Proof.
  unfold Graph.set_name. intros H.
  apply bind_Some in H as (e & He & H). simplify_eq.
  intros q s. by rewrite (summary_at_insert_same g p e).
Qed.

Lemma set_parent_preserved p x g g' :
  Graph.set_parent p x g = Some g' → preserved g g'.
Proof.
  unfold Graph.set_parent. intros H.
  apply bind_Some in H as (e & He & H). simplify_eq.
  intros q s. by rewrite (summary_at_insert_same g p e).
Qed.

Lemma set_data_preserved p F g g' :
  (∀ d d', F d = Some d' → summary d' = summary d) →
  Graph.set_data p F g = Some g' → preserved g g'.
Proof.
  unfold Graph.set_data. intros HF H.
  apply bind_Some in H as (e & He & H).
  apply bind_Some in H as (d & Hd & H). simplify_eq.
  intros q s. rewrite (summary_at_insert_same g p e); eauto.
Qed.

(** Outside [p], [set_data] changes nothing; at [p] the new data is what the
    update function gives. *)
Lemma set_data_summary p F g g' :
  Graph.set_data p F g = Some g' →
  ∃ e d, g !! p = Some e ∧ F (data e) = Some d
         ∧ summary_at g' p = Some (summary d)
         ∧ ∀ q, q ≠ p → summary_at g' q = summary_at g q.
Proof.
  unfold Graph.set_data. intros H.
  apply bind_Some in H as (e & He & H).
  apply bind_Some in H as (d & Hd & H). simplify_eq.
  exists e, d. repeat split; try done; unfold summary_at.
  - by rewrite list_lookup_insert_eq by eauto using lookup_lt_Some.
  - intros q Hne. by rewrite list_lookup_insert_ne.
Qed.

Lemma make_shared_preserved d g : preserved g (g ++ [mkEntity "" None d]).
Proof.
  intros q s. unfold summary_at. intros H.
  destruct (g !! q) as [e|] eqn:He; [|done].
  by rewrite (lookup_app_l_Some _ _ _ _ He).
Qed.

Lemma make_shared_summary d g :
  summary_at (g ++ [mkEntity "" None d]) (length g) = Some (summary d).
Proof. unfold summary_at. by rewrite list_lookup_middle. Qed.

Lemma with_entities_summary k l d d' :
  k ≠ Classes → k ≠ Functions →
  Graph.with_entities k l d = Some d' → summary d' = summary d.
Proof. destruct k, d; simpl; intros; simplify_eq; done. Qed.

(** Adding to a function or to an operator expression changes no summary. *)
Lemma add_preserved k c e g g' :
  k ≠ Classes → k ≠ Functions →
  Graph.add k c e g = Some g' → preserved g g'.
Proof.
  unfold Graph.add. intros Hk1 Hk2 H.
  apply bind_Some in H as (l & Hl & H).
  apply bind_Some in H as (g1 & Hg1 & H).
  etrans; [|by eapply set_parent_preserved].
  eapply set_data_preserved; [|done].
  eauto using with_entities_summary.
Qed.

Lemma set_cls_preserved o c g g' :
  Graph.set_cls o c g = Some g' → preserved g g'.
Proof.
  apply set_data_preserved. intros d d' H. by destruct d; simplify_eq.
Qed.

Lemma set_expression_preserved r e g g' :
  Graph.set_expression r e g = Some g' → preserved g g'.
Proof.
  apply set_data_preserved. intros d d' H. by destruct d; simplify_eq.
Qed.

Lemma set_operator_type_preserved o op g g' :
  Graph.set_operator_type o op g = Some g' → preserved g g'.
Proof.
  apply set_data_preserved. intros d d' H. by destruct d; simplify_eq.
Qed.

Lemma set_object_preserved e o g g' :
  Graph.set_object e o g = Some g' → preserved g g'.
Proof.
  apply set_data_preserved. intros d d' H. by destruct d; simplify_eq.
Qed.

Lemma return_ok_preserved g g' cs f :
  preserved g g' → return_ok g cs f → return_ok g' cs f.
Proof.
  intros Hpre (rt & rc & Hf & Hrt). exists rt, rc. split; [by apply Hpre|].
  destruct rt; [done|]. destruct Hrt as (c & -> & Hc & Hcls).
  exists c. repeat split; try done. by apply Hpre.
Qed.

(** The invariant survives every store change that preserves summaries. *)
Lemma graph_ok_preserved p p' :
  Parser.package_ p' = Parser.package_ p →
  preserved (Parser.store p) (Parser.store p') →
  graph_ok p → graph_ok p'.
Proof.
  intros Hpkg Hpre (package & cs & fs & Hp & Hsum & Hcs & Hfs).
  exists package, cs, fs. rewrite Hpkg. repeat split; try done.
  - by apply Hpre.
  - eapply Forall_impl; [exact Hcs|]. intros c Hc. by apply Hpre.
  - eapply Forall_impl; [exact Hfs|]. eauto using return_ok_preserved.
Qed.

Lemma get_loop_elem_of g l n x :
  Graph.get_loop g l n = Some (Some x) → x ∈ l.
Proof.
  induction l as [|y l IH]; simpl; [done|]. intros H.
  apply bind_Some in H as (e & He & H).
  destruct (String.eqb (name_ e) n); simplify_eq.
  - left.
  - right. by apply IH.
Qed.

Lemma get_classes_elem_of g package n c cs fs :
  summary_at g package = Some (SPackage cs fs) →
  Graph.get Classes package n g = Some (Some c) → c ∈ cs.
Proof.
  unfold summary_at, Graph.get, Graph.entities. intros Hsum H.
  destruct (g !! package) as [e|]; simpl in *; [|done].
  destruct (data e); simplify_eq. simpl in H, Hsum. simplify_eq.
  eauto using get_loop_elem_of.
Qed.

(** The loop iteration that reads [func]: a fresh function joins the
    package. *)
Lemma add_function_ok p package function g1 g2 :
  graph_ok p →
  Parser.package_ p = Some package →
  function = length (Parser.store p) →
  Graph.set_return_type function ReturnType.none
    (Parser.store p ++ [mkEntity "" None (Function [] [] ReturnType.none None)])
  = Some g1 →
  Graph.add Functions package function g1 = Some g2 →
  ∀ p', Parser.package_ p' = Some package → Parser.store p' = g2 →
        graph_ok p'.
Proof.
  intros (pkg & cs & fs & Hp & Hsum & Hcs & Hfs) Hpkg -> Hg1 Hg2 p' Hp' Hs'.
  rewrite Hpkg in Hp. simplify_eq.
  remember (Parser.store p) as g eqn:Hg.
  pose proof (make_shared_preserved (Function [] [] ReturnType.none None) g)
    as H0.
  pose proof (make_shared_summary (Function [] [] ReturnType.none None) g)
    as Hfresh.
  remember (g ++ [mkEntity "" None (Function [] [] ReturnType.none None)])
    as g0 eqn:Hg0.
  assert (preserved g0 g1) as H1.
  { apply set_data_summary in Hg1 as (e & d & He & Hd & Hat & Hother).
    assert (summary_at g0 (length g) = Some (summary d)) as Hsame.
    { rewrite Hfresh. rewrite Hg0, list_lookup_middle in He by done.
      simplify_eq. simpl in Hd. by simplify_eq. }
    intros q s Hq. destruct (decide (q = length g)) as [->|Hne].
    - congruence.
    - by rewrite Hother. }
  assert (summary_at g1 (length g) = Some (SFunction ReturnType.none None))
    as Hnew by (by apply H1).
  assert (pkg ≠ length g) as Hne.
  { unfold summary_at in Hsum. destruct (g !! pkg) eqn:E; [|done].
    apply lookup_lt_Some in E. lia. }
  unfold Graph.add in Hg2.
  apply bind_Some in Hg2 as (l & Hl & Hg2).
  apply bind_Some in Hg2 as (g1' & Hg1' & Hg2).
  apply set_parent_preserved in Hg2.
  apply set_data_summary in Hg1' as (e & d & He & Hd & Hat & Hother).
  assert (summary_at g1 pkg = Some (SPackage cs fs)) as Hsum1
    by (by apply H1, H0).
  assert (summary d = SPackage cs (fs ++ [length g])) as Hd'.
  { unfold summary_at in Hsum1. rewrite He in Hsum1. simpl in Hsum1.
    unfold Graph.entities in Hl. rewrite He in Hl. simpl in Hl.
    destruct (data e); simpl in *; by simplify_eq. }
  assert (∀ q s, q ≠ pkg → summary_at g q = Some s
                 → summary_at (Parser.store p') q = Some s) as Hkeep.
  { intros q s Hq Hs. apply Hg2. rewrite Hother by done. by apply H1, H0. }
  assert (∀ c, c ∈ cs → summary_at (Parser.store p') c = Some SClass) as Hcls.
  { intros c Hc. rewrite Forall_forall in Hcs. apply Hkeep; [|by apply Hcs].
    intros ->. specialize (Hcs _ Hc). congruence. }
  exists pkg, cs, (fs ++ [length g]). repeat split; try done.
  - apply Hg2. by rewrite Hat, Hd'.
  - rewrite Forall_forall. intros c Hc. by apply Hcls.
  - rewrite Forall_app, Forall_singleton. split.
    + rewrite Forall_forall in Hfs |- *. intros f Hf.
      destruct (Hfs _ Hf) as (rt & rc & Hfsum & Hrt).
      exists rt, rc. split.
      * apply Hkeep; [|done]. intros ->. congruence.
      * destruct rt; [done|]. destruct Hrt as (c & -> & Hc & _).
        exists c. repeat split; try done. by apply Hcls.
    + exists ReturnType.none, None. split; [|done].
      apply Hg2. by rewrite Hother.
Qed.


(** The loop iteration that reads the class after [->]. *)
Lemma set_return_value_ok p package function n cls g1 g2 :
  graph_ok p →
  Parser.package_ p = Some package →
  Graph.get Classes package n (Parser.store p) = Some (Some cls) →
  Graph.set_return_type function ReturnType.value (Parser.store p) = Some g1 →
  Graph.set_return_class function (Some cls) g1 = Some g2 →
  ∀ p', Parser.package_ p' = Some package → Parser.store p' = g2 →
        graph_ok p'.
Proof.
  intros (pkg & cs & fs & Hp & Hsum & Hcs & Hfs) Hpkg Hget Hg1 Hg2 p' Hp' Hs'.
  rewrite Hpkg in Hp. simplify_eq.
  remember (Parser.store p) as g eqn:Hg.
  pose proof (get_classes_elem_of _ _ _ _ _ _ Hsum Hget) as Hcls.
  apply set_data_summary in Hg1 as (e1 & d1 & He1 & Hd1 & Hat1 & Hother1).
  apply set_data_summary in Hg2 as (e2 & d2 & He2 & Hd2 & Hat2 & Hother2).
  assert (∃ os ss rt rc, summary_at g function = Some (SFunction rt rc)
                         ∧ d2 = Function os ss ReturnType.value (Some cls))
    as (os & ss & rt & rc & Hfun & ->).
  { unfold summary_at in *. rewrite He1. rewrite He2 in Hat1. simpl in *.
    destruct (data e1); simplify_eq. simpl in Hat1. simplify_eq.
    destruct (data e2); simplify_eq. simpl in Hat1. simplify_eq. eauto 10. }
  assert (∀ q s, q ≠ function → summary_at g q = Some s
                 → summary_at (Parser.store p') q = Some s) as Hkeep.
  { intros q s Hq Hs. by rewrite Hother2, Hother1. }
  rewrite Forall_forall in Hcs.
  assert (∀ c, c ∈ cs → summary_at (Parser.store p') c = Some SClass) as Hcs'.
  { intros c Hc. apply Hkeep; [|by apply Hcs].
    intros ->. specialize (Hcs _ Hc). congruence. }
  exists pkg, cs, fs. repeat split; try done.
  - apply Hkeep; [|done]. intros ->. congruence.
  - rewrite Forall_forall. intros c Hc. by apply Hcs'.
  - rewrite Forall_forall in Hfs |- *. intros f Hf.
    destruct (decide (f = function)) as [->|Hne].
    + exists ReturnType.value, (Some cls). split; [done|].
      exists cls. repeat split; try done. by apply Hcs'.
    + destruct (Hfs _ Hf) as (rt' & rc' & Hfsum & Hrt).
      exists rt', rc'. split; [by apply Hkeep|].
      destruct rt'; [done|]. destruct Hrt as (c & -> & Hc & _).
      exists c. repeat split; try done. by apply Hcs'.
Qed.

Lemma advance_token_store p p' :
  Parser.advance_token p = Some p' →
  Parser.store p' = Parser.store p ∧ Parser.package_ p' = Parser.package_ p.
Proof.
  intros H. by apply advance_token_spec in H as [[-> _]|[-> _]].
Qed.

Ltac crack_step :=
  repeat match goal with
    | H : _ ≫= _ = Some _ |- _ => apply bind_Some in H as (? & ? & H)
    | H : match ?x with Some _ => _ | None => _ end = Some _ |- _ =>
        destruct x eqn:?; [|done]
    | H : Some _ = Some _ |- _ => simplify_eq
    | H : (_, _) = (_, _) |- _ => simplify_eq
    end.

Ltac to_preserved :=
  repeat match goal with
    | H : Graph.set_name _ _ _ = Some _ |- _ => apply set_name_preserved in H
    | H : Graph.set_cls _ _ _ = Some _ |- _ => apply set_cls_preserved in H
    | H : Graph.set_object _ _ _ = Some _ |- _ =>
        apply set_object_preserved in H
    | H : Graph.set_expression _ _ _ = Some _ |- _ =>
        apply set_expression_preserved in H
    | H : Graph.set_operator_type _ _ _ = Some _ |- _ =>
        apply set_operator_type_preserved in H
    | H : Graph.add Objects _ _ _ = Some _ |- _ =>
        apply add_preserved in H; [|done|done]
    | H : Graph.add Statements _ _ _ = Some _ |- _ =>
        apply add_preserved in H; [|done|done]
    | H : Graph.add Expressions _ _ _ = Some _ |- _ =>
        apply add_preserved in H; [|done|done]
    end.

Ltac solve_preserved :=
  solve [ repeat first
            [ reflexivity
            | apply make_shared_preserved
            | etrans; [|eassumption] ] ].

(** Every loop iteration keeps the invariant. *)
Lemma step_graph_ok p p' :
  graph_ok p → Parser.step p = inl p' → graph_ok p'.
Proof.
  intros Hok H. unfold Parser.step, Parser.next, Parser.fail in H.
  repeat case_match; simplify_eq; try done;
    unfold Graph.make_shared in *; crack_step;
    try match goal with
      | H : Parser.advance_token _ = Some _ |- _ =>
          apply advance_token_store in H as [Hstore Hpackage]; simpl in *
      end.
  all: try (apply (graph_ok_preserved p); [|
              try rewrite Hstore; to_preserved; solve_preserved|exact Hok];
            simpl; congruence).
  all: try (apply (graph_ok_preserved p); [| |exact Hok]; simpl;
            [done | reflexivity]).
  - eapply set_return_value_ok; eauto. congruence.
  - eapply add_function_ok; eauto. congruence.
Qed.

Lemma step_returned p package g :
  Parser.step p = inr (Parser.Returned package g) →
  package = Parser.package_ p ∧ g = Parser.store p.
Proof.
  unfold Parser.step, Parser.next, Parser.fail. intros H.
  repeat case_match; by simplify_eq.
Qed.

Lemma loop_graph_ok fuel p package g :
  graph_ok p →
  Parser.loop fuel p = Some (Parser.Returned package g) →
  ∃ p', graph_ok p' ∧ package = Parser.package_ p' ∧ g = Parser.store p'.
Proof.
  revert p. induction fuel as [|fuel IH]; intros p Hok Hloop; [done|].
  rewrite parser_loop_S in Hloop.
  destruct (Parser.step p) as [p1|r] eqn:Hstep.
  - eauto using step_graph_ok.
  - simplify_eq. apply step_returned in Hstep as [-> ->]. eauto.
Qed.

Lemma prologue_graph_ok tokens p :
  Parser.prologue (Parser.new tokens) = Some p → graph_ok p.
Proof.
  rewrite prologue_new. intros ?; simplify_eq.
  exists 0%nat, [1%nat], []. repeat split; try done.
  by apply Forall_singleton.
Qed.

Lemma summary_at_package g q cs fs :
  summary_at g q = Some (SPackage cs fs) →
  Graph.entities Classes q g = Some cs
  ∧ Graph.entities Functions q g = Some fs.
Proof.
  unfold summary_at, Graph.entities. intros H.
  destruct (g !! q) as [e|]; simpl in *; [|done].
  destruct (data e); simpl in *; by simplify_eq.
Qed.

Lemma summary_at_function g q rt rc :
  summary_at g q = Some (SFunction rt rc) →
  Graph.return_type g q = Some rt ∧ Graph.return_class g q = Some rc.
Proof.
  unfold summary_at, Graph.return_type, Graph.return_class. intros H.
  destruct (g !! q) as [e|]; simpl in *; [|done].
  destruct (data e); simpl in *; by simplify_eq.
Qed.

Lemma summary_at_class g q :
  summary_at g q = Some SClass → Graph.is_class g q.
Proof.
  unfold summary_at, Graph.is_class. intros H.
  destruct (g !! q) as [e|]; simpl in *; [|done].
  destruct (data e); simpl in *; by simplify_eq.
Qed.

(** C4 (fails on the code).  The parser checks no return statement against
    the return type of its function: [func f(int a) { return a; }] parses to
    a function of return type [none] (a function that "returns no objects"),
    without a return class, whose one return statement carries the expression
    [a] all the same; and the translator turns it into a [void] function
    that returns a value, which is not valid C. *)
Theorem C4_return_value_in_void_function :
  ∃ g function statement e,
    parse_text 100 "func f(int a) { return a; }"
    = Some (Parser.Returned (Some 0%nat) g)
    ∧ Graph.entities Functions 0%nat g = Some [function]
    ∧ Graph.return_type g function = Some ReturnType.none
    ∧ Graph.return_class g function = Some None
    ∧ Graph.entities Statements function g = Some [statement]
    ∧ Graph.expression g statement = Some (Some e)
    ∧ expression_tree 2 g e = Some (ObjectExpressionOf 3%nat)
    ∧ Translator.translate 10 g 0%nat = Some void_f_code.
Proof.
  eexists _, 2%nat, 4%nat, 5%nat.
  split; [vm_compute; reflexivity|]. repeat split.
Qed.

(** X24.  For every token list, if [Parser::run] returns, it returns a
    package, and every function of that package satisfies: with return type
    [none] its return class is the null handle; with return type [value] its
    return class is a handle to one of the classes of the package. *)
Theorem parser_return_type_and_class (tokens : list Token) (fuel : nat)
    (returned : option ptr) (g : Store) :
  Parser.run fuel (Parser.new tokens) = Some (Parser.Returned returned g) →
  ∃ package classes functions,
    returned = Some package
    ∧ Graph.entities Classes package g = Some classes
    ∧ Graph.entities Functions package g = Some functions
    ∧ ∀ function, function ∈ functions →
        ∃ return_type return_class,
          Graph.return_type g function = Some return_type
          ∧ Graph.return_class g function = Some return_class
          ∧ match return_type with
            | ReturnType.none => return_class = None
            | ReturnType.value =>
                ∃ cls, return_class = Some cls ∧ cls ∈ classes
                       ∧ Graph.is_class g cls
            end.
Proof.
  unfold Parser.run. intros Hrun.
  destruct (Parser.prologue (Parser.new tokens)) as [p0|] eqn:Hpro; [|done].
  apply prologue_graph_ok in Hpro.
  apply (loop_graph_ok _ _ _ _ Hpro) in Hrun
    as (p & (package & cs & fs & Hp & Hsum & Hcs & Hfs) & -> & ->).
  apply summary_at_package in Hsum as [Hclasses Hfunctions].
  exists package, cs, fs. repeat split; try done.
  intros function Hin. rewrite Forall_forall in Hfs.
  destruct (Hfs _ Hin) as (rt & rc & Hf & Hrt).
  apply summary_at_function in Hf as [Hty Hcl].
  exists rt, rc. repeat split; try done.
  destruct rt; [done|]. destruct Hrt as (c & -> & Hc & Hcls).
  eauto using summary_at_class.
Qed.

Lemma parser_return_type_and_class_witness :
  ∃ package classes functions,
    Some 0%nat = Some package
    ∧ Graph.entities Classes package add_graph = Some classes
    ∧ Graph.entities Functions package add_graph = Some functions
    ∧ ∀ function, function ∈ functions →
        ∃ return_type return_class,
          Graph.return_type add_graph function = Some return_type
          ∧ Graph.return_class add_graph function = Some return_class
          ∧ match return_type with
            | ReturnType.none => return_class = None
            | ReturnType.value =>
                ∃ cls, return_class = Some cls ∧ cls ∈ classes
                       ∧ Graph.is_class add_graph cls
            end.
Proof.
  apply (parser_return_type_and_class add_lexed 100 (Some 0%nat) add_graph).
  vm_compute. reflexivity.
Defined.

(** ** The lexer: line endings *)

Lemma render_app e a b : render e (a ++ b) = render e a ++ render e b.
Proof.
  induction a as [|x a IH]; simpl; [done|]. by rewrite IH, app_assoc.
Qed.

Lemma render_chrs e m :
  forallb is_chr m = true → render e m = render EndLF m.
Proof.
  induction m as [|[c|] m IH]; simpl; intros H; try done. by rewrite IH.
Qed.

Lemma size_minus_one_snoc l x :
  Lexer.size_minus_one (l ++ [x]) = Z.of_nat (length l).
Proof.
  unfold Lexer.size_minus_one.
  destruct (l ++ [x]) as [|y l'] eqn:E.
  - by destruct l.
  - rewrite <- E, length_app. simpl. lia.
Qed.

(** Raw facts about [current_char] and [advance_char]. *)
Lemma current_char_at l pre c post :
  Lexer.source_ l = pre ++ c :: post → Lexer.index_ l = length pre →
  Lexer.current_char l = c.
Proof.
  unfold Lexer.current_char. intros -> ->. by rewrite list_lookup_middle.
Qed.

Lemma advance_char_at l pre c d post :
  Lexer.source_ l = pre ++ c :: post ++ [d] → Lexer.index_ l = length pre →
  Lexer.advance_char l
  = Lexer.mk (Lexer.source_ l) (Lexer.state_ l) (S (Lexer.index_ l))
      (Lexer.start_index_ l) (Lexer.line_number_ l)
      (Lexer.start_line_number_ l) (Lexer.column_number_ l + 1)
      (Lexer.start_column_number_ l) (Lexer.columns_per_tab_ l)
      (Lexer.tokens_ l).
Proof.
  intros Hsrc Hidx. unfold Lexer.advance_char.
  replace (Lexer.source_ l) with ((pre ++ c :: post) ++ [d])
    by (by rewrite Hsrc, <- app_assoc).
  rewrite size_minus_one_snoc, length_app, Hidx. simpl.
  destruct (Z.eqb_spec (Z.of_nat (length pre))
              (Z.of_nat (length pre + S (length post)))); [lia|done].
Qed.

Lemma advance_char_last l pre d :
  Lexer.source_ l = pre ++ [d] → Lexer.index_ l = length pre →
  Lexer.advance_char l = l.
Proof.
  intros Hsrc Hidx. unfold Lexer.advance_char.
  by rewrite Hsrc, size_minus_one_snoc, Hidx, Z.eqb_refl.
Qed.

(** The source of a concrete lexer, split at its index. *)
Lemma source_concrete e v :
  Lexer.source_ (concrete e v)
  = render e (v_start v ++ v_mid v) ++ render e (v_after v) ++ [NUL].
Proof.
  unfold concrete, written. simpl.
  by rewrite !render_app, <- !app_assoc.
Qed.

Lemma current_char_concrete e v :
  Lexer.current_char (concrete e v)
  = match v_after v with
    | [] => NUL
    | Chr c :: _ => c
    | Break :: _ => match e with EndLF => LF | _ => CR end
    end.
Proof.
  destruct (v_after v) as [|[c|] after] eqn:Hafter;
    pose proof (source_concrete e v) as Hsrc; rewrite Hafter in Hsrc;
    simpl in Hsrc.
  - by eapply current_char_at.
  - by eapply current_char_at.
  - destruct e; simpl in Hsrc; by eapply current_char_at.
Qed.

(** [advance_char] moves a concrete lexer over one item, unless the item is
    a line break spelt with two characters. *)
Lemma advance_char_concrete e v :
  (∀ after, v_after v = Break :: after → e ≠ EndCRLF) →
  Lexer.advance_char (concrete e v) = concrete e (view_advance_char v).
Proof.
  intros He. pose proof (source_concrete e v) as Hsrc.
  unfold view_advance_char.
  destruct (v_after v) as [|x after] eqn:Hafter.
  - simpl in Hsrc. by eapply advance_char_last.
  - assert (render_item e x ++ render e after ++ [NUL]
            = hd NUL (render_item e x) :: render e after ++ [NUL]) as Hx.
    { destruct x as [c|]; [done|].
      destruct e; try done. by destruct (He after). }
    simpl in Hsrc. rewrite <- app_assoc, Hx in Hsrc.
    erewrite advance_char_at; [|exact Hsrc|done].
    unfold concrete, written. simpl. f_equal.
    + by rewrite Hafter, <- (app_assoc (v_mid v)).
    + rewrite !render_app, !length_app. simpl.
      destruct x as [c|]; simpl; [lia|].
      destruct e; simpl; try lia. by destruct (He after).
Qed.

Lemma start_lexeme_concrete e v :
  Lexer.start_lexeme (concrete e v) = concrete e (view_start_lexeme v).
Proof.
  unfold concrete, Lexer.start_lexeme. simpl.
  by rewrite app_nil_r, <- app_assoc.
Qed.

Lemma get_lexeme_concrete e v :
  forallb is_chr (v_mid v) = true →
  Lexer.get_lexeme (concrete e v) = view_lexeme v.
Proof.
  intros Hmid. unfold Lexer.get_lexeme, view_lexeme, concrete, written. simpl.
  rewrite !render_app, <- !app_assoc, !length_app.
  destruct (Nat.leb_spec (length (render e (v_start v)))
              (length (render e (v_start v)) + length (render e (v_mid v))));
    [|lia].
  rewrite drop_app_length.
  replace (length (render e (v_start v)) + length (render e (v_mid v))
           - length (render e (v_start v)))%nat
    with (length (render e (v_mid v))) by lia.
  by rewrite take_app_length, render_chrs.
Qed.

Lemma add_token_concrete e ty v :
  forallb is_chr (v_mid v) = true →
  Lexer.add_token ty (concrete e v) = concrete e (view_add_token ty v).
Proof.
  intros Hmid. unfold Lexer.add_token.
  by rewrite get_lexeme_concrete.
Qed.

Lemma add_identifier_or_keyword_concrete e v :
  forallb is_chr (v_mid v) = true →
  Lexer.add_identifier_or_keyword (concrete e v)
  = concrete e (view_add_identifier_or_keyword v).
Proof.
  intros Hmid.
  unfold Lexer.add_identifier_or_keyword, view_add_identifier_or_keyword.
  by rewrite get_lexeme_concrete, add_token_concrete.
Qed.

Lemma advance_tab_concrete e v :
  Lexer.advance_tab (concrete e v) = concrete e <$> view_advance_tab v.
Proof.
  unfold Lexer.advance_tab, view_advance_tab, concrete. simpl.
  by destruct (Lexer.tab_column (v_column v) (v_tab v)).
Qed.

#[local] Arguments concrete : simpl never.
#[local] Arguments Lexer.tab_column : simpl never.

Ltac commute_side :=
  first
    [ reflexivity
    | assumption
    | simpl; rewrite ?forallb_app; simpl;
      match goal with
      | H : forallb is_chr _ = true |- _ => rewrite H
      end; reflexivity
    | let H := fresh in
      intros ? H; simpl in H; first [discriminate H | done | congruence] ].

Lemma logical_cons_chr c after :
  logical (Chr c :: after) →
  Ascii.eqb c CR = false ∧ Ascii.eqb c LF = false ∧ logical after.
Proof.
  unfold logical. simpl. intros H.
  apply andb_prop in H as [H Hafter]. apply andb_prop in H as [H1 H2].
  by rewrite negb_true_iff in H1, H2.
Qed.

Lemma logical_cons_break after : logical (Break :: after) → logical after.
Proof. done. Qed.

Ltac commute :=
  repeat first
    [ rewrite start_lexeme_concrete
    | rewrite advance_char_concrete by commute_side
    | rewrite add_token_concrete by commute_side
    | rewrite add_identifier_or_keyword_concrete by commute_side
    | rewrite get_lexeme_concrete by commute_side ];
  try reflexivity.

Ltac known_chars :=
  change (isalnum NUL) with false; change (isalpha NUL) with false;
  change (isalnum LF) with false; change (isalpha LF) with false;
  change (isalnum CR) with false; change (isalpha CR) with false.

(** Away from a line break, or with line feeds as line breaks, the lexer
    and the view take the same step. *)
Lemma step_concrete e v :
  view_ok v →
  (∀ after, v_after v = Break :: after → e = EndLF) →
  Lexer.step (concrete e v) = lift e (view_step v).
Proof.
  intros (Hlog & Hbetween & Hmid) HLF.
  unfold Lexer.step, view_step. cbv zeta.
  rewrite ?start_lexeme_concrete, !current_char_concrete.
  change (Lexer.state_ (concrete e v)) with (v_state v).
  change (v_after (view_start_lexeme v)) with (v_after v).
  unfold view_current.
  destruct v as [s m a st ln sl col sc tab toks]. simpl in *.
  destruct a as [|[c|] after].
  - destruct st; try done; simpl in Hmid; try specialize (Hmid eq_refl);
      known_chars; cbn; commute.
  - apply logical_cons_chr in Hlog as (HCR & HLF' & Hlog).
    rewrite ?advance_char_concrete, ?advance_tab_concrete by commute_side.
    destruct st; try done; simpl in Hmid; try specialize (Hmid eq_refl);
      cbv beta iota; repeat case_match; try congruence; cbn; commute;
      by simplify_eq/=.
  - rewrite (HLF after eq_refl).
    destruct st; try done; simpl in Hmid; try specialize (Hmid eq_refl);
      known_chars; cbn; commute.
Qed.

Lemma lexer_after_S n l :
  lexer_after (S n) l
  = match Lexer.step l with
    | inl l' => lexer_after n l'
    | inr r => inr r
    end.
Proof. reflexivity. Qed.

Lemma half_break_advance v after :
  v_after v = Break :: after →
  Lexer.advance_char (concrete EndCRLF v) = half_break v (v_state v).
Proof.
  intros Hafter. pose proof (source_concrete EndCRLF v) as Hsrc.
  rewrite Hafter in Hsrc. simpl in Hsrc.
  change (CR :: LF :: render EndCRLF after ++ [NUL])
    with (CR :: (LF :: render EndCRLF after) ++ [NUL]) in Hsrc.
  by erewrite advance_char_at.
Qed.

Lemma half_break_current v st after :
  v_after v = Break :: after →
  Lexer.current_char (half_break v st) = LF.
Proof.
  intros Hafter. pose proof (source_concrete EndCRLF v) as Hsrc.
  rewrite Hafter in Hsrc. simpl in Hsrc.
  eapply (current_char_at _ (render EndCRLF (v_start v ++ v_mid v) ++ [CR])).
  - change (Lexer.source_ (half_break v st))
      with (written EndCRLF (v_start v ++ v_mid v ++ v_after v)).
    rewrite Hsrc, <- app_assoc. reflexivity.
  - rewrite length_app. simpl. lia.
Qed.

Lemma half_break_finish v st after :
  v_after v = Break :: after →
  Lexer.advance_line (Lexer.advance_char (half_break v st))
  = concrete EndCRLF
      (view_set_state st (view_advance_line (view_advance_char v))).
Proof.
  intros Hafter. pose proof (source_concrete EndCRLF v) as Hsrc.
  rewrite Hafter in Hsrc. simpl in Hsrc.
  erewrite (advance_char_at _
              (render EndCRLF (v_start v ++ v_mid v) ++ [CR]) LF NUL
              (render EndCRLF after)).
  - unfold view_advance_char. rewrite Hafter.
    unfold concrete, half_break, Lexer.advance_line. simpl. f_equal.
    + by rewrite Hafter, <- (app_assoc (v_mid v)).
    + rewrite (app_assoc (v_start v)), (render_app _ (v_start v ++ v_mid v)).
      rewrite length_app. simpl. lia.
  - change (Lexer.source_ (half_break v st))
      with (written EndCRLF (v_start v ++ v_mid v ++ v_after v)).
    rewrite Hsrc, <- app_assoc. reflexivity.
  - simpl. rewrite length_app. simpl. lia.
Qed.

(** After a carriage return that ends a line of a logical text spelt with
    carriage returns alone, the next character is not a line feed. *)
Lemma current_char_after_cr v :
  logical (v_after v) →
  Ascii.eqb (Lexer.current_char (concrete EndCR v)) LF = false.
Proof.
  intros Hlog. rewrite current_char_concrete.
  destruct (v_after v) as [|[c|] after]; try done.
  by apply logical_cons_chr in Hlog as (_ & ? & _).
Qed.

(** At a line break spelt with a carriage return, the lexer needs one
    iteration where the view does not consume the break, and two where it
    does; either way it arrives where the view's step arrives. *)
Lemma step_concrete_break e v rest :
  view_ok v → v_after v = Break :: rest → e ≠ EndLF →
  ∃ k, (0 < k)%nat ∧ lexer_after k (concrete e v) = lift e (view_step v).
Proof.
  intros (Hlog & Hbetween & Hmid) Hafter He.
  destruct v as [s m a st ln sl col sc tab toks]. simpl in *. subst a.
  change (logical rest) in Hlog.
  destruct st; try done; simpl in Hmid; try specialize (Hmid eq_refl).
  all: try solve [ exists 1%nat; split; [lia|];
            rewrite lexer_after_S; unfold Lexer.step, view_step; cbv zeta;
            rewrite !current_char_concrete; simpl;
            destruct e; try done; known_chars; cbn; commute ].
  all: exists 2%nat; split; [lia|]; rewrite lexer_after_S;
    unfold Lexer.step at 1; cbv zeta;
    rewrite ?start_lexeme_concrete, !current_char_concrete; simpl;
    destruct e; try done; known_chars; cbn.
  all: try (rewrite advance_char_concrete by commute_side;
            repeat match goal with
              | |- context [Lexer.set_state ?st (concrete ?e ?v)] =>
                  change (Lexer.set_state st (concrete e v))
                    with (concrete e (view_set_state st v))
              end;
            rewrite current_char_after_cr by (simpl; assumption);
            reflexivity).
  all: erewrite half_break_advance by reflexivity;
    repeat match goal with
      | |- context [Lexer.set_state ?st (half_break ?v ?st0)] =>
          change (Lexer.set_state st (half_break v st0))
            with (half_break v st)
      end;
    erewrite half_break_current by reflexivity;
    change (Ascii.eqb LF LF) with true; cbv iota;
    erewrite half_break_finish by reflexivity; reflexivity.
Qed.

(** Under each of the three spellings the lexer follows the view, in one or
    two iterations per step of the view. *)
Lemma lexer_follows_view e v :
  view_ok v →
  ∃ k, (0 < k)%nat ∧ lexer_after k (concrete e v) = lift e (view_step v).
Proof.
  intros Hok.
  destruct (v_after v) as [|[c|] rest] eqn:Hafter.
  1,2: exists 1%nat; split; [lia|]; rewrite lexer_after_S;
    rewrite step_concrete; [by destruct (view_step v)|done|];
    intros ? ?; congruence.
  assert (e = EndLF ∨ e ≠ EndLF) as [->|He]
    by (destruct e; (by left) || (by right)).
  - exists 1%nat. split; [lia|]. rewrite lexer_after_S.
    rewrite step_concrete; [by destruct (view_step v)|done|done].
  - eauto using step_concrete_break.
Qed.

Lemma forallb_is_chr_snoc m c :
  forallb is_chr m = true → forallb is_chr (m ++ [Chr c]) = true.
Proof. intros H. by rewrite forallb_app, H. Qed.

Lemma view_advance_tab_Some v v' :
  view_advance_tab v = Some v' →
  ∃ column,
    v' = mkView (v_start v) (v_mid v) (v_after v) (v_state v) (v_line v)
           (v_start_line v) column (v_start_column v) (v_tab v) (v_tokens v).
Proof.
  unfold view_advance_tab. intros H.
  apply bind_Some in H as (column & _ & H). simplify_eq. eauto.
Qed.

(** A step of the view leads to a view of the same kind. *)
Lemma view_step_ok v v' : view_ok v → view_step v = inl v' → view_ok v'.
Proof.
  intros (Hlog & Hbetween & Hmid) Hstep.
  destruct v as [s m a st ln sl col sc tab toks]. simpl in *.
  unfold view_step, view_current in Hstep. simpl in Hstep.
  destruct a as [|[c|] rest].
  - destruct st; try done; known_chars; simpl in Hstep; simplify_eq;
      by repeat split.
  - pose proof Hlog as Hlog0.
    apply logical_cons_chr in Hlog as (_ & _ & Hlog).
    destruct st; try done; simpl in Hmid; try specialize (Hmid eq_refl);
      repeat case_match; simplify_eq;
      try match goal with
        | H : view_advance_tab _ = Some _ |- _ =>
            apply view_advance_tab_Some in H as [? ->]
        end;
      repeat split; simpl; try done;
      try (intros _; by rewrite ?forallb_app, ?Hmid).
  - change (logical rest) in Hlog.
    destruct st; try done; known_chars; simpl in Hstep; simplify_eq;
      by repeat split.
Qed.

Lemma lexer_after_run k l l' fuel :
  lexer_after k l = inl l' → Lexer.run (k + fuel) l = Lexer.run fuel l'.
Proof.
  revert l. induction k as [|k IH]; intros l H; simpl in H; [by simplify_eq|].
  simpl plus. rewrite run_S.
  destruct (Lexer.step l) as [l1|toks]; [by apply IH|done].
Qed.

Lemma lexer_after_returns k l r fuel :
  lexer_after k l = inr r → Lexer.run (k + fuel) l = Some r.
Proof.
  revert l. induction k as [|k IH]; intros l H; simpl in H; [done|].
  simpl plus. rewrite run_S.
  destruct (Lexer.step l) as [l1|r']; [by apply IH|by simplify_eq].
Qed.

(** However a run ends, it ends so from wherever its iterations lead. *)
Lemma run_after k l fuel r :
  Lexer.run fuel l = Some r →
  match lexer_after k l with
  | inl l' => (k < fuel)%nat ∧ Lexer.run (fuel - k) l' = Some r
  | inr r' => r' = r
  end.
Proof.
  revert l fuel. induction k as [|k IH]; intros l fuel Hrun.
  - simpl. rewrite Nat.sub_0_r. split; [|done].
    destruct fuel; [done|lia].
  - destruct fuel as [|fuel]; [done|]. rewrite run_S in Hrun.
    rewrite lexer_after_S.
    destruct (Lexer.step l) as [l1|toks1]; [|by simplify_eq].
    specialize (IH l1 fuel Hrun).
    destruct (lexer_after k l1); [|done].
    destruct IH as [Hlt IH]. split; [lia|done].
Qed.

(** From views of the same kind, two spellings end alike: with the same
    tokens if they return. *)
Lemma run_concrete_transfer e1 e2 fuel v r :
  view_ok v →
  Lexer.run fuel (concrete e1 v) = Some r →
  ∃ fuel', Lexer.run fuel' (concrete e2 v) = Some r.
Proof.
  revert v. induction (lt_wf fuel) as [fuel _ IH]. intros v Hok Hrun.
  destruct (lexer_follows_view e1 v Hok) as (k1 & Hk1 & H1).
  destruct (lexer_follows_view e2 v Hok) as (k2 & Hk2 & H2).
  pose proof (run_after k1 _ _ _ Hrun) as Hafter. rewrite H1 in Hafter.
  destruct (view_step v) as [v'|r'] eqn:Hstep; simpl in *.
  - destruct Hafter as [Hlt Hrun'].
    destruct (IH (fuel - k1)%nat ltac:(lia) v') as (fuel' & Hrun2);
      [by eapply view_step_ok|done|].
    exists (k2 + fuel')%nat. by rewrite (lexer_after_run _ _ _ _ H2).
  - subst r'. exists (k2 + 0)%nat. by apply lexer_after_returns.
Qed.

Lemma concrete_view_new e text :
  concrete e (view_new text) = Lexer.new (written e text).
Proof. reflexivity. Qed.

Lemma view_new_ok text : logical text → view_ok (view_new text).
Proof. by repeat split. Qed.

(** Each spelling of a line break that the lexer meets between two lexemes
    or inside a comment counts once: the lexer moves past all the characters
    of the spelling, the line counter grows by one and the column counter is
    back at one. *)
Lemma line_break_counts_once e v rest :
  view_ok v →
  v_after v = Break :: rest →
  v_state v = LexerState.start ∨ v_state v = LexerState.single_line_comment
  ∨ v_state v = LexerState.multi_line_comment →
  ∃ k l',
    (0 < k)%nat
    ∧ lexer_after k (concrete e v) = inl l'
    ∧ Lexer.source_ l' = Lexer.source_ (concrete e v)
    ∧ Lexer.index_ l'
      = (Lexer.index_ (concrete e v) + length (ending e))%nat
    ∧ Lexer.line_number_ l' = Lexer.line_number_ (concrete e v) + 1
    ∧ Lexer.column_number_ l' = 1
    ∧ Lexer.state_ l'
      = match v_state v with
        | LexerState.multi_line_comment => LexerState.multi_line_comment
        | _ => LexerState.start
        end
    ∧ Lexer.tokens_ l' = Lexer.tokens_ (concrete e v).
Proof.
  intros Hok Hafter Hst.
  destruct (lexer_follows_view e v Hok) as (k & Hk & Hafter_k).
  destruct v as [s m a st ln sl col sc tab toks]. simpl in *. subst.
  destruct Hst as [->|[->| ->]]; exists k; eexists; (split; [done|]);
    (split; [exact Hafter_k|]); unfold concrete; simpl;
    rewrite ?app_nil_r, <- ?app_assoc; repeat split;
    rewrite (app_assoc s m [Break]), (render_app e (s ++ m)), length_app;
    simpl; by rewrite app_nil_r.
Qed.

(** C7.  For every logical source text (characters that are not themselves
    CR or LF, and line breaks), whatever token sequence the lexer returns for
    the text written with one of the three line endings (CR, LF, CRLF), it
    returns for the text written with any other of them: the same tokens, so
    in particular the same (line, column) pairs, token for token.  And each
    of the three endings counts as exactly one line break: wherever the
    lexer meets a line break (between two lexemes, in a single-line comment
    or in a multi-line comment, the states that consume one), under each
    spelling it gets past all the characters of the spelling with the line
    counter one higher and the column counter back at 1, no token added. *)
Theorem C7_line_endings_lex_alike (text : list Item) (e1 e2 : LineEnding)
    (toks : list Token) :
  logical text →
  lexes (written e1 text) toks →
  lexes (written e2 text) toks
  ∧ (∀ toks', lexes (written e2 text) toks'
              → positions toks' = positions toks)
  ∧ ∀ (e : LineEnding) (v : View) (rest : list Item),
      view_ok v →
      v_after v = Break :: rest →
      v_state v = LexerState.start
      ∨ v_state v = LexerState.single_line_comment
      ∨ v_state v = LexerState.multi_line_comment →
      ∃ k l',
        (0 < k)%nat
        ∧ lexer_after k (concrete e v) = inl l'
        ∧ Lexer.source_ l' = Lexer.source_ (concrete e v)
        ∧ Lexer.index_ l'
          = (Lexer.index_ (concrete e v) + length (ending e))%nat
        ∧ Lexer.line_number_ l' = Lexer.line_number_ (concrete e v) + 1
        ∧ Lexer.column_number_ l' = 1
        ∧ Lexer.state_ l'
          = match v_state v with
            | LexerState.multi_line_comment => LexerState.multi_line_comment
            | _ => LexerState.start
            end
        ∧ Lexer.tokens_ l' = Lexer.tokens_ (concrete e v).
Proof.
  intros Hlog [fuel Hrun]. rewrite <- concrete_view_new in Hrun.
  destruct (run_concrete_transfer e1 e2 fuel _ _ (view_new_ok _ Hlog) Hrun)
    as [fuel' Hrun'].
  rewrite concrete_view_new in Hrun'.
  split; [by exists fuel'|].
  split; [|by eauto using line_break_counts_once].
  intros toks' [fuel'' Hrun''].
  enough (toks' = toks) by congruence.
  clear -Hrun' Hrun''.
  revert fuel'' Hrun''. generalize dependent (Lexer.new (written e2 text)).
  induction fuel' as [|n IH]; intros l Hrun' fuel'' Hrun''; [done|].
  destruct fuel'' as [|n']; [done|]. rewrite run_S in Hrun', Hrun''.
  destruct (Lexer.step l); [by eapply IH|congruence].
Qed.

Lemma C7_line_endings_lex_alike_witness :
  lexes (written EndCR three_lines) three_lines_tokens
  ∧ (∀ toks', lexes (written EndCR three_lines) toks'
              → positions toks' = positions three_lines_tokens)
  ∧ ∀ (e : LineEnding) (v : View) (rest : list Item),
      view_ok v →
      v_after v = Break :: rest →
      v_state v = LexerState.start
      ∨ v_state v = LexerState.single_line_comment
      ∨ v_state v = LexerState.multi_line_comment →
      ∃ k l',
        (0 < k)%nat
        ∧ lexer_after k (concrete e v) = inl l'
        ∧ Lexer.source_ l' = Lexer.source_ (concrete e v)
        ∧ Lexer.index_ l'
          = (Lexer.index_ (concrete e v) + length (ending e))%nat
        ∧ Lexer.line_number_ l' = Lexer.line_number_ (concrete e v) + 1
        ∧ Lexer.column_number_ l' = 1
        ∧ Lexer.state_ l'
          = match v_state v with
            | LexerState.multi_line_comment => LexerState.multi_line_comment
            | _ => LexerState.start
            end
        ∧ Lexer.tokens_ l' = Lexer.tokens_ (concrete e v).
Proof.
  apply (C7_line_endings_lex_alike three_lines EndCRLF EndCR
           three_lines_tokens).
  - reflexivity.
  - exists 20%nat. vm_compute. reflexivity.
Defined.

(** ** The parser: nesting of [+] *)

Lemma parser_after_S n p :
  parser_after (S n) p
  = match Parser.step p with
    | inl p' => parser_after n p'
    | inr r => inr r
    end.
Proof. reflexivity. Qed.

Section StoreAt.
Context (g : list Entity) (f : nat) (Hf : (f < length g)%nat).

Lemma store_at_length E suffix :
  length (store_at g f E suffix) = (length g + length suffix)%nat.
Proof. unfold store_at. by rewrite length_app, length_insert. Qed.

Lemma store_at_lookup_f E suffix : store_at g f E suffix !! f = Some E.
Proof.
  unfold store_at. rewrite lookup_app_l by (by rewrite length_insert).
  by apply list_lookup_insert_eq.
Qed.

Lemma store_at_lookup_old E suffix q :
  q ≠ f → (q < length g)%nat → store_at g f E suffix !! q = g !! q.
Proof.
  intros Hne Hq. unfold store_at.
  rewrite lookup_app_l by (by rewrite length_insert).
  by apply list_lookup_insert_ne.
Qed.

Lemma store_at_lookup_new E suffix k :
  store_at g f E suffix !! (length g + k)%nat = suffix !! k.
Proof.
  unfold store_at. rewrite lookup_app_r by (rewrite length_insert; lia).
  f_equal. rewrite length_insert. lia.
Qed.

Lemma store_at_insert_f E E' suffix :
  <[f := E']> (store_at g f E suffix) = store_at g f E' suffix.
Proof.
  unfold store_at. rewrite insert_app_l by (by rewrite length_insert).
  by rewrite list_insert_insert_eq.
Qed.

Lemma store_at_insert_new E suffix k x :
  <[(length g + k)%nat := x]> (store_at g f E suffix)
  = store_at g f E (<[k := x]> suffix).
Proof.
  unfold store_at.
  rewrite <- (length_insert g f E) at 1. by rewrite insert_app_r.
Qed.

Lemma store_at_snoc E suffix x :
  store_at g f E suffix ++ [x] = store_at g f E (suffix ++ [x]).
Proof. unfold store_at. by rewrite app_assoc. Qed.

Lemma store_at_make_shared E suffix d :
  Graph.make_shared d (store_at g f E suffix)
  = ((length g + length suffix)%nat,
     store_at g f E (suffix ++ [mkEntity "" None d])).
Proof.
  unfold Graph.make_shared. rewrite store_at_length.
  unfold store_at. by rewrite app_assoc.
Qed.

Lemma store_at_set_data_new E suffix k F e d :
  suffix !! k = Some e → F (data e) = Some d →
  Graph.set_data (length g + k) F (store_at g f E suffix)
  = Some (store_at g f E
            (<[k := mkEntity (name_ e) (parent_ e) d]> suffix)).
Proof.
  intros He Hd. unfold Graph.set_data.
  rewrite store_at_lookup_new, He. simpl. rewrite Hd. simpl.
  by rewrite store_at_insert_new.
Qed.

Lemma store_at_set_parent_new E suffix k x e :
  suffix !! k = Some e →
  Graph.set_parent (length g + k) x (store_at g f E suffix)
  = Some (store_at g f E (<[k := mkEntity (name_ e) x (data e)]> suffix)).
Proof.
  intros He. unfold Graph.set_parent.
  rewrite store_at_lookup_new, He. simpl.
  by rewrite store_at_insert_new.
Qed.

Lemma store_at_set_data_f E suffix F d :
  F (data E) = Some d →
  Graph.set_data f F (store_at g f E suffix)
  = Some (store_at g f (mkEntity (name_ E) (parent_ E) d) suffix).
Proof.
  intros Hd. unfold Graph.set_data.
  rewrite store_at_lookup_f. simpl. rewrite Hd. simpl.
  by rewrite store_at_insert_f.
Qed.

(** A new statement joins the function. *)
Lemma store_at_add_statement nm par os ss rt rc suffix k e :
  suffix !! k = Some e →
  Graph.add Statements f (length g + k)
    (store_at g f (mkEntity nm par (Function os ss rt rc)) suffix)
  = Some (store_at g f
            (mkEntity nm par (Function os (ss ++ [(length g + k)%nat]) rt rc))
            (<[k := mkEntity (name_ e) (Some f) (data e)]> suffix)).
Proof.
  intros He. unfold Graph.add, Graph.entities.
  rewrite store_at_lookup_f. simpl.
  erewrite store_at_set_data_f by reflexivity. simpl.
  by erewrite store_at_set_parent_new.
Qed.

(** A new expression joins a new operator expression. *)
Lemma store_at_add_expression E suffix j k nm par es op e :
  suffix !! j = Some (mkEntity nm par (OperatorExpression es op)) →
  <[j := mkEntity nm par (OperatorExpression (es ++ [(length g + k)%nat]) op)]>
    suffix !! k = Some e →
  Graph.add Expressions (length g + j) (length g + k) (store_at g f E suffix)
  = Some (store_at g f E
            (<[k := mkEntity (name_ e) (Some (length g + j)%nat) (data e)]>
               (<[j := mkEntity nm par
                         (OperatorExpression (es ++ [(length g + k)%nat]) op)]>
                  suffix))).
Proof.
  intros Hj Hk. unfold Graph.add, Graph.entities.
  rewrite store_at_lookup_new, Hj. simpl.
  erewrite store_at_set_data_new by (done || reflexivity). simpl.
  by erewrite store_at_set_parent_new.
Qed.

(** Name lookup sees neither the new entities nor a change of [f] that
    keeps its name. *)
Lemma store_at_get_loop E suffix l n r e0 :
  g !! f = Some e0 → name_ E = name_ e0 →
  Graph.get_loop g l n = Some r →
  Graph.get_loop (store_at g f E suffix) l n = Some r.
Proof.
  intros He0 Hname. induction l as [|q l IH]; simpl; [done|]. intros H.
  apply bind_Some in H as (e & He & H).
  destruct (decide (q = f)) as [->|Hne].
  - rewrite store_at_lookup_f. simpl. rewrite Hname.
    rewrite He0 in He. simplify_eq.
    destruct (String.eqb (name_ e) n); [done|by apply IH].
  - rewrite store_at_lookup_old by eauto using lookup_lt_Some.
    rewrite He. simpl.
    destruct (String.eqb (name_ e) n); [done|by apply IH].
Qed.

Lemma store_at_get_object nm par os ss rt rc suffix n r e0 :
  g !! f = Some e0 → nm = name_ e0 →
  Graph.get_loop g os n = Some r →
  Graph.get Objects f n
    (store_at g f (mkEntity nm par (Function os ss rt rc)) suffix) = Some r.
Proof.
  intros He0 Hname Hget. unfold Graph.get, Graph.entities.
  rewrite store_at_lookup_f. simpl.
  by eapply store_at_get_loop.
Qed.
End StoreAt.

Lemma store_at_nil g f E : g !! f = Some E → store_at g f E [] = g.
Proof.
  intros H. unfold store_at. by rewrite app_nil_r, list_insert_id.
Qed.

Lemma get_objects_inv f n g r :
  Graph.get Objects f n g = Some r →
  ∃ nm par os ss rt rc,
    g !! f = Some (mkEntity nm par (Function os ss rt rc))
    ∧ Graph.get_loop g os n = Some r.
Proof.
  unfold Graph.get, Graph.entities. intros H.
  apply bind_Some in H as (l & Hl & H).
  apply bind_Some in Hl as ([nm par d] & He & Hl).
  destruct d; simpl in Hl; simplify_eq. eauto 10.
Qed.

(** The tokens ahead of the iterator, one by one. *)
Lemma tokens_ahead (toks : list Token) i pattern k ty lx :
  map (λ tok, (type tok, lexeme tok)) (take (length pattern) (drop i toks))
  = pattern →
  pattern !! k = Some (ty, lx) →
  ∃ tok, toks !! (i + k)%nat = Some tok ∧ type tok = ty ∧ lexeme tok = lx.
Proof.
  intros Hmap Hk. rewrite <- Hmap in Hk.
  rewrite list_lookup_fmap in Hk.
  destruct (take (length pattern) (drop i toks) !! k) as [tok|] eqn:Htok;
    simpl in Hk; [|done].
  apply lookup_take_Some in Htok as [Htok _].
  rewrite lookup_drop in Htok. simplify_eq. eauto.
Qed.

Lemma advance_token_next p tok :
  Parser.tokens_ p !! Parser.iterator_ p = Some tok →
  type tok ≠ TokenType.end_ →
  Parser.advance_token p
  = Some (Parser.set_iterator (S (Parser.iterator_ p)) p).
Proof.
  intros Htok Hty. unfold Parser.advance_token, Parser.current_token.
  rewrite Htok. simpl.
  destruct (TokenType.eqb (type tok) TokenType.end_) eqn:E; [|done].
  by apply TokenType_eqb_eq in E.
Qed.

#[local] Arguments store_at : simpl never.
#[local] Arguments Parser.advance_token : simpl never.
#[local] Arguments Graph.add : simpl never.
#[local] Arguments Graph.get : simpl never.
#[local] Arguments Graph.set_data : simpl never.
#[local] Arguments Graph.make_shared : simpl never.
#[local] Arguments parser_after : simpl never.

Ltac norm_parser :=
  cbv beta iota delta
    [Parser.set_iterator Parser.set_state Parser.set_store Parser.set_package
     Parser.set_function Parser.set_object Parser.set_cls
     Parser.set_return_statement Parser.set_object_expression
     Parser.set_operator_expression Parser.tokens_ Parser.iterator_
     Parser.state_ Parser.package_ Parser.function_ Parser.object_
     Parser.cls_ Parser.return_statement_ Parser.object_expression_
     Parser.operator_expression_ Parser.store Parser.next].

Ltac graph_ops :=
  repeat first
    [ rewrite store_at_length
    | rewrite store_at_snoc
    | erewrite store_at_get_object by first [eassumption | reflexivity]
    | erewrite store_at_add_statement by first [eassumption | reflexivity]
    | erewrite store_at_add_expression by first [eassumption | reflexivity]
    | unfold Graph.set_object, Graph.set_operator_type, Graph.set_expression;
      erewrite store_at_set_data_new by first [eassumption | reflexivity]
    | progress simpl ].

(** One loop iteration on a token that is not [end]. *)
Ltac parser_step Htok Hty Hlx :=
  rewrite parser_after_S;
  unfold Parser.step at 1, Parser.current_token;
  norm_parser; rewrite Htok; simpl; rewrite Hty; simpl; try rewrite Hlx;
  graph_ops;
  erewrite advance_token_next by (simpl; (eassumption || by rewrite Hty));
  norm_parser.

(** C5.  Let the parser expect a statement inside a function whose object
    list resolves the names [a], [b] and [c], and let the next seven tokens
    be those of [return a+b+c;].  After seven loop iterations the parser
    expects a statement again, the function has one more statement, and that
    statement is a return whose expression is an operator expression [plus]
    of exactly two operands: first an operator expression [plus] over the
    object expressions of [a] and [b], then the object expression of [c]. *)
Theorem C5_plus_nests_to_the_left (p : Parser.t) (f a b c : nat)
    (statements : list nat) :
  Parser.state_ p = ParserState.statement →
  Parser.function_ p = Some f →
  Parser.operator_expression_ p = None →
  Graph.entities Statements f (Parser.store p) = Some statements →
  Graph.get Objects f "a" (Parser.store p) = Some (Some a) →
  Graph.get Objects f "b" (Parser.store p) = Some (Some b) →
  Graph.get Objects f "c" (Parser.store p) = Some (Some c) →
  map (λ tok, (type tok, lexeme tok))
    (take 7 (drop (Parser.iterator_ p) (Parser.tokens_ p))) = return_a_b_c →
  ∃ p' statement,
    parser_after 7 p = inl p'
    ∧ Parser.state_ p' = ParserState.statement
    ∧ Parser.iterator_ p' = (Parser.iterator_ p + 7)%nat
    ∧ Graph.entities Statements f (Parser.store p')
      = Some (statements ++ [statement])
    ∧ statement_tree 3 (Parser.store p') statement
      = Some (Some (OperatorExpressionOf OperatorType.plus
                      [ OperatorExpressionOf OperatorType.plus
                          [ObjectExpressionOf a; ObjectExpressionOf b];
                        ObjectExpressionOf c ])).
Proof.
  intros Hst Hfun Hop Hss Ha Hb Hc Htoks.
  apply get_objects_inv in Ha as (nm & par & os & ss & rt & rc & Hf & Ha).
  apply get_objects_inv in Hb as (? & ? & ? & ? & ? & ? & Hf' & Hb).
  apply get_objects_inv in Hc as (? & ? & ? & ? & ? & ? & Hf'' & Hc).
  rewrite Hf in Hf', Hf''. simplify_eq.
  unfold Graph.entities in Hss. rewrite Hf in Hss. simpl in Hss. simplify_eq.
  pose proof (lookup_lt_Some _ _ _ Hf) as Hlt.
  destruct (tokens_ahead _ _ return_a_b_c 0 _ _ Htoks eq_refl)
    as (t0 & Ht0 & Hty0 & _).
  destruct (tokens_ahead _ _ return_a_b_c 1 _ _ Htoks eq_refl)
    as (t1 & Ht1 & Hty1 & Hlx1).
  destruct (tokens_ahead _ _ return_a_b_c 2 _ _ Htoks eq_refl)
    as (t2 & Ht2 & Hty2 & _).
  destruct (tokens_ahead _ _ return_a_b_c 3 _ _ Htoks eq_refl)
    as (t3 & Ht3 & Hty3 & Hlx3).
  destruct (tokens_ahead _ _ return_a_b_c 4 _ _ Htoks eq_refl)
    as (t4 & Ht4 & Hty4 & _).
  destruct (tokens_ahead _ _ return_a_b_c 5 _ _ Htoks eq_refl)
    as (t5 & Ht5 & Hty5 & Hlx5).
  destruct (tokens_ahead _ _ return_a_b_c 6 _ _ Htoks eq_refl)
    as (t6 & Ht6 & Hty6 & _).
  clear Htoks.
  destruct p as [toks i st pkg fn ob cl rs oe ope g]. simpl in *. subst.
  rewrite <- (store_at_nil g f _ Hf).
  replace (i + 0)%nat with i in Ht0 by lia.
  replace (i + 1)%nat with (S i) in Ht1 by lia.
  replace (i + 2)%nat with (S (S i)) in Ht2 by lia.
  replace (i + 3)%nat with (S (S (S i))) in Ht3 by lia.
  replace (i + 4)%nat with (S (S (S (S i)))) in Ht4 by lia.
  replace (i + 5)%nat with (S (S (S (S (S i))))) in Ht5 by lia.
  replace (i + 6)%nat with (S (S (S (S (S (S i)))))) in Ht6 by lia.
  do 2 eexists. split.
  - parser_step Ht0 Hty0 Hty0.
    parser_step Ht1 Hty1 Hlx1.
    parser_step Ht2 Hty2 Hty2.
    parser_step Ht3 Hty3 Hlx3.
    parser_step Ht4 Hty4 Hty4.
    parser_step Ht5 Hty5 Hlx5.
    parser_step Ht6 Hty6 Hty6.
    reflexivity.
  - norm_parser. split; [done|]. split; [lia|]. split.
    + unfold Graph.entities. by rewrite store_at_lookup_f.
    + unfold statement_tree.
      repeat (rewrite ?store_at_lookup_new by done; simpl).
      reflexivity.
Qed.

Lemma C5_plus_nests_to_the_left_witness :
  ∃ p' statement,
    parser_after 7 at_return_a_b_c = inl p'
    ∧ Parser.state_ p' = ParserState.statement
    ∧ Parser.iterator_ p' = (Parser.iterator_ at_return_a_b_c + 7)%nat
    ∧ Graph.entities Statements 2%nat (Parser.store p')
      = Some ([] ++ [statement])
    ∧ statement_tree 3 (Parser.store p') statement
      = Some (Some (OperatorExpressionOf OperatorType.plus
                      [ OperatorExpressionOf OperatorType.plus
                          [ObjectExpressionOf 4%nat; ObjectExpressionOf 5%nat];
                        ObjectExpressionOf 3%nat ])).
Proof.
  apply (C5_plus_nests_to_the_left at_return_a_b_c 2 4 5 3 []);
    vm_compute; reflexivity.
Defined.

(** The same on a whole program: the translator prints the nesting. *)
Example a_b_c_translates :
  match parse_text 200 "func f(int c, int a, int b) -> int { return a+b+c; }" with
  | Some (Parser.Returned (Some package) g) =>
      Translator.translate 10 g package
  | _ => None
  end
  = Some ("int f(int c, int a, int b) {" +:+ newline
          +:+ "  return ((a+b)+c);" +:+ newline +:+ "}" +:+ newline).
Proof. vm_compute. reflexivity. Qed.

(** * Further properties *)

(** ** The lexer: bounds and progress *)

Lemma size_minus_one_last source c :
  last source = Some c →
  Lexer.size_minus_one source = Z.of_nat (length source) - 1.
Proof. by destruct source. Qed.

Lemma advance_char_cases l :
  last (Lexer.source_ l) = Some NUL →
  (Lexer.index_ l < length (Lexer.source_ l))%nat →
  (Lexer.advance_char l = l ∧ S (Lexer.index_ l) = length (Lexer.source_ l)
   ∧ Lexer.current_char l = NUL)
  ∨ (Lexer.advance_char l
     = Lexer.mk (Lexer.source_ l) (Lexer.state_ l) (S (Lexer.index_ l))
         (Lexer.start_index_ l) (Lexer.line_number_ l)
         (Lexer.start_line_number_ l) (Lexer.column_number_ l + 1)
         (Lexer.start_column_number_ l) (Lexer.columns_per_tab_ l)
         (Lexer.tokens_ l)
     ∧ (S (Lexer.index_ l) < length (Lexer.source_ l))%nat).
Proof.
  intros Hlast Hlt. unfold Lexer.advance_char.
  rewrite (size_minus_one_last _ _ Hlast).
  destruct (Z.eqb_spec (Z.of_nat (Lexer.index_ l))
              (Z.of_nat (length (Lexer.source_ l)) - 1)) as [Heq|Hne].
  - left. split; [done|]. split; [lia|].
    unfold Lexer.current_char. rewrite last_lookup in Hlast.
    replace (Lexer.index_ l) with (pred (length (Lexer.source_ l))) by lia.
    by rewrite Hlast.
  - right. split; [done|lia].
Qed.

Ltac progress_leaf Hstate :=
  first
    [ left; eexists; reflexivity
    | right; eexists; split; [reflexivity|];
      split; [repeat split; simpl; (done || lia)|];
      split; [reflexivity|];
      right; unfold lexer_measure; simpl; rewrite ?Hstate; simpl; lia ].

Ltac stuck_leaf Hstate Hnul :=
  right; eexists; split; [reflexivity|];
  split; [repeat split; simpl; (done || lia)|];
  split; [reflexivity|];
  left; unfold lexer_stuck, Lexer.step; cbv zeta;
  repeat match goal with
    | |- context [Lexer.state_ (Lexer.start_lexeme ?x)] =>
        change (Lexer.state_ (Lexer.start_lexeme x)) with (Lexer.state_ x)
    | |- context [Lexer.current_char (Lexer.start_lexeme ?x)] =>
        change (Lexer.current_char (Lexer.start_lexeme x))
          with (Lexer.current_char x)
    end;
  rewrite Hstate;
  repeat match goal with
    | H : _ = false |- _ => rewrite H
    end;
  try (rewrite Hnul; known_chars; cbn);
  first [congruence | reflexivity].

(** An iteration returns, or leads to a lexer that no iteration changes, or
    brings the lexer closer to the end of the buffer. *)
Lemma lexer_step_progress l :
  in_buffer l →
  (∃ r, Lexer.step l = inr r)
  ∨ ∃ l', Lexer.step l = inl l'
          ∧ in_buffer l'
          ∧ Lexer.source_ l' = Lexer.source_ l
          ∧ (lexer_stuck l' ∨ (lexer_measure l' < lexer_measure l)%nat).
Proof.
  intros (Hlast & Hlt & Hst).
  pose proof (advance_char_cases l Hlast Hlt) as Hadv.
  pose proof (advance_char_cases (Lexer.start_lexeme l) Hlast Hlt) as Hadv'.
  change (Lexer.current_char (Lexer.start_lexeme l))
    with (Lexer.current_char l) in Hadv'.
  unfold Lexer.step. cbv zeta.
  change (Lexer.current_char (Lexer.start_lexeme l))
    with (Lexer.current_char l).
  destruct (Lexer.state_ l) eqn:Hstate.
  all: destruct Hadv as [(Ha & Hend & Hnul)|(Ha & Hlt')];
    destruct Hadv' as [(Ha' & Hend' & Hnul')|(Ha' & Hlt'')];
    try (simpl in *; lia);
    rewrite ?Ha, ?Ha'; try rewrite Hnul; known_chars; cbn -[Nat.mul];
    repeat case_match;
    try match goal with
      | H : Lexer.advance_tab _ = Some _ |- _ =>
          apply advance_tab_Some in H as (? & _ & ->); simpl
      end;
    try progress_leaf Hstate.
  all: stuck_leaf Hstate Hnul.
Qed.

Lemma in_buffer_new source :
  last source = Some NUL → in_buffer (Lexer.new source).
Proof.
  intros Hlast. repeat split; simpl; [done| |lia].
  destruct source; [done|simpl; lia].
Qed.

Lemma in_buffer_after n l l' :
  in_buffer l → lexer_after n l = inl l' →
  in_buffer l' ∧ Lexer.source_ l' = Lexer.source_ l.
Proof.
  revert l. induction n as [|n IH]; intros l Hin Hafter.
  - simpl in Hafter. by simplify_eq.
  - rewrite lexer_after_S in Hafter.
    destruct (lexer_step_progress l Hin)
      as [[r Hstep]|(l1 & Hstep & Hin1 & Hsrc & _)];
      rewrite Hstep in Hafter; [done|].
    destruct (IH l1 Hin1 Hafter) as [? ?]. split; [done|congruence].
Qed.

(** X1.  On a buffer that ends with the null character, after any number of
    iterations the lexer holds the buffer it was given, its index designates
    a character of the buffer (so [current_char] reads that character, never
    past the end), and the start of the current lexeme is not after the
    index (so [get_lexeme] never computes a wrapped size). *)
Theorem lexer_stays_in_buffer (source : list ascii) (n : nat) (l : Lexer.t) :
  last source = Some NUL →
  lexer_after n (Lexer.new source) = inl l →
  Lexer.source_ l = source
  ∧ (Lexer.index_ l < length source)%nat
  ∧ (Lexer.start_index_ l <= Lexer.index_ l)%nat
  ∧ source !! Lexer.index_ l = Some (Lexer.current_char l).
Proof.
  intros Hlast Hafter.
  destruct (in_buffer_after n _ _ (in_buffer_new _ Hlast) Hafter)
    as [(_ & Hlt & Hst) Hsrc].
  simpl in Hsrc. rewrite Hsrc in Hlt. repeat split; try done.
  unfold Lexer.current_char. rewrite Hsrc.
  by destruct (lookup_lt_is_Some_2 source _ Hlt) as [c ->].
Qed.

Lemma lexer_stays_in_buffer_witness :
  ∃ l, lexer_after 9 (Lexer.new (null_terminated "a /* b")) = inl l
       ∧ Lexer.source_ l = null_terminated "a /* b"
       ∧ (Lexer.index_ l < length (null_terminated "a /* b"))%nat
       ∧ (Lexer.start_index_ l <= Lexer.index_ l)%nat
       ∧ null_terminated "a /* b" !! Lexer.index_ l
         = Some (Lexer.current_char l).
Proof.
  eexists. split; [vm_compute; reflexivity|].
  apply (lexer_stays_in_buffer (null_terminated "a /* b") 9);
    vm_compute; reflexivity.
Defined.

Lemma stuck_never_returns l fuel : lexer_stuck l → Lexer.run fuel l = None.
Proof.
  intros Hstuck. induction fuel as [|fuel IH]; [done|].
  rewrite run_S. unfold lexer_stuck in Hstuck. by rewrite Hstuck.
Qed.

Lemma run_more_fuel fuel k l r :
  Lexer.run fuel l = Some r → Lexer.run (fuel + k) l = Some r.
Proof.
  revert l. induction fuel as [|fuel IH]; intros l H; [done|].
  simpl plus. rewrite run_S in *.
  destruct (Lexer.step l); [by apply IH|done].
Qed.

Lemma lexer_decides m l :
  in_buffer l → (lexer_measure l <= m)%nat →
  (∃ r, Lexer.run (S m) l = Some r)
  ∨ (∃ k l', lexer_after k l = inl l' ∧ lexer_stuck l').
Proof.
  revert l. induction m as [|m IH]; intros l Hin Hm;
    destruct (lexer_step_progress l Hin)
      as [[r Hstep]|(l1 & Hstep & Hin1 & Hsrc & [Hstuck|Hless])].
  all: try (left; exists r; by rewrite run_S, Hstep).
  all: try (right; exists 1%nat, l1; by rewrite lexer_after_S, Hstep).
  - lia.
  - destruct (IH l1 Hin1 ltac:(lia)) as [[r Hrun]|(k & l' & Hk & Hstuck)].
    + left. exists r. by rewrite run_S, Hstep.
    + right. exists (S k), l'. by rewrite lexer_after_S, Hstep.
Qed.

(** ** The lexer: identifiers, keywords and comments *)
























(** ** The program graph: lookup after insertion *)

Lemma get_loop_app g l1 l2 n :
  Graph.get_loop g (l1 ++ l2) n
  = match Graph.get_loop g l1 n with
    | Some None => Graph.get_loop g l2 n
    | r => r
    end.
Proof.
  induction l1 as [|p l1 IH]; simpl; [done|].
  destruct (g !! p) as [e|]; simpl; [|done].
  by destruct (String.eqb (name_ e) n).
Qed.

Lemma get_loop_same_names g g' l n :
  (∀ p, Graph.name g' p = Graph.name g p) →
  Graph.get_loop g' l n = Graph.get_loop g l n.
Proof.
  intros Hnames. induction l as [|p l IH]; simpl; [done|].
  specialize (Hnames p). unfold Graph.name in Hnames.
  destruct (g' !! p) as [e'|], (g !! p) as [e|]; simpl in *; try done.
  injection Hnames as Hn. by rewrite Hn, IH.
Qed.

Lemma set_data_name p F g g' :
  Graph.set_data p F g = Some g' → ∀ q, Graph.name g' q = Graph.name g q.
Proof.
  unfold Graph.set_data, Graph.name. intros H q.
  apply bind_Some in H as (e & He & H).
  apply bind_Some in H as (d & Hd & H). simplify_eq.
  destruct (decide (p = q)) as [<-|Hne].
  - rewrite list_lookup_insert_eq by eauto using lookup_lt_Some.
    by rewrite He.
  - by rewrite list_lookup_insert_ne.
Qed.

Lemma set_parent_name p x g g' :
  Graph.set_parent p x g = Some g' → ∀ q, Graph.name g' q = Graph.name g q.
Proof.
  unfold Graph.set_parent, Graph.name. intros H q.
  apply bind_Some in H as (e & He & H). simplify_eq.
  destruct (decide (p = q)) as [<-|Hne].
  - rewrite list_lookup_insert_eq by eauto using lookup_lt_Some.
    by rewrite He.
  - by rewrite list_lookup_insert_ne.
Qed.

Lemma set_parent_data p x g g' :
  Graph.set_parent p x g = Some g' →
  ∀ q, data <$> g' !! q = data <$> g !! q.
Proof.
  unfold Graph.set_parent. intros H q.
  apply bind_Some in H as (e & He & H). simplify_eq.
  destruct (decide (p = q)) as [<-|Hne].
  - rewrite list_lookup_insert_eq by eauto using lookup_lt_Some.
    by rewrite He.
  - by rewrite list_lookup_insert_ne.
Qed.

Lemma add_inv k c e g g' :
  Graph.add k c e g = Some g' →
  ∃ l g1, Graph.entities k c g = Some l
          ∧ Graph.set_data c (Graph.with_entities k (l ++ [e])) g = Some g1
          ∧ Graph.set_parent e (Some c) g1 = Some g'.
Proof.
  unfold Graph.add. intros H.
  apply bind_Some in H as (l & Hl & H).
  apply bind_Some in H as (g1 & Hg1 & H). eauto.
Qed.

Lemma add_name k c e g g' :
  Graph.add k c e g = Some g' → ∀ q, Graph.name g' q = Graph.name g q.
Proof.
  intros H q. apply add_inv in H as (l & g1 & _ & H1 & H2).
  by rewrite (set_parent_name _ _ _ _ H2), (set_data_name _ _ _ _ H1).
Qed.

Lemma add_entities k c e g g' l :
  Graph.entities k c g = Some l → Graph.add k c e g = Some g' →
  Graph.entities k c g' = Some (l ++ [e]).
Proof.
  intros Hl H. apply add_inv in H as (l' & g1 & Hl' & H1 & H2).
  rewrite Hl in Hl'. simplify_eq.
  unfold Graph.entities.
  pose proof (set_parent_data _ _ _ _ H2 c) as Hdata.
  unfold Graph.set_data in H1.
  apply bind_Some in H1 as (ce & Hce & H1).
  apply bind_Some in H1 as (d & Hd & H1). simplify_eq.
  rewrite list_lookup_insert_eq in Hdata by eauto using lookup_lt_Some.
  destruct (g' !! c) as [ce'|]; simpl in *; simplify_eq.
  eauto using with_entities_entities.
Qed.

(** X6.  Lookup after insertion.  After [add] puts an entity at the end of a
    container, [get] resolves every name as before when it resolved to an
    entity (an earlier entity of the same name keeps shadowing the new one),
    and resolves the name of the new entity to it when the name resolved to
    nothing before; other names still resolve to nothing. *)
Theorem get_after_add (k : Container) (c e : nat) (g g' : list Entity)
    (l : list nat) (n : string) :
  Graph.entities k c g = Some l →
  Forall (λ p, is_Some (g !! p)) l →
  Graph.add k c e g = Some g' →
  Graph.get k c n g'
  = match Graph.get k c n g with
    | Some (Some first) => Some (Some first)
    | _ => if decide (Graph.name g e = Some n) then Some (Some e)
           else Some None
    end.
Proof.
  intros Hl Hlive Hadd.
  pose proof (add_name _ _ _ _ _ Hadd) as Hnames.
  pose proof (add_entities _ _ _ _ _ _ Hl Hadd) as Hl'.
  unfold Graph.get. rewrite Hl, Hl'. simpl.
  rewrite get_loop_app, (get_loop_same_names g g' l n Hnames).
  destruct (get_loop_first_match g l n Hlive)
    as [(front & x & rest & _ & _ & _ & ->)|[_ ->]]; [done|].
  simpl.
  assert (is_Some (g' !! e)) as [ent' Hent'].
  { apply add_inv in Hadd as (? & g1 & _ & _ & H2).
    unfold Graph.set_parent in H2.
    apply bind_Some in H2 as (ee & Hee & H2). simplify_eq.
    rewrite list_lookup_insert_eq by eauto using lookup_lt_Some. eauto. }
  specialize (Hnames e). unfold Graph.name in Hnames.
  rewrite Hent' in Hnames. simpl in Hnames.
  rewrite Hent'. simpl. unfold Graph.name.
  destruct (g !! e) as [ent|]; simpl in *; simplify_eq.
  rewrite Hnames.
  destruct (String.eqb_spec (name_ ent) n) as [->|Hne].
  - by rewrite decide_True.
  - rewrite decide_False; [done|congruence].
Qed.

Lemma get_after_add_witness :
  Graph.get Classes 0%nat "bool"
    (default [] (Graph.add Classes 0%nat 2%nat int_and_bool))
  = match Graph.get Classes 0%nat "bool" int_and_bool with
    | Some (Some first) => Some (Some first)
    | _ => if decide (Graph.name int_and_bool 2%nat = Some "bool")
           then Some (Some 2%nat) else Some None
    end.
Proof.
  apply (get_after_add Classes 0%nat 2%nat int_and_bool _ [1%nat] "bool").
  - reflexivity.
  - repeat constructor. eexists. reflexivity.
  - reflexivity.
Defined.

Lemma with_entities_other k k' l d d' :
  Graph.with_entities k l d = Some d' → k' ≠ k →
  Graph.entities_ k' d' = Graph.entities_ k' d.
Proof. destruct k, k', d; simpl; intros; simplify_eq; done. Qed.

Lemma set_data_other p F g g' :
  Graph.set_data p F g = Some g' → ∀ q, q ≠ p → g' !! q = g !! q.
Proof.
  unfold Graph.set_data. intros H q Hne.
  apply bind_Some in H as (e & He & H).
  apply bind_Some in H as (d & Hd & H). simplify_eq.
  by rewrite list_lookup_insert_ne.
Qed.

Lemma set_data_parent p F g g' :
  Graph.set_data p F g = Some g' → ∀ q, Graph.parent g' q = Graph.parent g q.
Proof.
  unfold Graph.set_data, Graph.parent. intros H q.
  apply bind_Some in H as (e & He & H).
  apply bind_Some in H as (d & Hd & H). simplify_eq.
  destruct (decide (p = q)) as [<-|Hne].
  - rewrite list_lookup_insert_eq by eauto using lookup_lt_Some.
    by rewrite He.
  - by rewrite list_lookup_insert_ne.
Qed.

(** X7.  What [add] leaves alone: no name changes, no parent changes but
    that of the added entity, and no contained list changes but the one added
    to (the other list of the same entity included); no entity is created or
    destroyed. *)
Theorem add_frame (k : Container) (c e : nat) (g g' : list Entity) :
  Graph.add k c e g = Some g' →
  (∀ q, Graph.name g' q = Graph.name g q)
  ∧ (∀ q, q ≠ e → Graph.parent g' q = Graph.parent g q)
  ∧ (∀ k' c', (k', c') ≠ (k, c) →
       Graph.entities k' c' g' = Graph.entities k' c' g)
  ∧ length g' = length g.
Proof.
  intros Hadd. split; [by eapply add_name|].
  apply add_inv in Hadd as (l & g1 & Hl & H1 & H2).
  split; [|split].
  - intros q Hne. rewrite <- (set_data_parent _ _ _ _ H1 q).
    unfold Graph.set_parent in H2. unfold Graph.parent.
    apply bind_Some in H2 as (ee & Hee & H2). simplify_eq.
    by rewrite list_lookup_insert_ne.
  - intros k' c' Hne. unfold Graph.entities.
    pose proof (set_parent_data _ _ _ _ H2 c') as Hdata.
    destruct (decide (c' = c)) as [->|Hc].
    + assert (k' ≠ k) as Hk by congruence.
      unfold Graph.set_data in H1.
      apply bind_Some in H1 as (ce & Hce & H1).
      apply bind_Some in H1 as (d & Hd & H1). simplify_eq.
      rewrite list_lookup_insert_eq in Hdata by eauto using lookup_lt_Some.
      rewrite Hce. destruct (g' !! c) as [ce'|]; simpl in *; simplify_eq.
      eauto using with_entities_other.
    + rewrite (set_data_other _ _ _ _ H1 c' Hc) in Hdata.
      destruct (g' !! c') as [x|], (g !! c') as [y|]; simpl in *; try done.
      injection Hdata as Hdata. by rewrite Hdata.
  - unfold Graph.set_parent in H2. unfold Graph.set_data in H1.
    apply bind_Some in H2 as (ee & Hee & H2).
    apply bind_Some in H1 as (ce & Hce & H1).
    apply bind_Some in H1 as (d & Hd & H1). simplify_eq.
    by rewrite !length_insert.
Qed.

Lemma add_frame_witness :
  (∀ q, Graph.name (default [] two_objects) q
        = Graph.name (default [] (Graph.add Objects 0%nat 1%nat
            [ mkEntity "f" None (Function [] [] ReturnType.none None);
              mkEntity "x" None (Object None);
              mkEntity "y" None (Object None) ])) q)
  ∧ (∀ q, q ≠ 2%nat →
       Graph.parent (default [] two_objects) q
       = Graph.parent (default [] (Graph.add Objects 0%nat 1%nat
            [ mkEntity "f" None (Function [] [] ReturnType.none None);
              mkEntity "x" None (Object None);
              mkEntity "y" None (Object None) ])) q)
  ∧ (∀ k' c', (k', c') ≠ (Objects, 0%nat) →
       Graph.entities k' c' (default [] two_objects)
       = Graph.entities k' c' (default [] (Graph.add Objects 0%nat 1%nat
            [ mkEntity "f" None (Function [] [] ReturnType.none None);
              mkEntity "x" None (Object None);
              mkEntity "y" None (Object None) ])))
  ∧ length (default [] two_objects)
    = length (default [] (Graph.add Objects 0%nat 1%nat
            [ mkEntity "f" None (Function [] [] ReturnType.none None);
              mkEntity "x" None (Object None);
              mkEntity "y" None (Object None) ])).
Proof.
  apply (add_frame Objects 0%nat 2%nat). reflexivity.
Defined.

(** ** The parser: termination *)

(** Every loop iteration that does not end [run] brings the parser closer to
    the end of the token list. *)
Lemma step_decreases p p' :
  ends_with_end (Parser.tokens_ p) →
  Parser.step p = inl p' →
  Parser.tokens_ p' = Parser.tokens_ p
  ∧ (Parser.iterator_ p' < length (Parser.tokens_ p))%nat
  ∧ (parser_measure p' < parser_measure p)%nat.
Proof.
  intros Hend H. unfold Parser.step, Parser.next, Parser.fail in H.
  destruct (Parser.current_token p) as [tok|] eqn:Htok; [|done].
  pose proof (lookup_lt_Some _ _ _ Htok) as Hlt.
  repeat case_match; simplify_eq;
    try (unfold parser_measure; simpl;
         repeat match goal with
           | H : Parser.state_ _ = _ |- _ => rewrite H
           end; split; [done|split; [done|lia]]);
    repeat match goal with
    | H : _ ≫= _ = Some _ |- _ =>
        apply bind_Some in H as (? & ? & H)
    | H : (let '(_, _) := Graph.make_shared _ _ in _) = Some _ |- _ =>
        unfold Graph.make_shared in H
    | H : match ?x with Some _ => _ | None => _ end = Some _ |- _ =>
        destruct x eqn:?; [|done]
    | H : Some _ = Some _ |- _ => simplify_eq
    end;
    match goal with
    | H : Parser.advance_token _ = Some _ |- _ =>
        apply advance_token_spec in H as [[-> (tok' & Htok' & Hend')]
                                         |[-> (tok' & Htok' & Hne)]];
        unfold Parser.current_token in Htok'; simpl in Htok';
        unfold Parser.current_token in Htok; rewrite Htok in Htok';
        simplify_eq; [congruence|];
        pose proof (not_end_not_last _ _ _ Hend Htok Hne);
        unfold parser_measure; simpl;
        repeat match goal with
          | H : Parser.state_ _ = _ |- _ => rewrite H
          end; split; [done|split; [done|lia]]
    end.
Qed.

Lemma loop_terminates m p :
  ends_with_end (Parser.tokens_ p) → (parser_measure p <= m)%nat →
  ∃ r, Parser.loop (S m) p = Some r.
Proof.
  revert p. induction m as [|m IH]; intros p Hend Hm;
    rewrite parser_loop_S;
    destruct (Parser.step p) as [p'|r] eqn:Hstep; eauto;
    destruct (step_decreases _ _ Hend Hstep) as (Htoks & _ & Hless).
  - lia.
  - apply IH; [by rewrite Htoks|lia].
Qed.

(** X9.  On every token list whose last token is of type [end], well-formed
    program or not, the loop of [Parser::run] ends within twice as many
    iterations as there are tokens, plus one. *)
Theorem parser_terminates (tokens : list Token) :
  ends_with_end tokens →
  ∃ r, Parser.run (2 * length tokens + 1) (Parser.new tokens) = Some r.
Proof.
  intros Hend. unfold Parser.run. rewrite prologue_new.
  replace (2 * length tokens + 1)%nat with (S (2 * length tokens)) by lia.
  apply loop_terminates; [done|].
  unfold parser_measure. simpl. lia.
Qed.

Lemma parser_terminates_witness :
  ∃ r, Parser.run (2 * length truncated_tokens + 1)
         (Parser.new truncated_tokens) = Some r.
Proof.
  apply (parser_terminates truncated_tokens).
  eexists. split; reflexivity.
Defined.

(** ** The parser: well-formed graphs and live handles *)

Lemma dat_live g q d : dat g q = Some d → (q < length g)%nat.
Proof.
  unfold dat. intros H. destruct (g !! q) eqn:E; [|done].
  eauto using lookup_lt_Some.
Qed.

Lemma dat_fresh g : dat g (length g) = None.
Proof. unfold dat. by rewrite lookup_ge_None_2. Qed.

Lemma dat_snoc g e q :
  dat (g ++ [e]) q = if decide (q = length g) then Some (data e) else dat g q.
Proof.
  unfold dat. case_decide as Hq.
  - subst. by rewrite list_lookup_middle.
  - destruct (decide (q < length g)%nat).
    + by rewrite lookup_app_l.
    + rewrite !lookup_ge_None_2; [done|lia|rewrite length_app; simpl; lia].
Qed.

Lemma dat_name g q d : dat g q = Some d → is_Some (Graph.name g q).
Proof.
  unfold dat, Graph.name. destruct (g !! q); simpl; [eauto|done].
Qed.

Lemma set_name_dat p n g :
  is_Some (dat g p) →
  ∃ g', Graph.set_name p n g = Some g' ∧ ∀ q, dat g' q = dat g q.
Proof.
  unfold dat, Graph.set_name. intros [d Hd].
  destruct (g !! p) as [e|] eqn:He; [|done]. simpl.
  eexists. split; [done|]. intros q.
  destruct (decide (q = p)) as [->|Hne].
  - rewrite list_lookup_insert_eq by eauto using lookup_lt_Some.
    by rewrite He.
  - by rewrite list_lookup_insert_ne.
Qed.

Lemma set_parent_dat p x g :
  is_Some (dat g p) →
  ∃ g', Graph.set_parent p x g = Some g' ∧ ∀ q, dat g' q = dat g q.
Proof.
  unfold dat, Graph.set_parent. intros [d Hd].
  destruct (g !! p) as [e|] eqn:He; [|done]. simpl.
  eexists. split; [done|]. intros q.
  destruct (decide (q = p)) as [->|Hne].
  - rewrite list_lookup_insert_eq by eauto using lookup_lt_Some.
    by rewrite He.
  - by rewrite list_lookup_insert_ne.
Qed.

Lemma set_data_dat p F g d d' :
  dat g p = Some d → F d = Some d' →
  ∃ g', Graph.set_data p F g = Some g'
        ∧ ∀ q, dat g' q = if decide (q = p) then Some d' else dat g q.
Proof.
  unfold dat, Graph.set_data. intros Hd HF.
  destruct (g !! p) as [e|] eqn:He; [|done]. simpl in *. simplify_eq.
  rewrite HF. simpl. eexists. split; [done|]. intros q.
  case_decide as Hq.
  - subst. by rewrite list_lookup_insert_eq by eauto using lookup_lt_Some.
  - by rewrite list_lookup_insert_ne.
Qed.

Lemma add_dat k c e g d l d' :
  dat g c = Some d → Graph.entities_ k d = Some l →
  Graph.with_entities k (l ++ [e]) d = Some d' →
  is_Some (dat g e) →
  ∃ g', Graph.add k c e g = Some g'
        ∧ ∀ q, dat g' q = if decide (q = c) then Some d' else dat g q.
Proof.
  intros Hd Hl Hd' He. unfold Graph.add, Graph.entities.
  assert (g !! c ≫= (λ e0, Graph.entities_ k (data e0)) = Some l) as ->.
  { unfold dat in Hd. destruct (g !! c); simpl in *; by simplify_eq. }
  simpl.
  destruct (set_data_dat c (Graph.with_entities k (l ++ [e])) g d d' Hd Hd')
    as (g1 & -> & Hdat1). simpl.
  destruct (set_parent_dat e (Some c) g1) as (g2 & -> & Hdat2).
  { rewrite Hdat1. case_decide; [eauto|done]. }
  exists g2. split; [done|]. intros q. by rewrite Hdat2, Hdat1.
Qed.

Lemma get_loop_defined g l n :
  Forall (λ q, is_Some (dat g q)) l →
  ∃ r, Graph.get_loop g l n = Some r ∧ ∀ x, r = Some x → x ∈ l.
Proof.
  induction 1 as [|q l [d Hd] Hl (r & Hr & Hin)]; simpl.
  - exists None. by split.
  - unfold dat in Hd. destruct (g !! q) as [e|]; simpl in *; [|done].
    destruct (String.eqb (name_ e) n).
    + exists (Some q). split; [done|]. intros x ?; simplify_eq. left.
    + exists r. split; [done|]. intros x Hx. right. eauto.
Qed.

Lemma get_defined k c n g d l :
  dat g c = Some d → Graph.entities_ k d = Some l →
  Forall (λ q, is_Some (dat g q)) l →
  ∃ r, Graph.get k c n g = Some r ∧ ∀ x, r = Some x → x ∈ l.
Proof.
  intros Hd Hl Hlive. unfold Graph.get, Graph.entities.
  assert (g !! c ≫= (λ e0, Graph.entities_ k (data e0)) = Some l) as ->.
  { unfold dat in Hd. destruct (g !! c); simpl in *; by simplify_eq. }
  simpl. by apply get_loop_defined.
Qed.

(** Expressions may be given more depth. *)
Lemma expression_ok_deeper d d' g pending e :
  (d <= d')%nat → expression_ok d g pending e → expression_ok d' g pending e.
Proof.
  revert d' e. induction d as [|d IH]; intros d' e Hle H; [done|].
  destruct d' as [|d']; [lia|]. simpl in *.
  destruct (dat g e) as [[]|]; try done.
  destruct H as [Hne Hall]. split; [done|].
  eapply Forall_impl; [exact Hall|]. intros x Hx. apply IH; [lia|done].
Qed.

Lemma object_ok_frame pending pending' g g' o :
  frame pending pending' g g' → object_ok g o → object_ok g' o.
Proof.
  intros Hframe (c & Ho & Hc). exists c.
  split; [exact (Hframe _ _ Ho)|exact (Hframe _ _ Hc)].
Qed.

Lemma expression_ok_frame d pending pending' g g' e :
  frame pending pending' g g' →
  expression_ok d g pending e → expression_ok d g' pending' e.
Proof.
  intros Hframe. revert e. induction d as [|d IH]; intros e H; [done|].
  simpl in *. destruct (dat g e) as [de|] eqn:He; [|done].
  pose proof (Hframe _ _ He) as Hfe.
  destruct de; try done.
  - destruct H as [Hne Hall]. destruct (Hfe Hne) as [-> Hne'].
    split; [done|]. eapply Forall_impl; [exact Hall|]. eauto.
  - rewrite Hfe. destruct object_; [|done].
    eauto using object_ok_frame.
Qed.

Lemma statement_ok_frame pending pending' g g' s :
  frame pending pending' g g' → dat g' s = dat g s →
  statement_ok g pending s → statement_ok g' pending' s.
Proof.
  intros Hframe Hs (x & Hx & Hex). exists x. split; [by rewrite Hs|].
  intros e He. destruct (Hex e He) as [d Hd].
  exists d. eauto using expression_ok_frame.
Qed.

Lemma function_ok_frame pending pending' g g' f :
  frame pending pending' g g' →
  (∀ s, statement_ok g pending s → statement_ok g' pending' s) →
  dat g' f = dat g f →
  function_ok g pending f → function_ok g' pending' f.
Proof.
  intros Hframe Hstmt Hf (os & ss & rt & rc & Hd & Hrt & Hos & Hss).
  exists os, ss, rt, rc. split; [by rewrite Hf|]. split; [|split].
  - intros Hv. destruct (Hrt Hv) as (c & -> & Hc).
    exists c. split; [done|]. exact (Hframe _ _ Hc).
  - eapply Forall_impl; [exact Hos|]. eauto using object_ok_frame.
  - eapply Forall_impl; [exact Hss|]. eauto.
Qed.

(** The setters of the entity classes, on a live entity of the right kind. *)
Lemma set_return_type_dat f rt g os ss rt0 rc :
  dat g f = Some (Function os ss rt0 rc) →
  ∃ g', Graph.set_return_type f rt g = Some g'
        ∧ ∀ q, dat g' q = if decide (q = f) then Some (Function os ss rt rc)
                          else dat g q.
Proof. intros H. by eapply set_data_dat. Qed.

Lemma set_return_class_dat f rc g os ss rt rc0 :
  dat g f = Some (Function os ss rt rc0) →
  ∃ g', Graph.set_return_class f rc g = Some g'
        ∧ ∀ q, dat g' q = if decide (q = f) then Some (Function os ss rt rc)
                          else dat g q.
Proof. intros H. by eapply set_data_dat. Qed.

Lemma set_cls_dat o c g c0 :
  dat g o = Some (Object c0) →
  ∃ g', Graph.set_cls o c g = Some g'
        ∧ ∀ q, dat g' q = if decide (q = o) then Some (Object c) else dat g q.
Proof. intros H. by eapply set_data_dat. Qed.

Lemma set_expression_dat r x g x0 :
  dat g r = Some (ReturnStatement x0) →
  ∃ g', Graph.set_expression r x g = Some g'
        ∧ ∀ q, dat g' q = if decide (q = r) then Some (ReturnStatement x)
                          else dat g q.
Proof. intros H. by eapply set_data_dat. Qed.

Lemma set_operator_type_dat o op g es op0 :
  dat g o = Some (OperatorExpression es op0) →
  ∃ g', Graph.set_operator_type o op g = Some g'
        ∧ ∀ q, dat g' q = if decide (q = o)
                          then Some (OperatorExpression es op) else dat g q.
Proof. intros H. by eapply set_data_dat. Qed.

Lemma set_object_dat e o g o0 :
  dat g e = Some (ObjectExpression o0) →
  ∃ g', Graph.set_object e o g = Some g'
        ∧ ∀ q, dat g' q = if decide (q = e) then Some (ObjectExpression o)
                          else dat g q.
Proof. intros H. by eapply set_data_dat. Qed.

#[local] Arguments Graph.set_return_type : simpl never.
#[local] Arguments Graph.set_return_class : simpl never.
#[local] Arguments Graph.set_cls : simpl never.
#[local] Arguments Graph.set_expression : simpl never.
#[local] Arguments Graph.set_operator_type : simpl never.
#[local] Arguments Graph.set_object : simpl never.
#[local] Arguments Graph.set_name : simpl never.
#[local] Arguments dat : simpl never.

(** Running one operation of a [case] body that cannot fail. *)
Lemma next_bind {A} (x : option A) (k : A → option Parser.t)
    (P : A → Prop) (p : Parser.t) :
  (∃ a, x = Some a ∧ P a) →
  (∀ a, P a → step_result_ok p (Parser.next (k a))) →
  step_result_ok p (Parser.next (x ≫= k)).
Proof. intros (a & -> & Ha) Hk. simpl. auto. Qed.

(** A [case] body that ends in [advance_token] at a token other than [end]
    keeps the invariant when it leaves the members well-formed. *)
Lemma next_advance p p1 tok :
  ends_with_end (Parser.tokens_ p) →
  Parser.current_token p = Some tok → type tok ≠ TokenType.end_ →
  Parser.tokens_ p1 = Parser.tokens_ p →
  Parser.iterator_ p1 = Parser.iterator_ p →
  members_ok p1 →
  step_result_ok p (Parser.next (Parser.advance_token p1)).
Proof.
  intros Hend Htok Hne Htoks Hit Hok.
  unfold Parser.advance_token, Parser.current_token in *.
  rewrite Htoks, Hit, Htok. simpl.
  destruct (TokenType.eqb (type tok) TokenType.end_) eqn:E.
  { apply TokenType_eqb_eq in E. done. }
  simpl. split; [done|]. unfold parser_ok. simpl. rewrite Htoks.
  split; [done|]. split; [eauto using not_end_not_last|exact Hok].
Qed.

Lemma fail_ok p p1 tok :
  Parser.current_token p = Some tok →
  Parser.tokens_ p1 = Parser.tokens_ p →
  Parser.iterator_ p1 = Parser.iterator_ p →
  step_result_ok p (Parser.fail p1).
Proof.
  intros Htok Htoks Hit. unfold Parser.fail, Parser.current_token in *.
  rewrite Htoks, Hit, Htok. simpl. exists tok.
  split; [by eapply list_elem_of_lookup_2|done].
Qed.

(** Rewriting every [dat] of a later store into [dat] of the first one. *)
Ltac dat_simpl :=
  repeat first
    [ match goal with
      | H : ∀ q, dat ?g q = _ |- context [dat ?g _] => rewrite H
      end
    | rewrite dat_snoc ].

Ltac dat_simpl_in H :=
  repeat first
    [ match goal with
      | H' : ∀ q, dat ?g q = _ |- _ =>
          match type of H with context [dat g _] => rewrite H' in H end
      end
    | rewrite dat_snoc in H ].

(** A transition that only changes the state, to a state in which no
    further handle is dereferenced. *)
Lemma set_state_ok p st :
  members_ok p →
  st = ParserState.start ∨ Parser.state_ p ≠ ParserState.start →
  st ≠ ParserState.func_param_name →
  st ≠ ParserState.expression_value →
  st ≠ ParserState.expression_operator →
  members_ok (Parser.set_state st p).
Proof.
  intros (package & cs & fs & Hpkg & Hdpkg & Hcs & Hfs & Hh) Hst H1 H2 H3.
  exists package, cs, fs. split_and!; try done.
  destruct Hh as (Hf & Ho & Hr & Hoe & Hpend).
  split_and!; simpl; try done.
  - intros Hne. apply Hf. by destruct Hst.
  - by intros [|].
Qed.

Lemma frame_ext pending g g' :
  (∀ q, dat g' q = dat g q) → frame pending pending g g'.
Proof.
  intros Hext q d Hq. rewrite Hext. destruct d; done.
Qed.

Lemma classes_frame pending pending' g g' cs :
  frame pending pending' g g' →
  Forall (λ c, dat g c = Some Class) cs →
  Forall (λ c, dat g' c = Some Class) cs.
Proof.
  intros Hframe Hcs. eapply Forall_impl; [exact Hcs|].
  intros c Hc. exact (Hframe _ _ Hc).
Qed.

(** Statements are kept when the return statements are. *)
Lemma statements_kept pending pending' g g' :
  frame pending pending' g g' →
  (∀ s x, dat g s = Some (ReturnStatement x) → dat g' s = dat g s) →
  ∀ s, statement_ok g pending s → statement_ok g' pending' s.
Proof.
  intros Hframe Hkept s Hs. eapply statement_ok_frame; [done| |done].
  destruct Hs as (x & Hx & _). eauto.
Qed.

(** The functions of the package after an update that touches one of them
    at most. *)
Lemma functions_update pending pending' g g' fs f :
  frame pending pending' g g' →
  (∀ s, statement_ok g pending s → statement_ok g' pending' s) →
  (∀ f', f' ∈ fs → f' ≠ f → dat g' f' = dat g f') →
  (f ∈ fs → function_ok g' pending' f) →
  Forall (function_ok g pending) fs →
  Forall (function_ok g' pending') fs.
Proof.
  intros Hframe Hstmt Hother Hf Hfs.
  apply Forall_forall. intros f' Hin.
  destruct (decide (f' = f)) as [->|Hne]; [auto|].
  rewrite Forall_forall in Hfs.
  eapply function_ok_frame; eauto.
Qed.

Ltac dat_tac :=
  dat_simpl; repeat case_decide; subst; simpl; try congruence.

Ltac dat_premise := dat_tac; first [eassumption | reflexivity].

Ltac frame_tac :=
  let q := fresh "q" in
  let d := fresh "d" in
  let Hq := fresh "Hq" in
  intros q d Hq; destruct d; try exact I;
  try (intros ?; split); dat_tac.

Ltac keep_pending Hpend :=
  let ope := fresh "ope" in
  let Hope := fresh "Hope" in
  let Hd := fresh "Hd" in
  let Hall := fresh "Hall" in
  intros ope Hope; destruct (Hpend ope Hope) as (? & ? & ? & Hd & Hall);
  do 3 eexists; split; [dat_tac; exact Hd|];
  eapply Forall_impl; [exact Hall|];
  intros; by eapply expression_ok_frame.

Lemma expression_ok_live d g pending e :
  expression_ok d g pending e → is_Some (dat g e).
Proof. destruct d; simpl; [done|]. destruct (dat g e); [eauto|done]. Qed.

Lemma object_ok_live g o : object_ok g o → is_Some (dat g o).
Proof. intros (c & -> & _). eauto. Qed.

(** A transition that changes the state and replaces the store by one with
    the same entity data. *)
Lemma set_store_ok p g' st :
  members_ok p →
  (∀ q, dat g' q = dat (Parser.store p) q) →
  st = ParserState.start ∨ Parser.state_ p ≠ ParserState.start →
  st ≠ ParserState.func_param_name →
  st ≠ ParserState.expression_value →
  st ≠ ParserState.expression_operator →
  members_ok (Parser.set_state st (Parser.set_store g' p)).
Proof.
  intros (package & cs & fs & Hpkg & Hdpkg & Hcs & Hfs & Hh) Hext Hst H1 H2 H3.
  pose proof (frame_ext (Parser.operator_expression_ p) _ _ Hext) as Hframe.
  exists package, cs, fs. simpl. split_and!.
  - done.
  - by rewrite Hext.
  - by eapply classes_frame.
  - eapply Forall_impl; [exact Hfs|]. intros f Hf.
    eapply function_ok_frame; [done| |done|done].
    apply statements_kept; [done|]. intros; apply Hext.
  - destruct Hh as (Hf & Ho & Hr & Hoe & Hpend).
    split_and!; simpl; try done.
    + intros Hne. apply Hf. by destruct Hst.
    + by intros [|].
    + keep_pending Hpend.
Qed.

Section StepCases.
Variables (p : Parser.t) (tok : Token) (package : ptr) (cs fs : list ptr).
Hypothesis Hend : ends_with_end (Parser.tokens_ p).
Hypothesis Htok : Parser.current_token p = Some tok.
Hypothesis Hpkg : Parser.package_ p = Some package.
Hypothesis Hdpkg : dat (Parser.store p) package = Some (Package cs fs).
Hypothesis Hcs : Forall (λ c, dat (Parser.store p) c = Some Class) cs.
Hypothesis Hfs :
  Forall (function_ok (Parser.store p) (Parser.operator_expression_ p)) fs.
Hypothesis Hh : handles_ok p fs.

Lemma current_function :
  Parser.state_ p ≠ ParserState.start →
  ∃ f os ss rt rc,
    Parser.function_ p = Some f ∧ f ∈ fs
    ∧ dat (Parser.store p) f = Some (Function os ss rt rc)
    ∧ (rt = ReturnType.value → ∃ c, rc = Some c
                                    ∧ dat (Parser.store p) c = Some Class)
    ∧ Forall (object_ok (Parser.store p)) os
    ∧ Forall (statement_ok (Parser.store p) (Parser.operator_expression_ p))
        ss.
Proof.
  intros Hne. destruct Hh as (Hf & _). destruct (Hf Hne) as (f & Hfn & Hin).
  rewrite Forall_forall in Hfs.
  destruct (Hfs f Hin) as (os & ss & rt & rc & H).
  exists f, os, ss, rt, rc. tauto.
Qed.

Lemma case_start_func :
  Parser.state_ p = ParserState.start → type tok = TokenType.func_keyword →
  step_result_ok p (Parser.step p).
Proof.
  intros Hst Hty. unfold Parser.step. rewrite Htok, Hst, Hty.
  pose proof (dat_fresh (Parser.store p)) as Hfresh.
  destruct Hh as (Hf & Ho & Hr & Hoe & Hpend).
  unfold Graph.make_shared. simpl.
  eapply next_bind.
  { eapply set_return_type_dat. dat_simpl. by rewrite decide_True. }
  intros g1 Hd1. cbv beta in Hd1. simpl. rewrite Hpkg. simpl.
  eapply next_bind.
  { eapply add_dat; [dat_premise|reflexivity|reflexivity|].
    dat_simpl. rewrite decide_True by done. eauto. }
  intros g2 Hd2. cbv beta in Hd2. simpl.
  assert (frame (Parser.operator_expression_ p) (Parser.operator_expression_ p)
            (Parser.store p) g2) as Hframe by frame_tac.
  eapply next_advance; [done|done|by rewrite Hty|done|done|].
  eexists package, cs, _. simpl. split_and!.
  - done.
  - dat_simpl. by rewrite decide_True.
  - by eapply classes_frame.
  - apply Forall_app. split.
    + eapply (functions_update _ _ _ _ _ (length (Parser.store p)));
        [exact Hframe| | | |exact Hfs].
      * apply statements_kept; [done|]. intros; dat_tac.
      * intros f' Hin _. rewrite Forall_forall in Hfs.
        destruct (Hfs f' Hin) as (? & ? & ? & ? & Hd & _). dat_tac.
      * intros Hin. rewrite Forall_forall in Hfs.
        destruct (Hfs _ Hin) as (? & ? & ? & ? & Hd & _). congruence.
    + apply Forall_singleton. exists [], [], ReturnType.none, None.
      split_and!; [dat_tac|done|constructor|constructor].
  - split_and!; simpl; try done.
    + intros _. eexists. split; [done|]. apply elem_of_app. right. left.
    + by intros [|].
    + intros ope Hope. destruct (Hpend ope Hope) as (es & op & d & Hd & Hall).
      exists es, op, d. split; [dat_tac|].
      eapply Forall_impl; [exact Hall|].
      intros; by eapply expression_ok_frame.
Qed.

Lemma case_start_end :
  Parser.state_ p = ParserState.start → type tok = TokenType.end_ →
  step_result_ok p (Parser.step p).
Proof.
  intros Hst Hty. unfold Parser.step. rewrite Htok, Hst, Hty. simpl.
  exists package. split; [done|]. exists cs, fs. split_and!; [done..|].
  assert (frame (Parser.operator_expression_ p) None
            (Parser.store p) (Parser.store p)) as Hframe.
  { intros q d Hq. by destruct d. }
  eapply Forall_impl; [exact Hfs|]. intros f Hf.
  eapply function_ok_frame; [done| |done|done].
  by apply statements_kept.
Qed.

Lemma case_func_name :
  Parser.state_ p = ParserState.func_name → type tok = TokenType.identifier →
  step_result_ok p (Parser.step p).
Proof.
  intros Hst Hty. unfold Parser.step. rewrite Htok, Hst, Hty.
  destruct current_function
    as (f & os & ss & rt & rc & Hfn & Hin & Hfd & _); [by rewrite Hst|].
  rewrite Hfn. simpl.
  eapply next_bind. { apply set_name_dat. rewrite Hfd. eauto. }
  intros g1 Hd1. cbv beta in Hd1.
  eapply next_advance; [done|done|by rewrite Hty|done|done|].
  apply set_store_ok;
    [by exists package, cs, fs|done|rewrite Hst; by auto|done..].
Qed.

Lemma case_func_param_name :
  Parser.state_ p = ParserState.func_param_name →
  type tok = TokenType.identifier →
  step_result_ok p (Parser.step p).
Proof.
  intros Hst Hty. unfold Parser.step. rewrite Htok, Hst, Hty.
  pose proof Hh as (_ & Ho & _). destruct (Ho Hst) as (o & Hon & Hod).
  rewrite Hon. simpl.
  eapply next_bind. { by apply set_name_dat. }
  intros g1 Hd1. cbv beta in Hd1.
  eapply next_advance; [done|done|by rewrite Hty|done|done|].
  apply set_store_ok;
    [by exists package, cs, fs|done|rewrite Hst; by auto|done..].
Qed.

Lemma get_class_defined n :
  ∃ r, Graph.get Classes package n (Parser.store p) = Some r
       ∧ ∀ c, r = Some c → dat (Parser.store p) c = Some Class.
Proof.
  destruct (get_defined Classes package n _ _ cs Hdpkg eq_refl)
    as (r & Hget & Hrin).
  { eapply Forall_impl; [exact Hcs|]. intros c Hc. rewrite Hc. eauto. }
  exists r. split; [done|]. intros c Hc.
  rewrite Forall_forall in Hcs. auto.
Qed.

Lemma case_func_param :
  Parser.state_ p = ParserState.func_param →
  type tok = TokenType.identifier →
  step_result_ok p (Parser.step p).
Proof.
  intros Hst Hty. unfold Parser.step. rewrite Htok, Hst, Hty, Hpkg.
  destruct (get_class_defined (lexeme tok)) as (r & -> & Hclass).
  destruct r as [cls|]; [|by eapply fail_ok].
  pose proof (Hclass cls eq_refl) as Hcls.
  pose proof (dat_fresh (Parser.store p)) as Hfresh.
  destruct current_function
    as (f & os & ss & rt & rc & Hfn & Hin & Hfd & Hrt & Hos & Hss);
    [by rewrite Hst|].
  destruct Hh as (Hf & Ho & Hr & Hoe & Hpend).
  unfold Graph.make_shared. simpl.
  eapply next_bind.
  { eapply set_cls_dat. dat_simpl. by rewrite decide_True. }
  intros g1 Hd1. cbv beta in Hd1. simpl. rewrite Hfn. simpl.
  eapply next_bind.
  { eapply add_dat; [dat_premise|reflexivity|reflexivity|].
    dat_simpl. rewrite decide_True by done. eauto. }
  intros g2 Hd2. cbv beta in Hd2. simpl.
  assert (frame (Parser.operator_expression_ p) (Parser.operator_expression_ p)
            (Parser.store p) g2) as Hframe by frame_tac.
  assert (∀ s, statement_ok (Parser.store p) (Parser.operator_expression_ p) s
               → statement_ok g2 (Parser.operator_expression_ p) s) as Hkept.
  { apply statements_kept; [done|]. intros; dat_tac. }
  eapply next_advance; [done|done|by rewrite Hty|done|done|].
  exists package, cs, fs. simpl. split_and!.
  - done.
  - dat_tac.
  - by eapply classes_frame.
  - eapply (functions_update _ _ _ _ _ f); [exact Hframe|done| | |exact Hfs].
    + intros f' Hin' Hne. rewrite Forall_forall in Hfs.
      destruct (Hfs f' Hin') as (? & ? & ? & ? & Hd & _). dat_tac.
    + intros _. exists (os ++ [length (Parser.store p)]), ss, rt, rc.
      split_and!.
      * dat_tac.
      * intros Hv. destruct (Hrt Hv) as (c & -> & Hc).
        exists c. split; [done|exact (Hframe _ _ Hc)].
      * apply Forall_app. split.
        -- eapply Forall_impl; [exact Hos|].
           intros; by eapply object_ok_frame.
        -- apply Forall_singleton. exists cls.
           split; [dat_tac|exact (Hframe _ _ Hcls)].
      * eapply Forall_impl; [exact Hss|]. done.
  - split_and!; simpl; try done.
    + intros _. eauto.
    + intros _. eexists. split; [done|]. dat_simpl.
      repeat case_decide; try done; eauto.
    + by intros [|].
    + keep_pending Hpend.
Qed.

Lemma case_func_return_type :
  Parser.state_ p = ParserState.func_return_type →
  type tok = TokenType.identifier →
  step_result_ok p (Parser.step p).
Proof.
  intros Hst Hty. unfold Parser.step. rewrite Htok, Hst, Hty, Hpkg.
  destruct (get_class_defined (lexeme tok)) as (r & -> & Hclass).
  destruct r as [cls|]; [|by eapply fail_ok].
  pose proof (Hclass cls eq_refl) as Hcls.
  destruct current_function
    as (f & os & ss & rt & rc & Hfn & Hin & Hfd & Hrt & Hos & Hss);
    [by rewrite Hst|].
  destruct Hh as (Hf & Ho & Hr & Hoe & Hpend).
  simpl. rewrite Hfn. simpl.
  eapply next_bind. { by eapply set_return_type_dat. }
  intros g1 Hd1. cbv beta in Hd1. simpl.
  eapply next_bind.
  { eapply set_return_class_dat. dat_simpl. by rewrite decide_True. }
  intros g2 Hd2. cbv beta in Hd2. simpl.
  assert (frame (Parser.operator_expression_ p) (Parser.operator_expression_ p)
            (Parser.store p) g2) as Hframe by frame_tac.
  assert (∀ s, statement_ok (Parser.store p) (Parser.operator_expression_ p) s
               → statement_ok g2 (Parser.operator_expression_ p) s) as Hkept.
  { apply statements_kept; [done|]. intros; dat_tac. }
  eapply next_advance; [done|done|by rewrite Hty|done|done|].
  exists package, cs, fs. simpl. split_and!.
  - done.
  - dat_tac.
  - by eapply classes_frame.
  - eapply (functions_update _ _ _ _ _ f); [exact Hframe|done| | |exact Hfs].
    + intros f' Hin' Hne. dat_tac.
    + intros _. exists os, ss, ReturnType.value, (Some cls).
      split_and!.
      * dat_tac.
      * intros _. exists cls. split; [done|exact (Hframe _ _ Hcls)].
      * eapply Forall_impl; [exact Hos|].
        intros; by eapply object_ok_frame.
      * eapply Forall_impl; [exact Hss|]. done.
  - split_and!; simpl; try done.
    + intros _. eauto.
    + by intros [|].
    + keep_pending Hpend.
Qed.

Lemma case_statement_return :
  Parser.state_ p = ParserState.statement →
  type tok = TokenType.return_keyword →
  step_result_ok p (Parser.step p).
Proof.
  intros Hst Hty. unfold Parser.step. rewrite Htok, Hst, Hty.
  pose proof (dat_fresh (Parser.store p)) as Hfresh.
  destruct current_function
    as (f & os & ss & rt & rc & Hfn & Hin & Hfd & Hrt & Hos & Hss);
    [by rewrite Hst|].
  destruct Hh as (Hf & Ho & Hr & Hoe & Hpend).
  unfold Graph.make_shared. simpl. rewrite Hfn. simpl.
  eapply next_bind.
  { eapply add_dat; [dat_premise|reflexivity|reflexivity|].
    dat_simpl. rewrite decide_True by done. eauto. }
  intros g1 Hd1. cbv beta in Hd1. simpl.
  assert (frame (Parser.operator_expression_ p) (Parser.operator_expression_ p)
            (Parser.store p) g1) as Hframe by frame_tac.
  assert (∀ s, statement_ok (Parser.store p) (Parser.operator_expression_ p) s
               → statement_ok g1 (Parser.operator_expression_ p) s) as Hkept.
  { apply statements_kept; [done|]. intros; dat_tac. }
  eapply next_advance; [done|done|by rewrite Hty|done|done|].
  exists package, cs, fs. simpl. split_and!.
  - done.
  - dat_tac.
  - by eapply classes_frame.
  - eapply (functions_update _ _ _ _ _ f); [exact Hframe|done| | |exact Hfs].
    + intros f' Hin' Hne. rewrite Forall_forall in Hfs.
      destruct (Hfs f' Hin') as (? & ? & ? & ? & Hd & _). dat_tac.
    + intros _. exists os, (ss ++ [length (Parser.store p)]), rt, rc.
      split_and!.
      * dat_tac.
      * intros Hv. destruct (Hrt Hv) as (c & -> & Hc).
        exists c. split; [done|exact (Hframe _ _ Hc)].
      * eapply Forall_impl; [exact Hos|].
        intros; by eapply object_ok_frame.
      * apply Forall_app. split.
        -- eapply Forall_impl; [exact Hss|]. done.
        -- apply Forall_singleton. exists None. split; [dat_tac|done].
  - split_and!; simpl; try done.
    + intros _. eauto.
    + intros _. exists (length (Parser.store p)), None.
      split; [done|]. dat_tac.
    + keep_pending Hpend.
Qed.

Lemma case_expression_value :
  Parser.state_ p = ParserState.expression_value →
  type tok = TokenType.identifier →
  step_result_ok p (Parser.step p).
Proof.
  intros Hst Hty. unfold Parser.step. rewrite Htok, Hst, Hty.
  pose proof (dat_fresh (Parser.store p)) as Hfresh.
  destruct current_function
    as (f & os & ss & rt & rc & Hfn & Hin & Hfd & Hrt & Hos & Hss);
    [by rewrite Hst|].
  destruct Hh as (Hf & Ho & Hr & Hoe & Hpend).
  rewrite Hfn.
  destruct (get_defined Objects f (lexeme tok) _ _ os Hfd eq_refl)
    as (r & -> & Hrin).
  { eapply Forall_impl; [exact Hos|]. intros; by eapply object_ok_live. }
  destruct r as [object|]; [|by eapply fail_ok].
  assert (object_ok (Parser.store p) object) as Hobject.
  { rewrite Forall_forall in Hos. auto. }
  unfold Graph.make_shared. simpl.
  eapply next_bind.
  { eapply set_object_dat. dat_simpl. by rewrite decide_True. }
  intros g1 Hd1. cbv beta in Hd1. simpl.
  assert (frame (Parser.operator_expression_ p) (Parser.operator_expression_ p)
            (Parser.store p) g1) as Hframe by frame_tac.
  assert (∀ s, statement_ok (Parser.store p) (Parser.operator_expression_ p) s
               → statement_ok g1 (Parser.operator_expression_ p) s) as Hkept.
  { apply statements_kept; [done|]. intros; dat_tac. }
  eapply next_advance; [done|done|by rewrite Hty|done|done|].
  exists package, cs, fs. simpl. split_and!.
  - done.
  - dat_tac.
  - by eapply classes_frame.
  - eapply (functions_update _ _ _ _ _ (length (Parser.store p)));
      [exact Hframe|done| | |exact Hfs].
    + intros f' Hin' Hne. dat_tac.
    + intros Hin'. rewrite Forall_forall in Hfs.
      destruct (Hfs _ Hin') as (? & ? & ? & ? & Hd & _). congruence.
  - split_and!; simpl; try done.
    + intros _. eauto.
    + intros _. destruct Hr as (r & x & Hrs & Hrd); [by left|].
      exists r, x. split; [done|]. dat_tac.
    + intros _. exists (length (Parser.store p)), 1%nat. split; [done|].
      simpl. dat_simpl. rewrite decide_True by done.
      by eapply object_ok_frame.
    + keep_pending Hpend.
Qed.

Lemma case_semicolon :
  Parser.state_ p = ParserState.expression_operator →
  type tok = TokenType.semicolon →
  step_result_ok p (Parser.step p).
Proof.
  intros Hst Hty. unfold Parser.step. rewrite Htok, Hst, Hty.
  pose proof (dat_fresh (Parser.store p)) as Hfresh.
  destruct Hh as (Hf & Ho & Hr & Hoe & Hpend).
  destruct Hr as (r & x & Hrs & Hrd); [by right|].
  destruct (Hoe Hst) as (oe & d & Hoes & Hoeok).
  rewrite Hrs. simpl.
  destruct (Parser.operator_expression_ p) as [ope|] eqn:Hope.
  - destruct (Hpend ope eq_refl) as (es & op & d' & Hd & Hall).
    rewrite Hoes. simpl.
    destruct (add_dat Expressions ope oe (Parser.store p) _ _ _ Hd
                eq_refl eq_refl (expression_ok_live _ _ _ _ Hoeok))
      as (g1 & Hg1 & Hd1).
    rewrite Hg1. simpl.
    destruct (set_expression_dat r (Some ope) g1 x) as (g2 & Hg2 & Hd2);
      [dat_tac|].
    rewrite Hg2. simpl.
    assert (frame (Some ope) None (Parser.store p) g2) as Hframe
      by frame_tac.
    eapply next_advance; [done|done|by rewrite Hty|done|done|].
    exists package, cs, fs. simpl. split_and!.
    + done.
    + dat_tac.
    + by eapply classes_frame.
    + eapply (functions_update _ _ _ _ _ (length (Parser.store p)));
        [exact Hframe| | | |exact Hfs].
      * intros s Hs. destruct (decide (s = r)) as [->|Hne].
        -- exists (Some ope). split; [dat_tac|]. intros e [= <-].
           exists (S (d `max` d')). simpl. dat_simpl.
           rewrite decide_False by congruence. rewrite decide_True by done.
           split; [done|]. apply Forall_app. split.
           ++ eapply Forall_impl; [exact Hall|]. intros e He.
              eapply expression_ok_frame; [done|].
              eapply expression_ok_deeper; [|done]. lia.
           ++ apply Forall_singleton.
              eapply expression_ok_frame; [done|].
              eapply expression_ok_deeper; [|done]. lia.
        -- eapply statement_ok_frame; [done| |done].
           destruct Hs as (? & ? & _). dat_tac.
      * intros f' Hin' Hne. rewrite Forall_forall in Hfs.
        destruct (Hfs f' Hin') as (? & ? & ? & ? & Hd' & _). dat_tac.
      * intros Hin'. rewrite Forall_forall in Hfs.
        destruct (Hfs _ Hin') as (? & ? & ? & ? & Hd' & _). congruence.
    + split_and!; simpl; try done.
      * intros _. apply Hf. by rewrite Hst.
      * by intros [|].
  - destruct (set_expression_dat r (Parser.object_expression_ p)
                (Parser.store p) x Hrd) as (g1 & Hg1 & Hd1).
    rewrite Hg1. simpl.
    assert (frame None None (Parser.store p) g1) as Hframe by frame_tac.
    eapply next_advance; [done|done|by rewrite Hty|done|done|].
    exists package, cs, fs. simpl. rewrite Hope. split_and!.
    + done.
    + dat_tac.
    + by eapply classes_frame.
    + eapply (functions_update _ _ _ _ _ (length (Parser.store p)));
        [exact Hframe| | | |exact Hfs].
      * intros s Hs. destruct (decide (s = r)) as [->|Hne].
        -- exists (Some oe). split; [rewrite Hoes in Hd1; dat_tac|].
           intros e [= <-]. exists d. by eapply expression_ok_frame.
        -- eapply statement_ok_frame; [done| |done].
           destruct Hs as (? & ? & _). dat_tac.
      * intros f' Hin' Hne. rewrite Forall_forall in Hfs.
        destruct (Hfs f' Hin') as (? & ? & ? & ? & Hd' & _). dat_tac.
      * intros Hin'. rewrite Forall_forall in Hfs.
        destruct (Hfs _ Hin') as (? & ? & ? & ? & Hd' & _). congruence.
    + split_and!; simpl; try done.
      * intros _. apply Hf. by rewrite Hst.
      * by intros [|].
      * by rewrite Hope.
Qed.

Lemma case_plus :
  Parser.state_ p = ParserState.expression_operator →
  type tok = TokenType.plus →
  step_result_ok p (Parser.step p).
Proof.
  intros Hst Hty. unfold Parser.step. rewrite Htok, Hst, Hty.
  pose proof (dat_fresh (Parser.store p)) as Hfresh.
  destruct Hh as (Hf & Ho & Hr & Hoe & Hpend).
  destruct Hr as (r & x & Hrs & Hrd); [by right|].
  destruct (Hoe Hst) as (oe & d & Hoes & Hoeok).
  pose proof (expression_ok_live _ _ _ _ Hoeok) as [doe Hoed].
  unfold Graph.make_shared. simpl.
  eapply next_bind.
  { eapply set_operator_type_dat. dat_simpl. by rewrite decide_True. }
  intros g1 Hd1. cbv beta in Hd1. simpl. rewrite Hoes. simpl.
  destruct (Parser.operator_expression_ p) as [prev|] eqn:Hope.
  - destruct (Hpend prev eq_refl) as (es & op & d' & Hd & Hall).
    edestruct (add_dat Expressions prev oe g1) as (g2 & Hg2 & Hd2);
      [dat_premise|reflexivity|reflexivity|dat_tac; eauto|].
    rewrite Hg2. simpl.
    eapply next_bind.
    { eapply add_dat; [dat_premise|reflexivity|reflexivity|].
      dat_tac; eauto. }
    intros g3 Hd3. cbv beta in Hd3. simpl.
    assert (frame (Some prev) (Some (length (Parser.store p)))
              (Parser.store p) g3) as Hframe by frame_tac.
    eapply next_advance; [done|done|by rewrite Hty|done|done|].
    exists package, cs, fs. simpl. split_and!.
    + done.
    + dat_tac.
    + by eapply classes_frame.
    + eapply (functions_update _ _ _ _ _ (length (Parser.store p)));
        [exact Hframe| | | |exact Hfs].
      * apply statements_kept; [done|]. intros; dat_tac.
      * intros f' Hin' Hne. rewrite Forall_forall in Hfs.
        destruct (Hfs f' Hin') as (? & ? & ? & ? & Hd' & _). dat_tac.
      * intros Hin'. rewrite Forall_forall in Hfs.
        destruct (Hfs _ Hin') as (? & ? & ? & ? & Hd' & _). congruence.
    + split_and!; simpl; try done.
      * intros _. apply Hf. by rewrite Hst.
      * intros _. exists r, x. split; [done|]. dat_tac.
      * intros ope [= <-].
        exists [prev], OperatorType.plus, (S (d `max` d')).
        split; [dat_tac|]. apply Forall_singleton. simpl.
        dat_simpl. rewrite decide_False by congruence.
        rewrite decide_True by done.
        split; [congruence|]. apply Forall_app. split.
        -- eapply Forall_impl; [exact Hall|]. intros e He.
           eapply expression_ok_frame; [done|].
           eapply expression_ok_deeper; [|done]. lia.
        -- apply Forall_singleton.
           eapply expression_ok_frame; [done|].
           eapply expression_ok_deeper; [|done]. lia.
  - eapply next_bind.
    { eapply add_dat; [dat_premise|reflexivity|reflexivity|].
      dat_tac; eauto. }
    intros g2 Hd2. cbv beta in Hd2. simpl.
    assert (frame None (Some (length (Parser.store p)))
              (Parser.store p) g2) as Hframe by frame_tac.
    eapply next_advance; [done|done|by rewrite Hty|done|done|].
    exists package, cs, fs. simpl. split_and!.
    + done.
    + dat_tac.
    + by eapply classes_frame.
    + eapply (functions_update _ _ _ _ _ (length (Parser.store p)));
        [exact Hframe| | | |exact Hfs].
      * apply statements_kept; [done|]. intros; dat_tac.
      * intros f' Hin' Hne. rewrite Forall_forall in Hfs.
        destruct (Hfs f' Hin') as (? & ? & ? & ? & Hd' & _). dat_tac.
      * intros Hin'. rewrite Forall_forall in Hfs.
        destruct (Hfs _ Hin') as (? & ? & ? & ? & Hd' & _). congruence.
    + split_and!; simpl; try done.
      * intros _. apply Hf. by rewrite Hst.
      * intros _. exists r, x. split; [done|]. dat_tac.
      * intros ope [= <-]. exists [oe], OperatorType.plus, d.
        split; [dat_tac|]. apply Forall_singleton.
        by eapply expression_ok_frame.
Qed.

End StepCases.

(** Every iteration of the parser loop keeps the invariant, or ends the
    run in a return or in the error exit. *)
Lemma step_ok p : parser_ok p → step_result_ok p (Parser.step p).
Proof.
  intros (Hend & Hlt & Hok).
  pose proof Hok as (package & cs & fs & Hpkg & Hdpkg & Hcs & Hfs & Hh).
  destruct (lookup_lt_is_Some_2 _ _ Hlt) as [tok Htok].
  change (Parser.current_token p = Some tok) in Htok.
  destruct (Parser.state_ p) eqn:Hst; destruct (type tok) eqn:Hty;
    try (by eapply case_start_end);
    try (by eapply case_start_func);
    try (by eapply case_func_name);
    try (by eapply case_func_param);
    try (by eapply case_func_param_name);
    try (by eapply case_func_return_type);
    try (by eapply case_statement_return);
    try (by eapply case_expression_value);
    try (by eapply case_semicolon);
    try (by eapply case_plus);
    unfold Parser.step; rewrite Htok, Hst, Hty;
    try (by eapply fail_ok);
    try (eapply next_advance; [done|done|by rewrite Hty|done|done|];
         apply set_state_ok; [done|rewrite Hst; by auto|done..]);
    try (split; [done|]; split; [done|]; split; [done|];
         apply set_state_ok; [done|rewrite Hst; by auto|done..]).
Qed.

(** ** The parser: what a run ends in *)

Lemma prologue_ok tokens :
  ends_with_end tokens →
  ∃ p, Parser.prologue (Parser.new tokens) = Some p
       ∧ Parser.tokens_ p = tokens ∧ parser_ok p
       ∧ (parser_measure p <= 2 * length tokens)%nat.
Proof.
  intros Hend. eexists. split; [apply prologue_new|]. simpl.
  split; [done|]. split; [|unfold parser_measure; simpl; lia].
  split; [done|]. split.
  { simpl. destruct Hend as (tok & Hlast & _).
    destruct tokens; [done|simpl; lia]. }
  exists 0%nat, [1%nat], []. simpl. split_and!; try done.
  - by repeat constructor.
  - split_and!; simpl; try done. by intros [|].
Qed.

Lemma loop_ok m p :
  parser_ok p → (parser_measure p <= m)%nat →
  ∃ r, Parser.loop (S m) p = Some r ∧ run_result_ok (Parser.tokens_ p) r.
Proof.
  revert p. induction m as [|m IH]; intros p Hok Hm;
    rewrite parser_loop_S; pose proof (step_ok p Hok) as Hstep;
    destruct (Parser.step p) as [p'|r] eqn:Hs; eauto;
    destruct Hstep as [Htoks Hok'];
    destruct (step_decreases _ _ (proj1 Hok) Hs) as (_ & _ & Hless).
  - lia.
  - rewrite <- Htoks. apply IH; [done|lia].
Qed.



(** ** The translator on well-formed graphs *)

Lemma name_live g q d : dat g q = Some d → ∃ n, Graph.name g q = Some n.
Proof.
  unfold dat, Graph.name. destruct (g !! q); simpl; [eauto|done].
Qed.

Lemma dat_lookup g q d :
  dat g q = Some d → ∃ ent, g !! q = Some ent ∧ data ent = d.
Proof.
  unfold dat. destruct (g !! q) as [ent|]; simpl; [|done].
  intros [= <-]. eauto.
Qed.

Lemma translate_expression_defined d g e :
  expression_ok d g None e →
  ∃ text, Translator.translate_expression d g (Some e) = Some text.
Proof.
  revert e. induction d as [|d IH]; intros e He; [done|].
  simpl in He. destruct (dat g e) as [de|] eqn:Hde; [|done].
  destruct (dat_lookup _ _ _ Hde) as (ent & Hent & Hdata).
  simpl. rewrite Hent. simpl. rewrite Hdata.
  destruct de as [| | | | |es op|o]; try done.
  - destruct He as [_ Hall].
    assert (∃ code,
      (fix operands (es : list ptr) : option string :=
         match es with
         | [] => Some ""
         | [x] => Translator.translate_expression d g (Some x)
         | x :: (_ :: _) as rest =>
             code ← Translator.translate_expression d g (Some x);
             more ← operands rest;
             Some (code +:+ Translator.translate_operator op
                   +:+ more)
         end) es = Some code) as [code ->]; [|simpl; eauto].
    clear Hde Hdata Hent. induction es as [|x rest IHrest]; [eauto|].
    apply Forall_cons in Hall as [Hx Hrest].
    destruct (IHrest Hrest) as [more Hmore].
    destruct (IH x Hx) as [code Hcode].
    destruct rest as [|y rest]; [eauto|].
    rewrite Hcode. simpl. simpl in Hmore. rewrite Hmore. simpl. eauto.
  - destruct o as [o|]; [|done]. simpl.
    destruct He as (c & Ho & _). by eapply name_live.
Qed.

Lemma translate_parameter_defined g o :
  object_ok g o → ∃ text, Translator.translate_parameter g o = Some text.
Proof.
  intros (c & Ho & Hc). unfold Translator.translate_parameter.
  destruct (dat_lookup _ _ _ Ho) as (ent & Hent & Hdata).
  rewrite Hent. simpl. rewrite Hdata. simpl.
  destruct (name_live _ _ _ Hc) as [n ->]. simpl. eauto.
Qed.

Lemma translate_parameters_defined g os :
  Forall (object_ok g) os →
  ∃ text, Translator.translate_parameters g os = Some text.
Proof.
  induction 1 as [|o rest Ho Hrest [more IH]]; [simpl; eauto|].
  destruct (translate_parameter_defined g o Ho) as [param Hparam].
  simpl. destruct rest; [eauto|].
  rewrite Hparam. simpl. simpl in IH. rewrite IH. simpl. eauto.
Qed.

Lemma translate_statement_defined g s :
  statement_ok g None s →
  ∃ d, ∀ fuel, (d <= fuel)%nat →
    ∃ text, Translator.translate_statement fuel g s = Some text.
Proof.
  intros (x & Hs & Hx). unfold Translator.translate_statement.
  destruct (dat_lookup _ _ _ Hs) as (ent & Hent & Hdata).
  rewrite Hent. simpl. rewrite Hdata. simpl.
  destruct x as [e|].
  - destruct (Hx e eq_refl) as [d Hd]. exists d. intros fuel Hle.
    destruct (translate_expression_defined fuel g e) as [code ->];
      [by eapply expression_ok_deeper|].
    simpl. eauto.
  - exists 1%nat. intros fuel Hle. destruct fuel; [lia|]. simpl. eauto.
Qed.

Lemma translate_statements_defined g ss :
  Forall (statement_ok g None) ss →
  ∃ d, ∀ fuel, (d <= fuel)%nat →
    ∃ text, Translator.translate_statements fuel g ss = Some text.
Proof.
  induction 1 as [|s rest Hs Hrest [d' IH]].
  - exists 0%nat. simpl. eauto.
  - destruct (translate_statement_defined g s Hs) as [d Hd].
    exists (d `max` d')%nat. intros fuel Hle.
    destruct (Hd fuel) as [code Hcode]; [lia|].
    destruct (IH fuel) as [more Hmore]; [lia|].
    simpl. rewrite Hcode. simpl. rewrite Hmore. simpl. eauto.
Qed.

Lemma translate_function_defined g f :
  function_ok g None f →
  ∃ d, ∀ fuel, (d <= fuel)%nat →
    ∃ text, Translator.translate_function fuel g f = Some text.
Proof.
  intros (os & ss & rt & rc & Hf & Hrt & Hos & Hss).
  destruct (translate_statements_defined g ss Hss) as [d Hd].
  exists d. intros fuel Hle. unfold Translator.translate_function.
  destruct (dat_lookup _ _ _ Hf) as (ent & Hent & Hdata).
  rewrite Hent. simpl. rewrite Hdata. simpl.
  destruct (translate_parameters_defined g os Hos) as [params ->].
  destruct (Hd fuel Hle) as [body ->].
  destruct rt; simpl; [eauto|].
  destruct (Hrt eq_refl) as (c & -> & Hc). simpl.
  destruct (name_live _ _ _ Hc) as [n ->]. simpl. eauto.
Qed.

Lemma translate_functions_defined g fs :
  Forall (function_ok g None) fs →
  ∃ d, ∀ fuel, (d <= fuel)%nat →
    ∃ text, Translator.translate_functions fuel g fs = Some text.
Proof.
  induction 1 as [|f rest Hf Hrest [d' IH]].
  - exists 0%nat. simpl. eauto.
  - destruct (translate_function_defined g f Hf) as [d Hd].
    exists (d `max` d')%nat. intros fuel Hle.
    destruct (Hd fuel) as [code Hcode]; [lia|].
    destruct (IH fuel) as [more Hmore]; [lia|].
    simpl. rewrite Hcode. simpl. rewrite Hmore. simpl. eauto.
Qed.

Lemma translate_package_defined g package :
  package_ok g None package →
  ∃ d, ∀ fuel, (d <= fuel)%nat →
    ∃ text, Translator.translate fuel g package = Some text.
Proof.
  intros (cs & fs & Hp & _ & Hfs).
  destruct (translate_functions_defined g fs Hfs) as [d Hd].
  exists d. intros fuel Hle. unfold Translator.translate, Graph.entities.
  destruct (dat_lookup _ _ _ Hp) as (ent & Hent & Hdata).
  rewrite Hent. simpl. rewrite Hdata. simpl. auto.
Qed.

(** X11.  On a well-formed graph the translator is defined: from some
    recursion depth on it returns a text, without dereferencing a null or
    dangling handle ([object->cls()], [function->return_class()],
    [object_expression->object()]). *)
Theorem translator_defined g package :
  package_ok g None package →
  ∃ d, ∀ fuel, (d <= fuel)%nat →
    ∃ text, Translator.translate fuel g package = Some text.
Proof. apply translate_package_defined. Qed.

Lemma add_graph_ok : package_ok add_graph None 0%nat.
Proof.
  exists [1%nat], [2%nat]. split_and!; [done|by repeat constructor|].
  apply Forall_singleton.
  exists [3%nat; 4%nat], [5%nat], ReturnType.value, (Some 1%nat).
  assert (∀ o, o = 3%nat ∨ o = 4%nat → object_ok add_graph o) as Hobject.
  { intros o [->| ->]; by exists 1%nat. }
  split_and!.
  - done.
  - intros _. by exists 1%nat.
  - repeat constructor; auto.
  - apply Forall_singleton. exists (Some 7%nat). split; [done|].
    intros e [= <-]. exists 2%nat. split; [done|].
    repeat constructor; apply Hobject; auto.
Qed.

Lemma translator_defined_witness :
  ∃ d, ∀ fuel, (d <= fuel)%nat →
    ∃ text, Translator.translate fuel add_graph 0%nat = Some text.
Proof.
  apply (translator_defined add_graph 0%nat). exact add_graph_ok.
Defined.

(** ** The printer on well-formed graphs *)

Lemma print_class_defined g c indent :
  dat g c = Some Class →
  ∃ text, Printer.print_class g (Some c) indent = Some text.
Proof.
  intros Hc. unfold Printer.print_class. simpl.
  destruct (name_live _ _ _ Hc) as [n ->]. simpl. eauto.
Qed.

Lemma print_object_defined g o indent :
  object_ok g o → ∃ text, Printer.print_object g (Some o) indent = Some text.
Proof.
  intros (c & Ho & Hc). unfold Printer.print_object. simpl.
  destruct (dat_lookup _ _ _ Ho) as (ent & Hent & Hdata).
  rewrite Hent. simpl. rewrite Hdata.
  destruct (print_class_defined g c (indent + 2) Hc) as [text ->].
  simpl. eauto.
Qed.

Lemma print_expression_defined d g e indent :
  expression_ok d g None e →
  ∃ text, Printer.print_expression d g (Some e) indent = Some text.
Proof.
  revert e indent. induction d as [|d IH]; intros e indent He; [done|].
  simpl in He. destruct (dat g e) as [de|] eqn:Hde; [|done].
  destruct (dat_lookup _ _ _ Hde) as (ent & Hent & Hdata).
  simpl. rewrite Hent. simpl. rewrite Hdata.
  destruct de as [| | | | |es op|o]; try done.
  - destruct He as [_ Hall].
    assert (∃ body,
      (fix operands (es : list ptr) : option string :=
         match es with
         | [] => Some ""
         | x :: rest =>
             text ← Printer.print_expression d g (Some x) (indent + 2);
             more ← operands rest;
             Some (text +:+ more)
         end) es = Some body) as [body ->]; [|simpl; eauto].
    clear Hde Hdata Hent. induction es as [|x rest IHrest]; [eauto|].
    apply Forall_cons in Hall as [Hx Hrest].
    destruct (IHrest Hrest) as [more ->].
    destruct (IH x (indent + 2)%nat Hx) as [text ->]. simpl. eauto.
  - destruct o as [o|]; [|done].
    destruct (print_object_defined g o (indent + 2)) as [text ->]; [done|].
    simpl. eauto.
Qed.

Lemma print_objects_defined g os indent :
  Forall (object_ok g) os →
  ∃ text, Printer.print_objects g os indent = Some text.
Proof.
  induction 1 as [|o rest Ho Hrest [more IH]]; [simpl; eauto|].
  destruct (print_object_defined g o indent Ho) as [text Htext].
  simpl in *. rewrite Htext. simpl. rewrite IH. simpl. eauto.
Qed.

Lemma print_statement_defined g s :
  statement_ok g None s →
  ∃ d, ∀ fuel indent, (d <= fuel)%nat →
    ∃ text, Printer.print_statement fuel g s indent = Some text.
Proof.
  intros (x & Hs & Hx). unfold Printer.print_statement.
  destruct (dat_lookup _ _ _ Hs) as (ent & Hent & Hdata).
  rewrite Hent. simpl. rewrite Hdata. destruct x as [e|].
  - destruct (Hx e eq_refl) as [d Hd]. exists d. intros fuel indent Hle.
    destruct (print_expression_defined fuel g e (indent + 2))
      as [text ->]; [by eapply expression_ok_deeper|].
    simpl. eauto.
  - exists 1%nat. intros fuel indent Hle. destruct fuel; [lia|].
    simpl. eauto.
Qed.

Lemma print_statements_defined g ss :
  Forall (statement_ok g None) ss →
  ∃ d, ∀ fuel indent, (d <= fuel)%nat →
    ∃ text, Printer.print_statements fuel g ss indent = Some text.
Proof.
  induction 1 as [|s rest Hs Hrest [d' IH]].
  - exists 0%nat. simpl. eauto.
  - destruct (print_statement_defined g s Hs) as [d Hd].
    exists (d `max` d')%nat. intros fuel indent Hle.
    destruct (Hd fuel indent) as [text Htext]; [lia|].
    destruct (IH fuel indent) as [more Hmore]; [lia|].
    simpl. rewrite Htext. simpl. rewrite Hmore. simpl. eauto.
Qed.

Lemma print_function_defined g f :
  function_ok g None f →
  ∃ d, ∀ fuel indent, (d <= fuel)%nat →
    ∃ text, Printer.print_function fuel g f indent = Some text.
Proof.
  intros (os & ss & rt & rc & Hf & Hrt & Hos & Hss).
  destruct (print_statements_defined g ss Hss) as [d Hd].
  exists d. intros fuel indent Hle. unfold Printer.print_function.
  destruct (dat_lookup _ _ _ Hf) as (ent & Hent & Hdata).
  rewrite Hent. simpl. rewrite Hdata.
  destruct (print_objects_defined g os (indent + 2) Hos) as [objects ->].
  destruct (Hd fuel (indent + 2)%nat Hle) as [body ->].
  destruct rt; simpl; [eauto|].
  destruct (Hrt eq_refl) as (c & -> & Hc).
  destruct (print_class_defined g c (indent + 2) Hc) as [text ->].
  simpl. eauto.
Qed.

Lemma print_functions_defined g fs :
  Forall (function_ok g None) fs →
  ∃ d, ∀ fuel indent, (d <= fuel)%nat →
    ∃ text, Printer.print_functions fuel g fs indent = Some text.
Proof.
  induction 1 as [|f rest Hf Hrest [d' IH]].
  - exists 0%nat. simpl. eauto.
  - destruct (print_function_defined g f Hf) as [d Hd].
    exists (d `max` d')%nat. intros fuel indent Hle.
    destruct (Hd fuel indent) as [text Htext]; [lia|].
    destruct (IH fuel indent) as [more Hmore]; [lia|].
    simpl. rewrite Htext. simpl. rewrite Hmore. simpl. eauto.
Qed.

Lemma print_package_defined g package :
  package_ok g None package →
  ∃ d, ∀ fuel indent, (d <= fuel)%nat →
    ∃ text, Printer.print fuel g package indent = Some text.
Proof.
  intros (cs & fs & Hp & _ & Hfs).
  destruct (print_functions_defined g fs Hfs) as [d Hd].
  exists d. intros fuel indent Hle. unfold Printer.print.
  destruct (dat_lookup _ _ _ Hp) as (ent & Hent & Hdata).
  rewrite Hent. simpl. rewrite Hdata.
  destruct (Hd fuel (indent + 2)%nat Hle) as [text ->]. simpl. eauto.
Qed.

(** X14.  On a well-formed graph the printer is defined at every
    indentation: from some recursion depth on, [print(package, indent)]
    returns a text and never dereferences a null or dangling handle. *)
Theorem printer_defined g package :
  package_ok g None package →
  ∃ d, ∀ fuel indent, (d <= fuel)%nat →
    ∃ text, Printer.print fuel g package indent = Some text.
Proof. apply print_package_defined. Qed.

Lemma printer_defined_witness :
  ∃ d, ∀ fuel indent, (d <= fuel)%nat →
    ∃ text, Printer.print fuel add_graph 0%nat indent = Some text.
Proof.
  apply (printer_defined add_graph 0%nat). exact add_graph_ok.
Defined.

(** ** The lexer: the shape of the token list *)

Lemma tokens_advance_char l :
  Lexer.tokens_ (Lexer.advance_char l) = Lexer.tokens_ l.
Proof. unfold Lexer.advance_char. by case_match. Qed.

Lemma get_lexeme_start_lexeme l :
  Lexer.get_lexeme (Lexer.start_lexeme l) = "".
Proof.
  unfold Lexer.get_lexeme. simpl.
  by rewrite Nat.leb_refl, Nat.sub_diag, take_0.
Qed.

(** An iteration of the lexer loop only appends tokens, none of type [end],
    unless it returns; then it has appended the one [end] token. *)
Lemma lexer_step_tokens l :
  match Lexer.step l with
  | inl l' =>
      ∃ new, Lexer.tokens_ l' = Lexer.tokens_ l ++ new
             ∧ Forall (λ tok, type tok ≠ TokenType.end_) new
  | inr (Lexer.Returned toks) =>
      toks = Lexer.tokens_ l
             ++ [mkToken TokenType.end_ "" (Lexer.line_number_ l)
                   (Lexer.column_number_ l)]
  | inr Lexer.Undefined => True
  end.
Proof.
  pose proof get_keyword_token_type_not_end as Hkw.
  unfold Lexer.step, Lexer.add_identifier_or_keyword.
  destruct (Lexer.state_ l); simpl;
    repeat match goal with
      | |- context [if ?b then _ else _] => destruct b
      end; tab_cases; simpl; rewrite ?tokens_advance_char; simpl;
    rewrite ?get_lexeme_start_lexeme;
    first [ done
          | by exists []; rewrite app_nil_r
          | eexists [_]; split; [reflexivity|]; apply Forall_singleton;
            simpl; first [done | apply Hkw] ].
Qed.

Lemma lexer_run_tokens fuel l toks :
  Forall (λ tok, type tok ≠ TokenType.end_) (Lexer.tokens_ l) →
  Lexer.run fuel l = Some (Lexer.Returned toks) →
  ∃ init tok, toks = init ++ [tok]
              ∧ Forall (λ tok, type tok ≠ TokenType.end_) init
              ∧ type tok = TokenType.end_ ∧ lexeme tok = "".
Proof.
  revert l. induction fuel as [|fuel IH]; intros l Hl Hrun; [done|].
  rewrite run_S in Hrun. pose proof (lexer_step_tokens l) as Hstep.
  destruct (Lexer.step l) as [l'|r].
  - destruct Hstep as (new & Hnew & Hall). apply (IH l'); [|done].
    rewrite Hnew. by apply Forall_app.
  - simplify_eq. eauto 10.
Qed.

(** X12.  Whatever the source text, the token list that [Lexer::run]
    returns ends with a token of type [end] and empty lexeme, and that is
    its only token of type [end]. *)
Theorem lexer_tokens_end (source : list ascii) (fuel : nat)
    (toks : list Token) :
  Lexer.run fuel (Lexer.new source) = Some (Lexer.Returned toks) →
  ends_with_end toks
  ∧ ∃ init tok, toks = init ++ [tok]
                ∧ Forall (λ tok, type tok ≠ TokenType.end_) init
                ∧ type tok = TokenType.end_ ∧ lexeme tok = "".
Proof.
  intros Hrun.
  destruct (lexer_run_tokens fuel (Lexer.new source) toks (Forall_nil_2 _)
              Hrun)
    as (init & tok & -> & Hinit & Hty & Hlex).
  split; [|eauto 10]. exists tok. by rewrite last_snoc.
Qed.

Lemma lexer_tokens_end_witness :
  ends_with_end add_lexed
  ∧ ∃ init tok, add_lexed = init ++ [tok]
                ∧ Forall (λ tok, type tok ≠ TokenType.end_) init
                ∧ type tok = TokenType.end_ ∧ lexeme tok = "".
Proof.
  apply (lexer_tokens_end add_source 100 add_lexed). reflexivity.
Defined.

(** ** The three phases in a row *)

(** What [main] may see after the parser, on the tokens [toks] of the lexer:
    a package that the printer and the translator turn into texts, or the
    exit of the parser on one of the tokens. *)
Lemma parse_then_translate toks :
  ends_with_end toks →
  ∃ r, Parser.run (2 * length toks + 1) (Parser.new toks) = Some r
       ∧ match r with
         | Parser.Returned package g =>
             ∃ package' d,
               package = Some package'
               ∧ ∀ fuel, (d <= fuel)%nat →
                   (∃ text, Printer.print fuel g package' 0 = Some text)
                   ∧ ∃ text, Translator.translate fuel g package' = Some text
         | Parser.Exited stderr =>
             ∃ tok, tok ∈ toks ∧ stderr = unexpected_token tok
         | Parser.Undefined => False
         end.
Proof.
  intros Hend. unfold Parser.run.
  destruct (prologue_ok toks Hend) as (p & -> & <- & Hok & Hm).
  replace (2 * length (Parser.tokens_ p) + 1)%nat
    with (S (2 * length (Parser.tokens_ p))) by lia.
  destruct (loop_ok _ p Hok Hm) as (r & -> & Hr).
  exists r. split; [done|]. destruct r as [package g|stderr|]; try done.
  destruct Hr as (package' & -> & Hpackage).
  destruct (translate_package_defined g package' Hpackage) as [d Hd].
  destruct (print_package_defined g package' Hpackage) as [d' Hd'].
  exists package', (d `max` d')%nat. split; [done|]. intros fuel Hle.
  split; [apply Hd'|apply Hd]; lia.
Qed.

(** X13.  The phases of [main] compose: on the token list that the lexer
    returns for any source text, the parser ends, and either it exits with
    the error message about one of these tokens, or it returns a package on
    which the printer and the translator are defined.  No phase dereferences
    a null or dangling handle. *)
Theorem phases_compose (source : list ascii) (fuel : nat)
    (toks : list Token) :
  Lexer.run fuel (Lexer.new source) = Some (Lexer.Returned toks) →
  ∃ r, Parser.run (2 * length toks + 1) (Parser.new toks) = Some r
       ∧ match r with
         | Parser.Returned package g =>
             ∃ package' d,
               package = Some package'
               ∧ ∀ fuel, (d <= fuel)%nat →
                   (∃ text, Printer.print fuel g package' 0 = Some text)
                   ∧ ∃ text, Translator.translate fuel g package' = Some text
         | Parser.Exited stderr =>
             ∃ tok, tok ∈ toks ∧ stderr = unexpected_token tok
         | Parser.Undefined => False
         end.
Proof.
  intros Hrun. apply parse_then_translate.
  destruct (lexer_run_tokens fuel (Lexer.new source) toks (Forall_nil_2 _)
              Hrun)
    as (init & tok & -> & Hinit & Hty & Hlex).
  exists tok. by rewrite last_snoc.
Qed.

Lemma phases_compose_witness :
  ∃ r, Parser.run (2 * length add_lexed + 1) (Parser.new add_lexed) = Some r
       ∧ match r with
         | Parser.Returned package g =>
             ∃ package' d,
               package = Some package'
               ∧ ∀ fuel, (d <= fuel)%nat →
                   (∃ text, Printer.print fuel g package' 0 = Some text)
                   ∧ ∃ text, Translator.translate fuel g package' = Some text
         | Parser.Exited stderr =>
             ∃ tok, tok ∈ add_lexed ∧ stderr = unexpected_token tok
         | Parser.Undefined => False
         end.
Proof.
  apply (phases_compose add_source 100 add_lexed). reflexivity.
Defined.

(** ** The lexer: punctuation and operators *)












(** ** Printing tokens *)

Lemma print_token_type_inj a b :
  print_token_type a = print_token_type b → a = b.
Proof. destruct a, b; simpl; intros H; first [reflexivity|discriminate H]. Qed.

(** X18.  The printed form of a token, as it appears in the token listing
    and in the parser's error message, determines the type of the token:
    the names of the token types are pairwise different and none continues
    another. *)
Theorem printed_token_type (s t : Token) :
  print_token s = print_token t → type s = type t.
Proof.
  unfold print_token.
  destruct (type s), (type t); simpl; intros H;
    first [reflexivity|discriminate H].
Qed.

Lemma printed_token_type_witness :
  type (mkToken TokenType.plus "+" 1 1) = type (mkToken TokenType.plus "+" 1 1).
Proof.
  apply (printed_token_type (mkToken TokenType.plus "+" 1 1)
           (mkToken TokenType.plus "+" 1 1)).
  reflexivity.
Defined.

(** ** The lexer: positions of tokens *)

Lemma all_before_mono a b toks :
  position_le a b → all_before a toks → all_before b toks.
Proof.
  intros Hle Hall. eapply Forall_impl; [exact Hall|]. intros tok.
  unfold position_lt, position_le in *. simpl. lia.
Qed.

Lemma positions_increase_snoc toks tok :
  positions_increase toks → all_before (token_position tok) toks →
  positions_increase (toks ++ [tok]).
Proof.
  intros Hinc Hall i j s t Hij Hi Hj.
  pose proof (lookup_lt_Some _ _ _ Hj) as Hlen.
  rewrite length_app in Hlen. simpl in Hlen.
  rewrite lookup_app_l in Hi by lia.
  destruct (decide (j = length toks)) as [->|Hne].
  - rewrite list_lookup_middle in Hj by done. simplify_eq.
    unfold all_before in Hall. rewrite Forall_forall in Hall.
    apply Hall. by eapply list_elem_of_lookup_2.
  - rewrite lookup_app_l in Hj by lia. eauto.
Qed.

Lemma tab_grows c w : 0 < w → 0 <= c → c < (c + w) ÷ w * w.
Proof.
  intros Hw Hc. rewrite Z.quot_div_nonneg by lia.
  pose proof (Z.div_mod (c + w) w) as Hdm.
  pose proof (Z.mod_pos_bound (c + w) w Hw). lia.
Qed.

Lemma in_buffer_at_null l :
  in_buffer l →
  (Z.of_nat (Lexer.index_ l) =? Lexer.size_minus_one (Lexer.source_ l)) = true →
  Lexer.current_char l = NUL.
Proof.
  intros (Hlast & Hlt & _) Heq.
  destruct (advance_char_cases l Hlast Hlt) as [(_ & _ & Hc)|[_ Hlt']];
    [done|].
  rewrite (size_minus_one_last _ _ Hlast) in Heq. lia.
Qed.

Ltac pos_arith :=
  unfold position_lt, position_le, lexer_position, lexeme_position,
    token_position; simpl;
  try match goal with
    | H : 0 < ?w |- context [(?c + ?w) ÷ ?w * ?w] =>
        pose proof (tab_grows c w H)
    end;
  lia.

Ltac pos_leaf Hinc Hall :=
  repeat match goal with
    | |- _ ∧ _ => split
    | |- 1 <= _ => pos_arith
    | |- 0 < _ => assumption
    | |- position_lt _ _ => pos_arith
    | |- positions_increase (_ ++ [_]) =>
        apply positions_increase_snoc;
          [exact Hinc|eapply all_before_mono; [|exact Hall]; pos_arith]
    | |- positions_increase _ => exact Hinc
    | |- all_before _ (_ ++ [_]) =>
        apply Forall_app; split;
          [eapply all_before_mono; [|exact Hall]; pos_arith
          |apply Forall_singleton; pos_arith]
    | |- all_before _ _ => eapply all_before_mono; [|exact Hall]; pos_arith
    end.

Lemma lexer_step_positions l :
  in_buffer l → positions_ok l →
  match Lexer.step l with
  | inl l' => positions_ok l'
  | inr (Lexer.Returned toks) => positions_increase toks
  | inr Lexer.Undefined => True
  end.
Proof.
  intros Hin (Hcol & Htab & Hinc & Hst).
  pose proof (in_buffer_at_null l Hin) as Hnul. clear Hin.
  unfold Lexer.step, Lexer.add_identifier_or_keyword, positions_ok.
  destruct (Lexer.state_ l) eqn:Hstate; cbv zeta; simpl in Hst;
    try destruct Hst as [Hlt Hall]; try rename Hst into Hall;
    try (unfold position_lt, lexeme_position, lexer_position in Hlt;
         simpl in Hlt);
    unfold Lexer.advance_char; simpl;
    repeat (match goal with
            | |- context [if ?b then _ else _] =>
                lazymatch b with
                | in_lexeme _ => fail
                | _ => destruct b eqn:?
                end
            end; simpl; rewrite ?Hstate; simpl);
    tab_cases; simpl; rewrite ?Hstate; simpl;
    try match goal with
      | H : Lexer.tab_column _ _ = Some _ |- _ =>
          simpl in H; apply tab_column_Some in H as [_ ->]
      end;
    change (Lexer.current_char (Lexer.start_lexeme l))
      with (Lexer.current_char l) in *;
    try (rewrite Hnul in * by done; simpl in *; discriminate);
    first [exact I | pos_leaf Hinc Hall].
Qed.

(** Where the counters fit, an iteration keeps the column counter bounded
    and its tab arithmetic is defined. *)
Lemma lexer_step_defined l :
  in_buffer l → positions_ok l → column_bounded l →
  counters_fit (Lexer.source_ l) (Lexer.columns_per_tab_ l) →
  match Lexer.step l with
  | inl l' =>
      column_bounded l'
      ∧ Lexer.columns_per_tab_ l' = Lexer.columns_per_tab_ l
  | inr r => r ≠ Lexer.Undefined
  end.
Proof.
  intros Hin (Hcol & Htab & _) Hbound Hfit.
  pose proof (in_buffer_at_null l Hin) as Hnul.
  destruct Hin as (Hlast & Hidx & _).
  unfold column_bounded, counters_fit in *.
  rewrite (size_minus_one_last _ _ Hlast) in Hnul.
  set (w := Lexer.columns_per_tab_ l) in *.
  set (i := Lexer.index_ l) in *.
  set (c := Lexer.column_number_ l) in *.
  assert (1 <= 1 + Z.of_nat i * (w + 1)) as Hone by nia.
  assert (1 <= 1 + Z.of_nat (S i) * (w + 1)) as Hone' by nia.
  assert (c + 1 <= 1 + Z.of_nat (S i) * (w + 1)) as Hnext by nia.
  assert (Z.of_nat i ≠ Z.of_nat (length (Lexer.source_ l)) - 1 →
          1 + Z.of_nat (S i) * (w + 1) <= Lexer.INT_MAX) as Hmax by nia.
  unfold Lexer.step, Lexer.add_identifier_or_keyword.
  destruct (Lexer.state_ l); cbv zeta;
    change (Lexer.current_char (Lexer.start_lexeme l))
      with (Lexer.current_char l);
    unfold Lexer.advance_char; simpl;
    rewrite ?(size_minus_one_last _ _ Hlast);
    repeat (match goal with
            | |- context [if ?b then _ else _] => destruct b eqn:?
            end; simpl);
    try done;
    try (rewrite Hnul in * by done; simpl in *; discriminate).
  unfold Lexer.advance_tab. simpl. fold w c i.
  match goal with H : (_ =? _) = false |- _ => apply Z.eqb_neq in H end.
  rewrite tab_column_in_range by lia. simpl. split; [|done].
  enough ((c + 1 + w) ÷ w * w <= c + 1 + w) by lia.
  rewrite Z.quot_div_nonneg by lia. rewrite Z.mul_comm.
  apply Z.mul_div_le. lia.
Qed.

Lemma lexer_run_positions fuel l r :
  in_buffer l → positions_ok l → column_bounded l →
  counters_fit (Lexer.source_ l) (Lexer.columns_per_tab_ l) →
  Lexer.run fuel l = Some r →
  ∃ toks, r = Lexer.Returned toks ∧ positions_increase toks.
Proof.
  revert l. induction fuel as [|fuel IH]; intros l Hin Hok Hbound Hfit Hrun;
    [done|].
  rewrite run_S in Hrun. pose proof (lexer_step_positions l Hin Hok) as Hpos.
  pose proof (lexer_step_defined l Hin Hok Hbound Hfit) as Hdef.
  destruct (lexer_step_progress l Hin)
    as [[r' Hstep]|(l' & Hstep & Hin' & Hsrc & _)];
    rewrite Hstep in *.
  - simplify_eq. destruct r as [toks|]; [eauto|done].
  - destruct Hdef as [Hbound' Hw]. apply (IH l'); try done.
    by rewrite Hsrc, Hw.
Qed.

(** X19.  On a source that ends in the null character, with a positive tab
    width and where the counters fit the range of [int] (the product of the
    tab width plus one and the length of the source plus one is in that
    range), [Lexer::run] can only end by returning, its tab arithmetic being
    defined throughout, and the tokens it returns are in the order of their
    positions: each token's line and column lie strictly before those of
    every later token. *)
Theorem lexer_positions_increase (source : list ascii) (w : Z) (fuel : nat)
    (r : Lexer.Result) :
  last source = Some NUL → 0 < w → counters_fit source w →
  Lexer.run fuel (Lexer.set_columns_per_tab w (Lexer.new source)) = Some r →
  ∃ toks, r = Lexer.Returned toks ∧ positions_increase toks.
Proof.
  intros Hlast Hw Hfit. apply lexer_run_positions.
  - destruct (in_buffer_new source Hlast) as (H1 & H2 & H3). by repeat split.
  - repeat split; simpl; [lia|done|by intros i j s t _ [=]|constructor].
  - unfold column_bounded. simpl. lia.
  - done.
Qed.

Lemma lexer_positions_increase_witness :
  ∃ toks, Lexer.Returned add_lexed = Lexer.Returned toks
          ∧ positions_increase toks.
Proof.
  apply (lexer_positions_increase add_source 2 100 (Lexer.Returned add_lexed));
    [reflexivity|lia|by vm_compute|reflexivity].
Defined.

(** X2.  On a buffer that ends with the null character, [run] either returns
    within twice as many iterations as the buffer has characters, or never
    returns at all: it then loops for ever, unless within those iterations
    its tab arithmetic has left the range of [int], which is undefined and
    takes a buffer so long that the counters do not fit that range. *)
Theorem lexer_returns_early_or_never (source : list ascii) :
  last source = Some NUL →
  (∃ toks, Lexer.run (2 * length source) (Lexer.new source)
           = Some (Lexer.Returned toks))
  ∨ (Lexer.run (2 * length source) (Lexer.new source) = Some Lexer.Undefined
     ∧ ¬ counters_fit source 2)
  ∨ (∀ fuel, Lexer.run fuel (Lexer.new source) = None).
Proof.
  intros Hlast.
  assert (0 < length source)%nat as Hpos
    by (destruct source; [done|simpl; lia]).
  destruct (lexer_decides (2 * (length source - 1)) (Lexer.new source)
              (in_buffer_new _ Hlast))
    as [[r Hrun]|(k & l' & Hafter & Hstuck)].
  - unfold lexer_measure. simpl. lia.
  - apply (run_more_fuel _ 1) in Hrun.
    replace (S (2 * (length source - 1)) + 1)%nat
      with (2 * length source)%nat in Hrun by lia.
    destruct r as [toks|]; [left; by exists toks|].
    right. left. split; [done|]. intros Hfit.
    assert (positions_ok (Lexer.new source)) as Hok.
    { split; [simpl; lia|]. split; [done|].
      split; [by intros i j s t _ [=]|constructor]. }
    assert (column_bounded (Lexer.new source)) as Hbound
      by (unfold column_bounded; simpl; lia).
    by destruct (lexer_run_positions _ _ _ (in_buffer_new _ Hlast) Hok
                   Hbound Hfit Hrun) as (toks & Htoks & _).
  - right. right. intros fuel.
    destruct (Lexer.run fuel (Lexer.new source)) as [r|] eqn:Hrun; [|done].
    pose proof (run_after k _ _ _ Hrun) as H. rewrite Hafter in H.
    destruct H as [_ H]. by rewrite stuck_never_returns in H.
Qed.

Lemma lexer_returns_early_or_never_witness :
  (∃ toks, Lexer.run (2 * length (null_terminated "a // b"))
             (Lexer.new (null_terminated "a // b"))
           = Some (Lexer.Returned toks))
  ∨ (Lexer.run (2 * length (null_terminated "a // b"))
       (Lexer.new (null_terminated "a // b")) = Some Lexer.Undefined
     ∧ ¬ counters_fit (null_terminated "a // b") 2)
  ∨ (∀ fuel, Lexer.run fuel (Lexer.new (null_terminated "a // b")) = None).
Proof.
  apply (lexer_returns_early_or_never (null_terminated "a // b")).
  reflexivity.
Defined.

(** ** The parser: parent links *)

Lemma parent_snoc g e q :
  Graph.parent (g ++ [e]) q
  = if decide (q = length g) then Some (parent_ e) else Graph.parent g q.
Proof.
  unfold Graph.parent. case_decide as Hq.
  - subst. by rewrite list_lookup_middle.
  - destruct (decide (q < length g)%nat).
    + by rewrite lookup_app_l.
    + rewrite !lookup_ge_None_2; [done|lia|rewrite length_app; simpl; lia].
Qed.

Lemma parent_fresh g : Graph.parent g (length g) = None.
Proof. unfold Graph.parent. by rewrite lookup_ge_None_2. Qed.

Lemma set_data_effect p F g g' :
  Graph.set_data p F g = Some g' →
  (∀ q, Graph.parent g' q = Graph.parent g q)
  ∧ ∃ d d', dat g p = Some d ∧ F d = Some d'
            ∧ ∀ q, dat g' q = if decide (q = p) then Some d' else dat g q.
Proof.
  intros H. split; [by eapply set_data_parent|].
  unfold Graph.set_data in H.
  apply bind_Some in H as (e & He & H).
  apply bind_Some in H as (d' & Hd' & H). simplify_eq.
  exists (data e), d'. unfold dat. rewrite He. split; [done|].
  split; [done|]. intros q. case_decide as Hq.
  - subst. by rewrite list_lookup_insert_eq by eauto using lookup_lt_Some.
  - by rewrite list_lookup_insert_ne.
Qed.

Lemma set_name_effect p n g g' :
  Graph.set_name p n g = Some g' →
  (∀ q, Graph.parent g' q = Graph.parent g q) ∧ ∀ q, dat g' q = dat g q.
Proof.
  unfold Graph.set_name, Graph.parent, dat. intros H.
  apply bind_Some in H as (e & He & H). simplify_eq.
  split; intros q; (destruct (decide (q = p)) as [->|Hne];
    [rewrite list_lookup_insert_eq by eauto using lookup_lt_Some;
     by rewrite He
    |by rewrite list_lookup_insert_ne]).
Qed.

Lemma set_parent_effect p x g g' :
  Graph.set_parent p x g = Some g' →
  (∀ q, Graph.parent g' q
        = if decide (q = p) then Some x else Graph.parent g q)
  ∧ (∀ q, dat g' q = dat g q) ∧ is_Some (dat g p).
Proof.
  unfold Graph.set_parent, Graph.parent, dat. intros H.
  apply bind_Some in H as (e & He & H). simplify_eq.
  split; [|split].
  - intros q. case_decide as Hq.
    + subst. by rewrite list_lookup_insert_eq by eauto using lookup_lt_Some.
    + by rewrite list_lookup_insert_ne.
  - intros q. destruct (decide (q = p)) as [->|Hne].
    + rewrite list_lookup_insert_eq by eauto using lookup_lt_Some.
      by rewrite He.
    + by rewrite list_lookup_insert_ne.
  - rewrite He. eauto.
Qed.

Lemma add_effect k c e g g' :
  Graph.add k c e g = Some g' →
  ∃ d l d',
    dat g c = Some d ∧ Graph.entities_ k d = Some l
    ∧ Graph.with_entities k (l ++ [e]) d = Some d'
    ∧ (∀ q, dat g' q = if decide (q = c) then Some d' else dat g q)
    ∧ (∀ q, Graph.parent g' q
            = if decide (q = e) then Some (Some c) else Graph.parent g q).
Proof.
  intros H. apply add_inv in H as (l & g1 & Hl & H1 & H2).
  apply set_data_effect in H1 as (Hpar1 & d & d' & Hd & Hd' & Hdat1).
  apply set_parent_effect in H2 as (Hpar2 & Hdat2 & _).
  exists d, l, d'. split; [done|]. split.
  { unfold Graph.entities in Hl. unfold dat in Hd.
    destruct (g !! c); simpl in *; by simplify_eq. }
  split; [done|]. split.
  - intros q. by rewrite Hdat2, Hdat1.
  - intros q. rewrite Hpar2. case_decide; [done|apply Hpar1].
Qed.

#[local] Arguments Graph.parent : simpl never.

Ltac effects :=
  repeat match goal with
    | H : Graph.add _ _ _ _ = Some _ |- _ =>
        apply add_effect in H as (? & ? & ? & ? & ? & ? & ? & ?)
    | H : Graph.set_name _ _ _ = Some _ |- _ =>
        apply set_name_effect in H as [? ?]
    | H : Graph.set_return_type _ _ _ = Some _ |- _ =>
        apply set_data_effect in H as (? & ? & ? & ? & ? & ?)
    | H : Graph.set_return_class _ _ _ = Some _ |- _ =>
        apply set_data_effect in H as (? & ? & ? & ? & ? & ?)
    | H : Graph.set_cls _ _ _ = Some _ |- _ =>
        apply set_data_effect in H as (? & ? & ? & ? & ? & ?)
    | H : Graph.set_expression _ _ _ = Some _ |- _ =>
        apply set_data_effect in H as (? & ? & ? & ? & ? & ?)
    | H : Graph.set_operator_type _ _ _ = Some _ |- _ =>
        apply set_data_effect in H as (? & ? & ? & ? & ? & ?)
    | H : Graph.set_object _ _ _ = Some _ |- _ =>
        apply set_data_effect in H as (? & ? & ? & ? & ? & ?)
    end.

(** Everything in terms of the store before the iteration. *)
Ltac to_base :=
  repeat match goal with
    | E : ∀ q, dat ?g q = _, H : context [dat ?g _] |- _ =>
        rewrite E in H
    | E : ∀ q, dat ?g q = _ |- context [dat ?g _] => rewrite E
    | E : ∀ q, Graph.parent ?g q = _, H : context [Graph.parent ?g _] |- _ =>
        rewrite E in H
    | E : ∀ q, Graph.parent ?g q = _ |- context [Graph.parent ?g _] =>
        rewrite E
    | H : context [dat (_ ++ [_]) _] |- _ => rewrite dat_snoc in H
    | |- context [dat (_ ++ [_]) _] => rewrite dat_snoc
    | H : context [Graph.parent (_ ++ [_]) _] |- _ =>
        rewrite parent_snoc in H
    | |- context [Graph.parent (_ ++ [_]) _] => rewrite parent_snoc
    end.

Ltac kinds :=
  repeat match goal with
    | H : Graph.entities_ _ ?d = Some _ |- _ =>
        is_var d; destruct d; simpl in H; simplify_eq
    | H : Graph.with_entities _ _ _ = Some _ |- _ =>
        simpl in H; simplify_eq
    | H : match ?d with _ => _ end = Some _ |- _ =>
        is_var d; destruct d; simplify_eq
    | H : Some (data _) = Some _ |- _ => simpl in H; simplify_eq
    end.

Ltac splits :=
  repeat (first [case_decide | kinds]; simplify_eq; simpl in *; kinds).

Ltac saturate H1 H2 H3 H4 :=
  repeat match goal with
    | H : _ ∈ _ ++ _ |- _ => apply elem_of_app in H as [H|H]
    | H : _ ∈ [_] |- _ => apply list_elem_of_singleton in H; subst
    | H : _ ∈ [] |- _ => by apply elem_of_nil in H
    end;
  repeat match goal with
    | Hd : dat ?g ?c = Some ?d, Hq : ?q ∈ _ |- _ =>
        lazymatch goal with
        | _ : Graph.parent g q = Some (Some c) |- _ => fail
        | _ =>
            assert (Graph.parent g q = Some (Some c))
              by (apply (H1 c d q Hd); simpl;
                  first [assumption|apply elem_of_app; by auto])
        end
    | Hd : dat ?g ?r = Some (ReturnStatement (Some ?e)) |- _ =>
        lazymatch goal with
        | _ : Graph.parent g e = Some None |- _ => fail
        | _ => destruct (H2 r e Hd) as (? & ? & ?)
        end
    end;
  try (pose proof (H3 _ eq_refl));
  try match goal with
    | Hp : Parser.operator_expression_ _ = Some ?x |- _ =>
        pose proof (H3 x Hp)
    end;
  try (destruct (H4 _ eq_refl) as [? ?]);
  try match goal with
    | Hoe : Parser.object_expression_ _ = Some ?x |- _ =>
        destruct (H4 x Hoe) as [? ?]
    end;
  try match goal with
    | |- Some _ ≠ Parser.operator_expression_ _ =>
        let Heq := fresh in
        intros Heq; symmetry in Heq; pose proof (H3 _ Heq)
    | |- Some _ ≠ Parser.object_expression_ _ =>
        let Heq := fresh in
        intros Heq; symmetry in Heq; destruct (H4 _ Heq) as [? ?]
    end.

Lemma step_parents p p' :
  parser_parents_ok p → Parser.step p = inl p' → parser_parents_ok p'.
Proof.
  intros Hok H. pose proof Hok as (H1 & H2 & H3 & H4).
  pose proof (dat_fresh (Parser.store p)) as Hfd.
  pose proof (parent_fresh (Parser.store p)) as Hfp.
  unfold Parser.step, Parser.next, Parser.fail in H.
  destruct (Parser.current_token p) as [tok|] eqn:Htok; [|done].
  repeat case_match; simplify_eq;
    try (by unfold parser_parents_ok; simpl);
    repeat match goal with
    | H : _ ≫= _ = Some _ |- _ =>
        apply bind_Some in H as (? & ? & H)
    | H : Graph.make_shared _ _ = _ |- _ =>
        unfold Graph.make_shared in H
    | H : match ?x with Some _ => _ | None => _ end = Some _ |- _ =>
        destruct x eqn:?; [|done]
    | H : Some _ = Some _ |- _ => simplify_eq
    | H : (_, _) = (_, _) |- _ => simplify_eq
    end;
    match goal with
    | H : Parser.advance_token _ = Some _ |- _ =>
        apply advance_token_spec in H as [[-> _]|[-> _]]
    end;
    unfold parser_parents_ok; simpl; try exact Hok;
    effects.
  all: split_and!.
  all: intros; simplify_eq; repeat split; to_base; splits;
    saturate H1 H2 H3 H4; congruence.
Qed.

Lemma prologue_parents tokens p :
  Parser.prologue (Parser.new tokens) = Some p → parser_parents_ok p.
Proof.
  rewrite prologue_new. intros [= <-].
  unfold parser_parents_ok. simpl. split_and!; try done.
  - intros [|[|c]] d q Hc Hq; unfold dat in Hc; simpl in *; simplify_eq;
      simpl in *.
    + apply list_elem_of_singleton in Hq as ->. done.
    + by apply elem_of_nil in Hq.
  - intros [|[|r]] e Hr; unfold dat in Hr; simpl in *; simplify_eq.
Qed.

Lemma loop_parents fuel p package g :
  parser_parents_ok p →
  Parser.loop fuel p = Some (Parser.Returned package g) →
  ∃ pending oe, parents_ok g pending oe.
Proof.
  revert p. induction fuel as [|fuel IH]; intros p Hok Hloop; [done|].
  rewrite parser_loop_S in Hloop.
  destruct (Parser.step p) as [p'|r] eqn:Hstep.
  - eapply IH; [|exact Hloop]. eauto using step_parents.
  - simplify_eq. unfold Parser.step, Parser.next, Parser.fail in Hstep.
    repeat case_match; simplify_eq. by do 2 eexists.
Qed.

Lemma entities_children k c g l :
  Graph.entities k c g = Some l →
  ∃ d, dat g c = Some d ∧ ∀ q, q ∈ l → q ∈ children d.
Proof.
  unfold Graph.entities, dat. intros H.
  apply bind_Some in H as (ent & -> & H). exists (data ent).
  split; [done|]. intros q Hq.
  destruct k, (data ent); simpl in *; simplify_eq; simpl;
    rewrite ?elem_of_app; auto.
Qed.

(** X20.  Parent links of a parsed program.  In the graph that
    [Parser::run] returns, every entity that a container lists (the classes
    and functions of the package, the parameters and statements of a
    function, the operands of an operator expression) has the container's
    owner as its parent.  The expression of a return statement has no
    parent: [ReturnStatement::set_expression] stores the handle and leaves
    the expression's parent null. *)
Theorem parser_parent_links (tokens : list Token) (fuel : nat)
    (package : option ptr) (g : Store) :
  Parser.run fuel (Parser.new tokens) = Some (Parser.Returned package g) →
  (∀ k c l q, Graph.entities k c g = Some l → q ∈ l →
     Graph.parent g q = Some (Some c))
  ∧ (∀ r e, Graph.expression g r = Some (Some e) →
       Graph.parent g e = Some None).
Proof.
  unfold Parser.run. intros Hrun.
  destruct (Parser.prologue (Parser.new tokens)) as [p|] eqn:Hp; [|done].
  destruct (loop_parents fuel p package g (prologue_parents _ _ Hp) Hrun)
    as (pending & oe & H1 & H2 & _).
  split.
  - intros k c l q Hl Hq.
    destruct (entities_children k c g l Hl) as (d & Hd & Hsub). eauto.
  - intros r e Hr. apply (H2 r e).
    unfold Graph.expression in Hr. unfold dat.
    destruct (g !! r) as [ent|]; simpl in *; [|done].
    destruct (data ent); by simplify_eq.
Qed.

Lemma parser_parent_links_witness :
  (∀ k c l q, Graph.entities k c add_graph = Some l → q ∈ l →
     Graph.parent add_graph q = Some (Some c))
  ∧ (∀ r e, Graph.expression add_graph r = Some (Some e) →
       Graph.parent add_graph e = Some None).
Proof.
  apply (parser_parent_links add_lexed 100 (Some 0%nat) add_graph).
  reflexivity.
Defined.

(** ** The parser: the package and its only class *)

Lemma lookup_snoc (g : Store) e q :
  (g ++ [e]) !! q = if decide (q = length g) then Some e else g !! q.
Proof.
  case_decide as Hq.
  - subst. by rewrite list_lookup_middle.
  - destruct (decide (q < length g)%nat).
    + by rewrite lookup_app_l.
    + rewrite !lookup_ge_None_2; [done|lia|rewrite length_app; simpl; lia].
Qed.

Lemma set_data_lookup p F (g g' : Store) :
  Graph.set_data p F g = Some g' →
  ∃ e d', g !! p = Some e ∧ F (data e) = Some d'
          ∧ ∀ q, g' !! q = if decide (q = p)
                           then Some (mkEntity (name_ e) (parent_ e) d')
                           else g !! q.
Proof.
  unfold Graph.set_data. intros H.
  apply bind_Some in H as (e & He & H).
  apply bind_Some in H as (d' & Hd' & H). simplify_eq.
  exists e, d'. split; [done|]. split; [done|]. intros q. case_decide as Hq.
  - subst. by rewrite list_lookup_insert_eq by eauto using lookup_lt_Some.
  - by rewrite list_lookup_insert_ne.
Qed.

Lemma set_name_lookup p n (g g' : Store) :
  Graph.set_name p n g = Some g' →
  ∃ e, g !! p = Some e
       ∧ ∀ q, g' !! q = if decide (q = p)
                        then Some (mkEntity n (parent_ e) (data e))
                        else g !! q.
Proof.
  unfold Graph.set_name. intros H.
  apply bind_Some in H as (e & He & H). simplify_eq.
  exists e. split; [done|]. intros q. case_decide as Hq.
  - subst. by rewrite list_lookup_insert_eq by eauto using lookup_lt_Some.
  - by rewrite list_lookup_insert_ne.
Qed.

Lemma set_parent_lookup p x (g g' : Store) :
  Graph.set_parent p x g = Some g' →
  ∃ e, g !! p = Some e
       ∧ ∀ q, g' !! q = if decide (q = p)
                        then Some (mkEntity (name_ e) x (data e))
                        else g !! q.
Proof.
  unfold Graph.set_parent. intros H.
  apply bind_Some in H as (e & He & H). simplify_eq.
  exists e. split; [done|]. intros q. case_decide as Hq.
  - subst. by rewrite list_lookup_insert_eq by eauto using lookup_lt_Some.
  - by rewrite list_lookup_insert_ne.
Qed.

Lemma entities_lookup k c (g : Store) l :
  Graph.entities k c g = Some l →
  ∃ e, g !! c = Some e ∧ Graph.entities_ k (data e) = Some l.
Proof.
  unfold Graph.entities. intros H.
  apply bind_Some in H as (e & He & H). eauto.
Qed.

Ltac lookup_effects :=
  repeat match goal with
    | H : Graph.add _ _ _ _ = Some _ |- _ =>
        apply add_inv in H as (? & ? & ? & ? & ?)
    | H : Graph.entities _ _ _ = Some _ |- _ =>
        apply entities_lookup in H as (? & ? & ?)
    | H : Graph.set_name _ _ _ = Some _ |- _ =>
        apply set_name_lookup in H as (? & ? & ?)
    | H : Graph.set_parent _ _ _ = Some _ |- _ =>
        apply set_parent_lookup in H as (? & ? & ?)
    | H : Graph.set_data _ _ _ = Some _ |- _ =>
        apply set_data_lookup in H as (? & ? & ? & ? & ?)
    | H : Graph.set_return_type _ _ _ = Some _ |- _ =>
        apply set_data_lookup in H as (? & ? & ? & ? & ?)
    | H : Graph.set_return_class _ _ _ = Some _ |- _ =>
        apply set_data_lookup in H as (? & ? & ? & ? & ?)
    | H : Graph.set_cls _ _ _ = Some _ |- _ =>
        apply set_data_lookup in H as (? & ? & ? & ? & ?)
    | H : Graph.set_expression _ _ _ = Some _ |- _ =>
        apply set_data_lookup in H as (? & ? & ? & ? & ?)
    | H : Graph.set_operator_type _ _ _ = Some _ |- _ =>
        apply set_data_lookup in H as (? & ? & ? & ? & ?)
    | H : Graph.set_object _ _ _ = Some _ |- _ =>
        apply set_data_lookup in H as (? & ? & ? & ? & ?)
    end.

Ltac lookups_to_base :=
  repeat match goal with
    | E : ∀ q : nat, ?g !! q = _, H : context [?g !! _] |- _ =>
        rewrite E in H
    | E : ∀ q : nat, ?g !! q = _ |- context [?g !! _] => rewrite E
    | H : context [(_ ++ [_]) !! _] |- _ => rewrite lookup_snoc in H
    | |- context [(_ ++ [_]) !! _] => rewrite lookup_snoc
    end.

Lemma step_package_and_class p p' :
  package_and_class_ok p → Parser.step p = inl p' →
  package_and_class_ok p'.
Proof.
  intros Hok H.
  pose proof Hok as (Hpkg & [fs H0] & H1 & Hf & Ho & Hoe & Hope).
  pose proof (lookup_lt_Some _ _ _ H1) as Hlen.
  unfold Parser.step, Parser.next, Parser.fail in H.
  destruct (Parser.current_token p) as [tok|] eqn:Htok; [|done].
  repeat case_match; simplify_eq;
    try (by unfold package_and_class_ok; simpl);
    repeat match goal with
    | H : _ ≫= _ = Some _ |- _ =>
        apply bind_Some in H as (? & ? & H)
    | H : Graph.make_shared _ _ = _ |- _ =>
        unfold Graph.make_shared in H
    | H : match ?x with Some _ => _ | None => _ end = Some _ |- _ =>
        destruct x eqn:?; [|done]
    | H : Some _ = Some _ |- _ => simplify_eq
    | H : (_, _) = (_, _) |- _ => simplify_eq
    end;
    try match goal with
    | H : Parser.advance_token _ = Some _ |- _ =>
        apply advance_token_spec in H as [[-> _]|[-> _]]
    end;
    unfold package_and_class_ok; simpl;
    try (by split_and!; eauto);
    lookup_effects.
  all: try (pose proof (Hope _ eq_refl)); try (pose proof (Hoe _ eq_refl));
    try (pose proof (Hf _ eq_refl));
    repeat match goal with
      | Hx : Parser.operator_expression_ _ = Some ?x |- _ =>
          pose proof (Hope x Hx); clear Hx
      | Hx : Parser.object_expression_ _ = Some ?x |- _ =>
          pose proof (Hoe x Hx); clear Hx
      | Hx : Parser.function_ _ = Some ?x |- _ =>
          pose proof (Hf x Hx); clear Hx
      | Hx : Parser.object_ _ = Some ?x |- _ =>
          try pose proof (Ho x eq_refl Hx); clear Hx
      end.
  all: split_and!; try done.
  all: try (solve [intros; simplify_eq; first [lia | eauto | done]]).
  all: simpl in *; lookups_to_base;
    repeat (case_decide; subst; try lia);
    simplify_eq; simpl in *; simplify_eq; eauto.
Qed.

Lemma loop_package_and_class fuel p package g :
  package_and_class_ok p →
  Parser.loop fuel p = Some (Parser.Returned package g) →
  package = Some 0%nat
  ∧ (∃ fs, g !! 0%nat = Some (mkEntity "default" None (Package [1%nat] fs)))
  ∧ g !! 1%nat = Some (mkEntity "int" (Some 0%nat) Class).
Proof.
  revert p. induction fuel as [|fuel IH]; intros p Hok Hloop; [done|].
  rewrite parser_loop_S in Hloop.
  destruct (Parser.step p) as [p'|r] eqn:Hstep.
  - eapply IH; [|exact Hloop]. eauto using step_package_and_class.
  - simplify_eq. apply step_returned in Hstep as [-> ->].
    destruct Hok as (Hpkg & H0 & H1 & _). by rewrite Hpkg.
Qed.

(** X21.  The parser never adds a class and never touches the two entities
    that [run] creates before its loop.  Whenever [Parser::run] returns, it
    returns the package named [default], which has no parent; the classes of
    that package are the one class named [int], whose parent is the
    package.  So every parameter type and every return type of a parsed
    program is this class. *)
Theorem parser_only_class_is_int (tokens : list Token) (fuel : nat)
    (returned : option ptr) (g : Store) :
  Parser.run fuel (Parser.new tokens) = Some (Parser.Returned returned g) →
  ∃ package cls,
    returned = Some package
    ∧ Graph.name g package = Some "default"
    ∧ Graph.parent g package = Some None
    ∧ Graph.entities Classes package g = Some [cls]
    ∧ Graph.is_class g cls
    ∧ Graph.name g cls = Some "int"
    ∧ Graph.parent g cls = Some (Some package).
Proof.
  unfold Parser.run. rewrite prologue_new. intros Hrun.
  apply loop_package_and_class in Hrun as (-> & [fs H0] & H1).
  - exists 0%nat, 1%nat.
    unfold Graph.name, Graph.parent, Graph.entities, Graph.is_class.
    rewrite H0, H1. by repeat split.
  - unfold package_and_class_ok. simpl. split_and!; try done. eauto.
Qed.

Lemma parser_only_class_is_int_witness :
  ∃ package cls,
    Some 0%nat = Some package
    ∧ Graph.name add_graph package = Some "default"
    ∧ Graph.parent add_graph package = Some None
    ∧ Graph.entities Classes package add_graph = Some [cls]
    ∧ Graph.is_class add_graph cls
    ∧ Graph.name add_graph cls = Some "int"
    ∧ Graph.parent add_graph cls = Some (Some package).
Proof.
  apply (parser_only_class_is_int add_lexed 100 (Some 0%nat) add_graph).
  reflexivity.
Defined.

(** ** The lexer: lexemes and token types *)

Lemma get_lexeme_1 l c :
  Lexer.index_ l = S (Lexer.start_index_ l) →
  Lexer.source_ l !! Lexer.start_index_ l = Some c →
  Lexer.get_lexeme l = String c "".
Proof.
  intros Hidx Hc. unfold Lexer.get_lexeme. rewrite Hidx.
  rewrite (leb_correct _ _ (Nat.le_succ_diag_r _)).
  replace (S (Lexer.start_index_ l) - Lexer.start_index_ l)%nat with 1%nat
    by lia.
  by rewrite (drop_S _ _ _ Hc).
Qed.

Lemma get_lexeme_2 l c d :
  Lexer.index_ l = S (S (Lexer.start_index_ l)) →
  Lexer.source_ l !! Lexer.start_index_ l = Some c →
  Lexer.source_ l !! S (Lexer.start_index_ l) = Some d →
  Lexer.get_lexeme l = String c (String d "").
Proof.
  intros Hidx Hc Hd. unfold Lexer.get_lexeme. rewrite Hidx.
  rewrite leb_correct by lia.
  replace (S (S (Lexer.start_index_ l)) - Lexer.start_index_ l)%nat
    with 2%nat by lia.
  by rewrite (drop_S _ _ _ Hc), (drop_S _ _ _ Hd).
Qed.

Lemma spelled_word lexeme line column :
  spelled (mkToken (Lexer.get_keyword_token_type lexeme) lexeme line column).
Proof.
  unfold spelled, Lexer.get_keyword_token_type. simpl.
  destruct (String.eqb_spec lexeme "func") as [->|Hf]; [done|].
  destruct (String.eqb_spec lexeme "return") as [->|Hr]; done.
Qed.

Lemma in_buffer_current l :
  in_buffer l →
  Lexer.source_ l !! Lexer.index_ l = Some (Lexer.current_char l).
Proof.
  intros (_ & Hlt & _). unfold Lexer.current_char.
  destruct (lookup_lt_is_Some_2 _ _ Hlt) as [c ->]. done.
Qed.

Lemma lexer_step_lexemes l :
  in_buffer l → lexemes_ok l →
  match Lexer.step l with
  | inl l' => lexemes_ok l'
  | inr (Lexer.Returned toks) => Forall spelled toks
  | inr Lexer.Undefined => True
  end.
Proof.
  intros Hin (Hall & Hst).
  pose proof (in_buffer_at_null l Hin) as Hnul.
  pose proof (in_buffer_current l Hin) as Hcur. clear Hin.
  unfold Lexer.step, Lexer.add_identifier_or_keyword, lexemes_ok.
  destruct (Lexer.state_ l) eqn:Hstate; cbv zeta;
    unfold Lexer.advance_char; simpl;
    repeat (match goal with
            | |- context [if ?b then _ else _] => destruct b eqn:?
            end; simpl; rewrite ?Hstate; simpl);
    tab_cases; simpl; rewrite ?Hstate; simpl; try exact I;
    change (Lexer.current_char (Lexer.start_lexeme l))
      with (Lexer.current_char l) in *;
    try (rewrite Hnul in * by done; simpl in *; discriminate);
    repeat match goal with
      | H : Ascii.eqb _ _ = true |- _ => apply Ascii.eqb_eq in H
      end;
    try (split; [|done]); try exact Hall;
    try (apply Forall_app; split; [exact Hall|apply Forall_singleton]).
  all: try apply spelled_word.
  all: try (split; [exact Hall|split; [done|rewrite Hcur; congruence]]).
  all: unfold spelled; simpl.
  all: try apply get_lexeme_start_lexeme.
  all: try match type of Hst with
         | _ ∧ _ => destruct Hst as [Hidx Hstart]
         end.
  all: try (by eapply get_lexeme_1).
  all: try (eapply get_lexeme_1; simpl; [reflexivity|rewrite Hcur; congruence]).
  all: eapply get_lexeme_2; simpl; [by rewrite Hidx|done|].
  all: rewrite <- Hidx, Hcur; congruence.
Qed.

Lemma lexer_run_lexemes fuel l toks :
  in_buffer l → lexemes_ok l →
  Lexer.run fuel l = Some (Lexer.Returned toks) → Forall spelled toks.
Proof.
  revert l. induction fuel as [|fuel IH]; intros l Hin Hok Hrun; [done|].
  rewrite run_S in Hrun. pose proof (lexer_step_lexemes l Hin Hok) as Hlex.
  destruct (lexer_step_progress l Hin)
    as [[r Hstep]|(l' & Hstep & Hin' & _)];
    rewrite Hstep in *.
  - by simplify_eq.
  - by apply (IH l').
Qed.

(** X22.  Lexemes agree with token types.  On a source that ends in the null
    character, every token that [Lexer::run] returns is spelled as its type
    says: a punctuation or operator token has that character or pair of
    characters as its lexeme, the [end] token has the empty lexeme, a
    keyword token has the keyword as its lexeme, and no identifier token is
    spelled [func] or [return]. *)
Theorem lexer_tokens_spelled (source : list ascii) (fuel : nat)
    (toks : list Token) :
  last source = Some NUL →
  Lexer.run fuel (Lexer.new source) = Some (Lexer.Returned toks) →
  Forall spelled toks.
Proof.
  intros Hlast. apply lexer_run_lexemes; [by apply in_buffer_new|].
  split; [constructor|done].
Qed.

Lemma lexer_tokens_spelled_witness : Forall spelled add_lexed.
Proof.
  apply (lexer_tokens_spelled add_source 100 add_lexed); reflexivity.
Defined.
